(** * Swarm overlay: routing table (common/kademlia/kademlia.go) and
      wire protocol (bzz/protocol.go)

    A shallow embedding of the Go sources.  Go's [int] is a 64-bit two's
    complement integer: it is a [Z] here and every arithmetic operation the
    source performs on an [int] field is followed by [int_wrap].  Slices are
    lists; an index outside a slice panics in Go, which the embedding shows
    as [None]. *)

From Stdlib Require Import ZArith Lia Bool String Ascii.
From stdpp Require Import base option list sorting gmap.

Local Open Scope Z_scope.

(** ** Machine integers *)

Definition int_min : Z := - 2 ^ 63.
Definition int_max : Z := 2 ^ 63 - 1.

(** Two's complement wrap-around of Go's [int]. *)
Definition int_wrap (z : Z) : Z := (z + 2 ^ 63) mod 2 ^ 64 - 2 ^ 63.

(** Conversion to [uint8]. *)
Definition uint8 (z : Z) : Z := z mod 256.

(** [len(s)] as a Go [int]. *)
Definition len {A} (s : list A) : Z := Z.of_nat (length s).

(** ** Addresses and the XOR metric (kademlia.go, lines 442-482) *)

Module Kad.

(** [type Address common.Hash], that is [[32]byte], most significant byte
    first.  A byte is a [Z] in [0, 256). *)
Definition Address : Type := list Z.

Definition HashLength : nat := 32.

Definition is_byte (b : Z) : Prop := 0 <= b < 256.

Definition wf_address (a : Address) : Prop :=
  length a = HashLength /\ Forall is_byte a.

#[global] Instance is_byte_dec b : Decision (is_byte b).
Proof. unfold is_byte. apply _. Defined.

#[global] Instance wf_address_dec a : Decision (wf_address a).
Proof. unfold wf_address. apply _. Defined.

(** The inner loop of [proximity]:
    [for j := 0; j < 8; j++ { if (uint8(oxo)>>uint8(7-j))&0x1 != 0 { return i*8 + j } }].
    [todo] counts the iterations that are left; the result is the [j] at
    which the loop returns, or [None] when it runs to its end. *)
Fixpoint proximity_bit (oxo : Z) (j : Z) (todo : nat) : option Z :=
  match todo with
  | O => None
  | S todo' =>
      if negb (Z.land (Z.shiftr (uint8 oxo) (uint8 (7 - j))) 1 =? 0)
      then Some j
      else proximity_bit oxo (j + 1) todo'
  end.

(** The outer loop of [proximity], [for i := 0; i < len(one); i++], over
    the bytes that are left from index [i] on. *)
Fixpoint proximity_loop (one other : list Z) (i : Z) : Z :=
  match one, other with
  | x :: one', y :: other' =>
      match proximity_bit (Z.lxor x y) 0 8 with
      | Some j => i * 8 + j
      | None => proximity_loop one' other' (i + 1)
      end
  | _, _ => i * 8
  end.

Definition proximity (one other : Address) : Z := proximity_loop one other 0.

(** [proxCmp]: [for i := range target], comparing [a[i]^target[i]] with
    [b[i]^target[i]]. *)
Fixpoint proxCmp (target a b : Address) : Z :=
  match target, a, b with
  | t :: target', x :: a', y :: b' =>
      let da := Z.lxor x t in
      let db := Z.lxor y t in
      if da >? db then 1
      else if da <? db then -1
      else proxCmp target' a' b'
  | _, _, _ => 0
  end.

(** *** The distance the comments speak of

    "The distance metric MSB(x, y) of two equal length byte sequences x an
    y is the value of the binary integer cast of the xor-ed byte sequence
    (most significant bit first)." *)

Fixpoint be_value (l : list Z) : Z :=
  match l with
  | [] => 0
  | b :: rest => b * 2 ^ (8 * len rest) + be_value rest
  end.

Definition xor_bytes (x y : list Z) : list Z := zip_with Z.lxor x y.

Definition distance (x y : Address) : Z := be_value (xor_bytes x y).

(** Number of leading zero bits of [d] read as a [w]-bit integer. *)
Definition leading_zeros (w d : Z) : Z :=
  if d =? 0 then w else w - 1 - Z.log2 d.

(** Bit [i] of an address, bit 0 being the most significant one. *)
Definition addr_bit (a : Address) (i : Z) : bool :=
  Z.testbit (be_value a) (8 * len a - 1 - i).

(** The bytes 0..255, for exhaustive checks over one byte. *)
Definition all_bytes : list Z := map Z.of_nat (seq 0 256).

End Kad.

(** ** Time (Go's [time.Time], as the standard library of the time had it:
    [struct { sec int64; nsec int32; loc *Location }]) *)

Record Time : Type := mkTime {
  sec : Z;              (* seconds since January 1, year 1 *)
  nsec : Z;             (* nanoseconds within the second *)
  loc : option positive (* [*Location]; [None] is the nil pointer (UTC) *)
}.

(** [time.Time{}], the zero value. *)
Definition zero_time : Time := mkTime 0 0 None.

(** [t == u] on the struct: all three fields. *)
Definition time_eqb (t u : Time) : bool :=
  (sec t =? sec u) && (nsec t =? nsec u) && bool_decide (loc t = loc u).

(** [t.Before(u)]: [t.sec < u.sec || t.sec == u.sec && t.nsec < u.nsec]. *)
Definition Before (t u : Time) : bool :=
  (sec t <? sec u) || ((sec t =? sec u) && (nsec t <? nsec u)).

(** ** The routing table (kademlia.go, lines 21-422) *)

Module Table.
Import Kad.

Definition bucketSize : Z := 20.
Definition maxProx : Z := 255.

(** The [Node] interface: what [Addr()], [Url()] and [LastActive()]
    return.  [Drop()] is not called by the routing table. *)
Record Node : Type := mkNode {
  Addr : Address;
  Url : string;
  LastActive : Time
}.

Record NodeRecord : Type := mkNodeRecord {
  nr_Address : Address;
  nr_Url : string;
  nr_Active : Z;
  nr_node : option Node
}.

(** [type bucket struct { size int; nodes []Node; lock sync.RWMutex }] *)
Record bucket : Type := mkBucket {
  size : Z;
  nodes : list Node
}.

(** [type Kademlia struct].  [started] stands for [quitC != nil].  The
    address index [nodeIndex] and the two locks are left out: the
    operations below neither read nor write the index, and each of them runs
    under [lock] from its first to its last statement.  The index, and the
    rows of [nodeDB] as the slices of pointers they are, are
    [TableExt.RecordDB]. *)
Record Kademlia : Type := mkKademlia {
  addr : Address;
  MaxProx : Z;
  MaxProxBinSize : Z;
  BucketSize : Z;
  currentMaxBucketSize : Z;
  nodeDB : list (list NodeRecord);
  proxLimit : Z;
  proxSize : Z;
  count : Z;
  buckets : list bucket;
  started : bool
}.

Definition set_buckets (k : Kademlia) (bs : list bucket) : Kademlia :=
  mkKademlia (addr k) (MaxProx k) (MaxProxBinSize k) (BucketSize k)
    (currentMaxBucketSize k) (nodeDB k) (proxLimit k) (proxSize k) (count k)
    bs (started k).

Definition set_count (k : Kademlia) (c : Z) : Kademlia :=
  mkKademlia (addr k) (MaxProx k) (MaxProxBinSize k) (BucketSize k)
    (currentMaxBucketSize k) (nodeDB k) (proxLimit k) (proxSize k) c
    (buckets k) (started k).

Definition set_prox (k : Kademlia) (limit sz : Z) : Kademlia :=
  mkKademlia (addr k) (MaxProx k) (MaxProxBinSize k) (BucketSize k)
    (currentMaxBucketSize k) (nodeDB k) limit sz (count k)
    (buckets k) (started k).

(** [s[i]] on a slice: [None] is the run-time panic of an index out of
    range. *)
Definition slice_at {A} (s : list A) (i : Z) : option A :=
  if (0 <=? i) && (i <? len s) then s !! Z.to_nat i else None.

(** [New()]: the zero value of the struct. *)
Definition New : Kademlia :=
  mkKademlia (replicate HashLength 0) 0 0 0 0 [] 0 0 0 [] false.

(** [Count()] *)
Definition Count (k : Kademlia) : Z := count k.

(** [Start(addr)].  [make] panics on a negative length.  It also panics on
    a length above what the runtime can allocate, a bound of the platform
    that lies far above the 257 buckets that addresses of 256 bits can tell
    apart; that panic is not shown here. *)
Definition Start (k : Kademlia) (a : Address) : option Kademlia :=
  if started k then Some k
  else
    let MaxProx' := if MaxProx k =? 0 then maxProx else MaxProx k in
    let BucketSize' := if BucketSize k =? 0 then bucketSize else BucketSize k in
    let MaxProxBinSize' :=
      if MaxProxBinSize k =? 0 then BucketSize' else MaxProxBinSize k in
    if int_wrap (MaxProx' + 1) <? 0 then None
    else
      Some (mkKademlia a MaxProx' MaxProxBinSize' BucketSize'
              (currentMaxBucketSize k)
              (replicate (Z.to_nat (8 * len a)) [])
              (proxLimit k) (proxSize k) (count k)
              (replicate (Z.to_nat (int_wrap (MaxProx' + 1)))
                 (mkBucket BucketSize' []))
              true).

(** [proximityBin] *)
Definition proximityBin (k : Kademlia) (other : Address) : Z :=
  let ret := proximity (addr k) other in
  if ret >? MaxProx k then MaxProx k else ret.

(** *** Buckets *)

(** [worstNode]: [for i, node := range self.nodes], with the running
    [oldest] and [index]. *)
Fixpoint worstNode_loop (ns : list Node) (i : Z) (oldest : Time) (idx : Z) : Z :=
  match ns with
  | [] => idx
  | node :: rest =>
      if time_eqb oldest zero_time || Before (LastActive node) oldest
      then worstNode_loop rest (i + 1) (LastActive node) i
      else worstNode_loop rest (i + 1) oldest idx
  end.

Definition worstNode (b : bucket) : Z := worstNode_loop (nodes b) 0 zero_time 0.

(** [insert].  The returned [err] is always nil; [None] is the panic of
    [self.nodes[worst] = node] on an index out of range. *)
Definition insert (b : bucket) (node : Node) : option bucket :=
  if len (nodes b) >=? size b then
    let worst := worstNode b in
    if (0 <=? worst) && (worst <? len (nodes b))
    then Some (mkBucket (size b) (<[Z.to_nat worst := node]> (nodes b)))
    else None
  else Some (mkBucket (size b) (nodes b ++ [node])).

(** The loop of [RemoveNode]:
    [for i := 0; i < len(bucket.nodes); i++ { if node.Addr() == bucket.nodes[i].Addr()
       { bucket.nodes = append(bucket.nodes[:i], bucket.nodes[(i+1):]...) } }].
    After a removal at [i] the loop goes on at [i+1] of the shortened
    slice. [todo] bounds the iterations by the initial length. *)
Fixpoint remove_loop (todo : nat) (a : Address) (ns : list Node) (i : nat) : list Node :=
  match todo with
  | O => ns
  | S todo' =>
      match ns !! i with
      | None => ns
      | Some x =>
          if bool_decide (a = Addr x)
          then remove_loop todo' a (take i ns ++ drop (S i) ns) (S i)
          else remove_loop todo' a ns (S i)
      end
  end.

(** *** proxLimit and proxSize *)

(** First case of [adjustProx]:
    [for ; self.proxLimit < self.MaxProx && len(self.buckets[self.proxLimit].nodes) > 0; self.proxLimit++]. *)
Fixpoint advance_loop (todo : nat) (bs : list bucket) (maxprox limit sz : Z)
  : option (Z * Z) :=
  match todo with
  | O => Some (limit, sz)
  | S todo' =>
      if limit <? maxprox then
        b ← slice_at bs limit;
        if len (nodes b) >? 0
        then advance_loop todo' bs maxprox
               (int_wrap (limit + 1)) (int_wrap (sz - len (nodes b)))
        else Some (limit, sz)
      else Some (limit, sz)
  end.

(** Last case of [adjustProx]:
    [for i := self.proxLimit - 1; i > r; i-- { self.proxSize += len(self.buckets[i].nodes) }]. *)
Fixpoint rollback_loop (todo : nat) (bs : list bucket) (r i sz : Z) : option Z :=
  match todo with
  | O => Some sz
  | S todo' =>
      if i >? r then
        b ← slice_at bs i;
        rollback_loop todo' bs r (int_wrap (i - 1)) (int_wrap (sz + len (nodes b)))
      else Some sz
  end.

(** [adjustProx(r, add)]; the [switch] takes the first case that holds.
    The loops are bounded by the distance they have to cover. *)
Definition adjustProx (k : Kademlia) (r add : Z) : option Kademlia :=
  if (add >? 0) && (r =? proxLimit k) then
    let limit := int_wrap (proxLimit k + add) in
    '(limit', sz') ← advance_loop (Z.to_nat (MaxProx k - limit)) (buckets k)
                        (MaxProx k) limit (proxSize k);
    Some (set_prox k limit' sz')
  else if (add >? 0) && (r >? proxLimit k)
          && (int_wrap (proxSize k + add) >? MaxProxBinSize k) then
    b ← slice_at (buckets k) r;
    Some (set_prox k (int_wrap (proxLimit k + 1))
            (int_wrap (proxSize k - int_wrap (len (nodes b) - add))))
  else if (add >? 0) && (r >? proxLimit k) then
    Some (set_prox k (proxLimit k) (int_wrap (proxSize k + add)))
  else if (add <? 0) && (r <? proxLimit k) then
    b ← slice_at (buckets k) r;
    if len (nodes b) =? 0 then
      sz' ← rollback_loop (Z.to_nat (proxLimit k - 1 - r)) (buckets k) r
              (int_wrap (proxLimit k - 1)) (proxSize k);
      Some (set_prox k r sz')
    else Some k
  else Some k.

(** *** Adding and removing nodes *)

Inductive KadError : Type :=
  | InsufficientNodes (n idx : Z).

(** [RemoveNode].  The asynchronous [GetNode] callback is not part of the
    table's state. *)
Definition RemoveNode (k : Kademlia) (node : Node)
  : option (Kademlia * option KadError) :=
  let idx := proximityBin k (Addr node) in
  b ← slice_at (buckets k) idx;
  let ns := remove_loop (length (nodes b)) (Addr node) (nodes b) 0 in
  let b' := mkBucket (size b) ns in
  let k1 := set_buckets k (<[Z.to_nat idx := b']> (buckets k)) in
  let k2 := set_count k1 (int_wrap (count k1 - 1)) in
  let err := if len ns <? size b' then Some (InsufficientNodes (len ns) idx)
             else None in
  k3 ← (if len ns =? 0 then adjustProx k2 idx (-1) else Some k2);
  Some (k3, err).

(** [AddNode], up to its return.  The goroutine it starts last, which files
    the node's record in [nodeDB], runs on its own under [dblock] and does
    not touch the fields below: it is [TableExt.AddNode_goroutine], on the
    store of records [TableExt.RecordDB]. *)
Definition AddNode (k : Kademlia) (node : Node) : option Kademlia :=
  let idx := proximityBin k (Addr node) in
  b ← slice_at (buckets k) idx;
  b' ← insert b node;
  let k1 := set_buckets k (<[Z.to_nat idx := b']> (buckets k)) in
  let k2 := set_count k1 (int_wrap (count k1 + 1)) in
  if idx >=? proxLimit k2 then adjustProx k2 idx 1 else Some k2.

(** A sequence of calls on the table. *)
Inductive op : Type :=
  | OpAdd (n : Node)
  | OpRemove (n : Node).

Definition apply_op (k : Kademlia) (o : op) : option Kademlia :=
  match o with
  | OpAdd n => AddNode k n
  | OpRemove n => fst <$> RemoveNode k n
  end.

Fixpoint run (k : Kademlia) (ops : list op) : option Kademlia :=
  match ops with
  | [] => Some k
  | o :: ops' => k' ← apply_op k o; run k' ops'
  end.

(** *** Looking up the nearest nodes *)

(** The outcome of a loop that is run on a budget of iterations. *)
Inductive outcome (A : Type) : Type :=
  | Returns (a : A)
  | Panics
  | OutOfFuel.
Arguments Returns {A} a.
Arguments Panics {A}.
Arguments OutOfFuel {A}.

(** [sort.Search(n, f)] of Go's standard library:
    [i, j := 0, n; for i < j { h := i + (j-i)/2; if !f(h) { i = h + 1 } else { j = h } }; return i].
    [i], [h] and [j] stay within [0, n], the length of a slice. *)
Fixpoint Search_loop (todo : nat) (f : Z -> bool) (i j : Z) : Z :=
  match todo with
  | O => i
  | S todo' =>
      if i <? j then
        let h := i + (j - i) / 2 in
        if negb (f h) then Search_loop todo' f (h + 1) j
        else Search_loop todo' f i h
      else i
  end.

Definition Search (n : Z) (f : Z -> bool) : Z := Search_loop (Z.to_nat n) f 0 n.

(** [nodesByDistance] *)
Record nodesByDistance : Type := mkNodesByDistance {
  nbd_nodes : list Node;
  nbd_target : Address
}.

(** [sortedByDistanceTo] *)
Fixpoint sortedByDistanceTo_loop (target : Address) (slice : list Node)
    (i : Z) (last : Address) : bool :=
  match slice with
  | [] => true
  | node :: rest =>
      if (i >? 0) && (proxCmp target (Addr node) last <? 0) then false
      else sortedByDistanceTo_loop target rest (i + 1) (Addr node)
  end.

Definition sortedByDistanceTo (target : Address) (slice : list Node) : bool :=
  sortedByDistanceTo_loop target slice 0 (replicate HashLength 0).

(** The closure handed to [sort.Search] by [push]; [Search] calls it within
    the slice only. *)
Definition push_pred (target : Address) (ns : list Node) (node : Node) (i : Z) : bool :=
  match ns !! Z.to_nat i with
  | Some x => proxCmp target (Addr x) (Addr node) >=? 0
  | None => false
  end.

(** [push(node, max)].  [copy(h.nodes[ix+1:], h.nodes[ix:])] moves the
    elements from [ix] on one place up, within the length of the slice, and
    [h.nodes[ix] = node] overwrites the place it frees. *)
Definition push (h : nodesByDistance) (node : Node) (max : Z) : nodesByDistance :=
  let ix := Search (len (nbd_nodes h)) (push_pred (nbd_target h) (nbd_nodes h) node) in
  let ns1 := if len (nbd_nodes h) <? max then nbd_nodes h ++ [node] else nbd_nodes h in
  let ns2 :=
    if ix <? len ns1
    then <[Z.to_nat ix := node]>
           (list_inserts (S (Z.to_nat ix)) (drop (Z.to_nat ix) ns1) ns1)
    else ns1 in
  mkNodesByDistance ns2 (nbd_target h).

(** The inner loop of [getNodes]:
    [for i := 0; i < len(bucket); i++ { r.push(bucket[i], limit); n++ }]. *)
Fixpoint push_bucket (bkt : list Node) (limit : Z) (r : nodesByDistance) (n : Z)
  : nodesByDistance * Z :=
  match bkt with
  | [] => (r, n)
  | node :: rest => push_bucket rest limit (push r node limit) (int_wrap (n + 1))
  end.

(** The test at the end of a round of [getNodes]:
    [max == 0 && start <= index && (n > 0 || start == 0) ||
     max > 0 && down && start <= index && (n >= limit || n == self.Count() || start == 0)]. *)
Definition getNodes_break (k : Kademlia) (max limit index start : Z)
    (down : bool) (n1 : Z) : bool :=
  ((max =? 0) && (start <=? index) && ((n1 >? 0) || (start =? 0)))
  || ((max >? 0) && down && (start <=? index)
      && ((n1 >=? limit) || (n1 =? Count k) || (start =? 0))).

(** The outer loop of [getNodes], [for { ... }], one bucket per round. *)
Fixpoint getNodes_loop (fuel : nat) (k : Kademlia) (max limit index : Z)
    (start : Z) (down : bool) (n : Z) (r : nodesByDistance)
  : outcome nodesByDistance :=
  match fuel with
  | O => OutOfFuel
  | S fuel' =>
      match slice_at (buckets k) start with
      | None => Panics
      | Some b =>
          let '(r1, n1) := push_bucket (nodes b) limit r n in
          if getNodes_break k max limit index start down n1
          then Returns r1
          else if down then
            getNodes_loop fuel' k max limit index (int_wrap (start - 1)) true n1 r1
          else if start =? MaxProx k then
            if index =? 0 then Returns r1
            else getNodes_loop fuel' k max limit index (int_wrap (index - 1)) true n1 r1
          else
            getNodes_loop fuel' k max limit index (int_wrap (start + 1)) false n1 r1
      end
  end.

(** The rounds [getNodes] can need: up to [MaxProx] and down to 0. *)
Definition getNodes_fuel (k : Kademlia) : nat := Z.to_nat (2 * MaxProx k + 3).

(** [getNodes(target, max)] *)
Definition getNodes (k : Kademlia) (target : Address) (max : Z)
  : outcome nodesByDistance :=
  let index0 := proximityBin k target in
  let '(index, start, down) :=
    if index0 >=? proxLimit k then (proxLimit k, MaxProx k, true)
    else (index0, index0, false) in
  let limit := if max =? 0 then 1000 else max in
  getNodes_loop (getNodes_fuel k) k max limit index start down 0
    (mkNodesByDistance [] target).

(** [GetNodes(target, max)] *)
Definition GetNodes (k : Kademlia) (target : Address) (max : Z)
  : outcome (list Node) :=
  match getNodes k target max with
  | Returns r => Returns (nbd_nodes r)
  | Panics => Panics
  | OutOfFuel => OutOfFuel
  end.

(** *** Node records *)

(** [getNodeRecord(row, col)]; [None] is the nil pointer. *)
Definition getNodeRecord (k : Kademlia) (row col : Z) : option NodeRecord :=
  if (row >=? 0) && (row <? len (nodeDB k)) then
    match nodeDB k !! Z.to_nat row with
    | Some r => if (col >=? 0) && (col <? len r) then r !! Z.to_nat col else None
    | None => None
    end
  else None.

(** The inner loop of [GetNodeRecords], [for i, b := range self.buckets].
    [nrs = append(nrs)] appends no element. *)
Fixpoint GetNodeRecords_round (k : Kademlia) (bs : list bucket) (i round : Z)
    (nrs : list NodeRecord) : list NodeRecord :=
  match bs with
  | [] => nrs
  | b :: rest =>
      let nrs' :=
        if int_wrap (len (nodes b) + round) <? currentMaxBucketSize k then
          match getNodeRecord k i round with
          | Some nr => nrs ++ []
          | None => nrs
          end
        else nrs in
      GetNodeRecords_round k rest (i + 1) round nrs'
  end.

(** The outer loop, [for max > 0 { ...; round++; max-- }]. *)
Fixpoint GetNodeRecords_loop (todo : nat) (k : Kademlia) (max round : Z)
    (nrs : list NodeRecord) : list NodeRecord :=
  match todo with
  | O => nrs
  | S todo' =>
      if max >? 0 then
        GetNodeRecords_loop todo' k (int_wrap (max - 1)) (int_wrap (round + 1))
          (GetNodeRecords_round k (buckets k) 0 round nrs)
      else nrs
  end.

(** [GetNodeRecords(max)]; [err] is always nil. *)
Definition GetNodeRecords (k : Kademlia) (max : Z) : list NodeRecord :=
  GetNodeRecords_loop (Z.to_nat max) k max 0 [].

(** *** What the documentation says of the table

    "proxLimit is dynamically adjusted so that 1) there is no empty buckets
    in bin < proxLimit and 2) the sum of all items are the maximum possible
    but lower than MaxProxBinSize". *)

(** Number of nodes held by the buckets. *)
Definition stored (bs : list bucket) : Z :=
  foldr (fun b acc => len (nodes b) + acc) 0 bs.

(** Number of nodes in the bins from [l] on. *)
Definition zone_size (k : Kademlia) (l : Z) : Z :=
  stored (drop (Z.to_nat l) (buckets k)).

Definition bin_nonempty (k : Kademlia) (i : Z) : Prop :=
  exists b, slice_at (buckets k) i = Some b /\ nodes b <> [].

Definition low_bins_nonempty (k : Kademlia) : Prop :=
  forall i, 0 <= i < proxLimit k -> bin_nonempty k i.

(** The near zone fits [MaxProxBinSize] if some limit [l] that can be
    reached from [proxLimit] over non-empty bins makes it fit. *)
Definition near_zone_fits_when_achievable (k : Kademlia) : Prop :=
  (exists l, proxLimit k <= l <= MaxProx k + 1
             /\ (forall i, proxLimit k <= i < l -> bin_nonempty k i)
             /\ zone_size k l <= MaxProxBinSize k) ->
  zone_size k (proxLimit k) <= MaxProxBinSize k.

(** A table as [Start] leaves it and the operations keep it. *)
Definition wf_bucket (b : bucket) : Prop := 0 < size b /\ len (nodes b) <= size b.

Definition wf_table (k : Kademlia) : Prop :=
  0 <= MaxProx k < int_max
  /\ len (buckets k) = MaxProx k + 1
  /\ 0 <= proxLimit k <= MaxProx k + 1
  /\ Forall wf_bucket (buckets k).

#[global] Instance wf_bucket_dec b : Decision (wf_bucket b).
Proof. unfold wf_bucket. apply _. Defined.

#[global] Instance wf_table_dec k : Decision (wf_table k).
Proof. unfold wf_table. apply _. Defined.

(** The records [GetNodeRecords] is documented to pick: "on each round i we
    inspect if live-nodes fill the bucket; if len(nodes) + i <
    currentMaxBucketSize, then take ith element in corresponding db row",
    "an at most max length slice". *)
Definition round_robin_round (k : Kademlia) (round : Z) : list NodeRecord :=
  omap (fun '(i, b) =>
          if len (nodes b) + round <? currentMaxBucketSize k
          then getNodeRecord k (Z.of_nat i) round else None)
       (imap pair (buckets k)).

Definition round_robin_records (k : Kademlia) (max : Z) : list NodeRecord :=
  take (Z.to_nat max)
    (concat (map (fun r => round_robin_round k (Z.of_nat r)) (seq 0 (Z.to_nat max)))).

(** *** Sample tables *)

Definition self_addr : Address := replicate 32 0.

(** An address whose first bit that differs from [self_addr] is bit [i];
    [tag] fills the last byte. *)
Definition addr_in_bin (i tag : Z) : Address :=
  <[31%nat := tag]>
    (<[Z.to_nat (i / 8) := Z.shiftl 1 (7 - i mod 8)]> (replicate 32 0)).

Definition node_in_bin (i tag : Z) (t : Time) : Node :=
  mkNode (addr_in_bin i tag) EmptyString t.

(** One node into each of the bins 1, 2, ..., 21 of a table with the
    default parameters. *)
Definition spread_ops : list op :=
  map (fun i => OpAdd (node_in_bin (Z.of_nat i) 1 (mkTime 100 0 None))) (seq 1 21).

Definition spread_table : option Kademlia :=
  k ← Start New self_addr; run k spread_ops.

(** The table these calls leave. *)
Definition spread_result : Kademlia :=
  Eval vm_compute in default New spread_table.

(** A full bucket of two whose first node reports the zero time. *)
Definition never_active : Node := node_in_bin 5 1 zero_time.
Definition active_at_5 : Node := node_in_bin 5 2 (mkTime 5 0 None).
Definition newcomer : Node := node_in_bin 5 3 (mkTime 9 0 None).
Definition full_bucket : bucket := mkBucket 2 [never_active; active_at_5].

(** The same three nodes added to a table that is started with
    [BucketSize = 2]; all three fall into bin 5. *)
Definition small_table : option Kademlia :=
  k ← Start (mkKademlia (replicate HashLength 0) 0 0 2 0 [] 0 0 0 [] false) self_addr;
  run k [OpAdd never_active; OpAdd active_at_5; OpAdd newcomer].

(** A table with one known record in row 0, no live node, and
    [currentMaxBucketSize = 1]. *)
Definition known_record : NodeRecord :=
  mkNodeRecord (addr_in_bin 0 1) EmptyString 0 None.

Definition record_table : Kademlia :=
  mkKademlia self_addr 255 20 20 1 [[known_record]] 0 0 0
    (replicate 256 (mkBucket 20 [])) true.

(** A node whose [LastActive()] is not the zero time. *)
Definition reports_nonzero (n : Node) : Prop :=
  time_eqb (LastActive n) zero_time = false.

(** The node an operation is about. *)
Definition op_node (o : op) : Node :=
  match o with OpAdd n => n | OpRemove n => n end.

(** *** Order of the nodes [GetNodes] returns *)

Definition wf_node (n : Node) : Prop := wf_address (Addr n).

Definition nodes_wf (k : Kademlia) : Prop :=
  Forall (fun b => Forall wf_node (nodes b)) (buckets k).

#[global] Instance wf_node_dec n : Decision (wf_node n).
Proof. unfold wf_node. apply _. Defined.

#[global] Instance nodes_wf_dec k : Decision (nodes_wf k).
Proof. unfold nodes_wf. apply _. Defined.

(** [x] is not farther from [target] than [y]. *)
Definition dist_le (target : Address) (x y : Node) : Prop :=
  proxCmp target (Addr x) (Addr y) <= 0.

(** Two nodes of one address, added one after the other. *)
Definition twin_first : Node :=
  mkNode (addr_in_bin 3 1) "first" (mkTime 100 0 None).
Definition twin_second : Node :=
  mkNode (addr_in_bin 3 1) "second" (mkTime 100 0 None).

Definition twin_table : option Kademlia :=
  k ← Start New self_addr; run k [OpAdd twin_first; OpAdd twin_second].

(** The distance of a node to [target], as an integer. *)
Definition node_distance (target : Address) (x : Node) : Z :=
  distance (Addr x) target.

(** The table the two twins are in. *)
Definition twin_result : Kademlia :=
  Eval vm_compute in default New twin_table.

(** "Ties resolved by insertion order": of two distinct nodes of one bucket
    at the same distance, the one that stands first in the bucket stands
    first in the result. *)
Definition ties_by_insertion_order (k : Kademlia) (target : Address)
    (res : list Node) : Prop :=
  forall b (i j p q : nat) x y,
    b ∈ buckets k -> nodes b !! i = Some x -> nodes b !! j = Some y ->
    (i < j)%nat -> x <> y -> proxCmp target (Addr x) (Addr y) = 0 ->
    res !! p = Some x -> res !! q = Some y -> (p < q)%nat.

(** What [getNodes] keeps true of its result [r]. *)
Definition collected (target : Address) (limit : Z) (r : nodesByDistance) : Prop :=
  nbd_target r = target
  /\ Forall wf_node (nbd_nodes r)
  /\ StronglySorted (dist_le target) (nbd_nodes r)
  /\ len (nbd_nodes r) <= limit.

(** The rounds [getNodes] still needs at [start]. *)
Definition rounds_left (k : Kademlia) (index start : Z) (down : bool) : Z :=
  if down then start + 1 else MaxProx k - start + 1 + index.

End Table.

(** ** The wire protocol (bzz/protocol.go)

    The second copy of the file in the sources is a later revision: its
    handshake carries no [NodeID] and the session keeps the remote address
    instead of a discovery node; [handleStatus], [handle], [runBzzProtocol]
    and [storeRequestLoop] test and call the same things in the same
    order. *)

Module Bzz.

Definition Version : Z := 0.
Definition ProtocolMaxMsgSize : Z := 10 * 1024 * 1024.
Definition NetworkId : Z := 0.

(** Message codes, [iota] from 0. *)
Definition statusMsg : Z := 0.
Definition storeRequestMsg : Z := 1.
Definition retrieveRequestMsg : Z := 2.
Definition peersMsg : Z := 3.

(** Error codes. *)
Inductive ErrCode : Type :=
  | ErrMsgTooLarge
  | ErrDecode
  | ErrInvalidMsgCode
  | ErrVersionMismatch
  | ErrNetworkIdMismatch
  | ErrNoStatusMsg
  | ErrExtraStatusMsg.

(** A Go [error]: what the transport returns from [ReadMsg] or [Send], or
    what [protoError] builds from a code. *)
Inductive error : Type :=
  | TransportError (what : string)
  | ProtoError (code : ErrCode).

Definition Key : Type := list Z.

Record peerAddr : Type := mkPeerAddr {
  pa_IP : list Z;
  pa_Port : Z;
  pa_ID : list Z
}.

Record statusMsgData : Type := mkStatus {
  st_Version : Z;
  st_ID : string;
  st_NodeID : list Z;
  st_Addr : peerAddr;
  st_NetworkId : Z;
  st_Caps : list (string * Z)
}.

Record storeRequestMsgData : Type := mkStoreRequest {
  sr_Key : Key;
  sr_SData : list Z;
  sr_Id : Z
}.

(** [rr_Key = None] is the nil slice. *)
Record retrieveRequestMsgData : Type := mkRetrieveRequest {
  rr_Key : option Key;
  rr_Id : Z;
  rr_MaxSize : Z;
  rr_MaxPeers : Z
}.

Record peersMsgData : Type := mkPeers {
  pm_Peers : list peerAddr;
  pm_Key : Key;
  pm_Id : Z
}.

(** A chunk of the local store. *)
Record Chunk : Type := mkChunk {
  chunk_Key : Key;
  chunk_SData : list Z
}.

(** [p2p.Msg]: code, size and the payload still to be decoded. *)
Record Msg : Type := mkMsg {
  Code : Z;
  Size : Z;
  Payload : list Z
}.

(** What a message written with [p2p.Send] carries. *)
Inductive Body : Type :=
  | BStatus (d : statusMsgData)
  | BStore (d : storeRequestMsgData)
  | BRetrieve (d : retrieveRequestMsgData)
  | BPeers (d : peersMsgData).

(** The calls a session makes on what lies outside protocol.go, in the
    order in which it makes them. *)
Inductive Event : Type :=
  | EvSend (code : Z) (body : Body)          (* p2p.Send(self.rw, code, body) *)
  | EvAddPeer (remote : peerAddr)            (* netStore.hive.addPeer *)
  | EvRemovePeer                             (* netStore.hive.removePeer *)
  | EvAddStoreRequest (d : storeRequestMsgData)
  | EvAddRetrieveRequest (d : retrieveRequestMsgData)
  | EvAddPeerEntries (d : peersMsgData)
  | EvCloseQuit                              (* close(self.quitC) *)
  | EvDbDelete (k : Key)                     (* requestDb.Delete(k) *)
  | EvSleep.                                 (* time.Sleep(1 * time.Second) *)

(** The interfaces protocol.go consumes and this repository keeps in other
    files: RLP decoding of a payload into each message struct, the local
    node's handshake data, the chunk store, the iterator of the request
    database and the id generator. *)
Record Env : Type := mkEnv {
  decode_status : list Z -> option statusMsgData;
  decode_store : list Z -> option storeRequestMsgData;
  decode_retrieve : list Z -> option retrieveRequestMsgData;
  decode_peers : list Z -> option peersMsgData;
  self_ID : list Z;
  self_IP : list Z;
  self_TCP : Z;
  (* self.netStore.localStore.dbStore.Get; [None] is a non-nil error *)
  dbStore_Get : Key -> option Chunk;
  (* NewIterator followed by Seek(key): the keys the iterator yields from
     its position on; the empty list is an iterator that is not Valid *)
  seek : gmap Key (list Z) -> Key -> list Key;
  generateId : Z;
  (* [key[:32]] for a key of less than 32 bytes that the iterator has
     returned: the first 32 bytes of the iterator's buffer, or [None] when
     the capacity of the slice is below 32 and the expression panics *)
  short_key_prefix : Key -> option Key
}.

(** The state of one session and of what it talks to. *)
Record World : Type := mkWorld {
  reads : list (Msg + error);     (* what the next calls of ReadMsg return *)
  sends : list (option error);    (* what the next calls of Send return *)
  trace : list Event;
  node : option peerAddr;         (* self.node, set by the handshake *)
  requestDb : gmap Key (list Z);
  quit : bool                     (* quitC is closed *)
}.

Definition set_reads (w : World) (r : list (Msg + error)) : World :=
  mkWorld r (sends w) (trace w) (node w) (requestDb w) (quit w).
Definition set_sends (w : World) (s : list (option error)) : World :=
  mkWorld (reads w) s (trace w) (node w) (requestDb w) (quit w).
Definition log (w : World) (e : Event) : World :=
  mkWorld (reads w) (sends w) (trace w ++ [e]) (node w) (requestDb w) (quit w).
Definition set_node (w : World) (n : peerAddr) : World :=
  mkWorld (reads w) (sends w) (trace w) (Some n) (requestDb w) (quit w).
Definition set_requestDb (w : World) (db : gmap Key (list Z)) : World :=
  mkWorld (reads w) (sends w) (trace w) (node w) db (quit w).
Definition set_quit (w : World) : World :=
  mkWorld (reads w) (sends w) (trace w) (node w) (requestDb w) true.

(** Computations of a session: a state monad over [World]; [None] is a
    session blocked for ever in [ReadMsg]. *)
Definition M (A : Type) : Type := World -> option (A * World).

Definition ret {A} (a : A) : M A := fun w => Some (a, w).

Definition bind {A B} (m : M A) (f : A -> M B) : M B :=
  fun w => match m w with
           | Some (a, w') => f a w'
           | None => None
           end.

Notation "'do' x <- m ; f" := (bind m (fun x => f))
  (at level 10, x name, m at level 100, f at level 200).
Notation "'exec' m ; f" := (bind m (fun _ => f))
  (at level 10, m at level 100, f at level 200).

Definition emit (e : Event) : M unit := fun w => Some (tt, log w e).

(** [self.rw.ReadMsg()] *)
Definition ReadMsg : M (Msg + error) :=
  fun w => match reads w with
           | [] => None
           | r :: rest => Some (r, set_reads w rest)
           end.

(** [p2p.Send(self.rw, code, body)]; it succeeds when nothing is said of
    its outcome. *)
Definition Send_outcome (code : Z) (body : Body) (w : World)
  : option error * World :=
  match sends w with
  | [] => (None, log w (EvSend code body))
  | r :: rest => (r, set_sends (log w (EvSend code body)) rest)
  end.

Definition Send (code : Z) (body : Body) : M (option error) :=
  fun w => Some (Send_outcome code body w).

(** [protoError(code, ...)]: builds the error (and logs it). *)
Definition protoError (code : ErrCode) : M (option error) :=
  ret (Some (ProtoError code)).

(** The "precanned status message" [handleStatus] sends. *)
Definition handshake (env : Env) : Body :=
  BStatus (mkStatus Version "honey" (self_ID env)
             (mkPeerAddr (self_IP env) (self_TCP env) (self_ID env))
             NetworkId []).

(** [handleStatus] *)
Definition handleStatus (env : Env) : M (option error) :=
  do err <- Send statusMsg (handshake env);
  match err with
  | Some e => ret (Some e)
  | None =>
      do r <- ReadMsg;
      match r with
      | inr e => ret (Some e)
      | inl msg =>
          if negb (Code msg =? statusMsg) then protoError ErrNoStatusMsg
          else if Size msg >? ProtocolMaxMsgSize then protoError ErrMsgTooLarge
          else
            match decode_status env (Payload msg) with
            | None => protoError ErrDecode
            | Some status =>
                if negb (st_NetworkId status =? NetworkId)
                then protoError ErrNetworkIdMismatch
                else if negb (Version =? st_Version status)
                then protoError ErrVersionMismatch
                else
                  exec (fun w => Some (tt, set_node w (st_Addr status)));
                  exec emit (EvAddPeer (st_Addr status));
                  ret None
            end
      end
  end.

(** [handle] *)
Definition handle (env : Env) : M (option error) :=
  do r <- ReadMsg;
  match r with
  | inr e => ret (Some e)
  | inl msg =>
      if Size msg >? ProtocolMaxMsgSize then protoError ErrMsgTooLarge
      else if Code msg =? statusMsg then protoError ErrExtraStatusMsg
      else if Code msg =? storeRequestMsg then
        match decode_store env (Payload msg) with
        | None => protoError ErrDecode
        | Some req => exec emit (EvAddStoreRequest req); ret None
        end
      else if Code msg =? retrieveRequestMsg then
        match decode_retrieve env (Payload msg) with
        | None => protoError ErrDecode
        | Some req =>
            match rr_Key req with
            | None => protoError ErrDecode
            | Some _ => exec emit (EvAddRetrieveRequest req); ret None
            end
        end
      else if Code msg =? peersMsg then
        match decode_peers env (Payload msg) with
        | None => protoError ErrDecode
        | Some req => exec emit (EvAddPeerEntries req); ret None
        end
      else protoError ErrInvalidMsgCode
  end.

(** The message loop of [runBzzProtocol]:
    [for { err = self.handle(); if err != nil { self.netStore.hive.removePeer(...); break } }].
    Every round takes one message off [reads], so [todo] does not run out
    before the messages do. *)
Fixpoint message_loop (todo : nat) (env : Env) : M error :=
  match todo with
  | O => fun _ => None
  | S todo' =>
      do err <- handle env;
      match err with
      | Some e => exec emit EvRemovePeer; ret e
      | None => message_loop todo' env
      end
  end.

(** [runBzzProtocol], from [err = self.handleStatus()] on: what its own
    goroutine does.  The pending-store loop it starts first runs beside it;
    a round of it is [storeRequestLoop_round] below, and the two goroutines
    side by side are [BzzExt.turns]. *)
Definition runBzzProtocol (env : Env) : M (option error) :=
  fun w =>
    (do err <- handleStatus env;
     match err with
     | None =>
         do e <- message_loop (S (length (reads w))) env;
         exec emit EvCloseQuit;
         exec (fun w' => Some (tt, set_quit w'));
         ret (Some e)
     | Some e => ret (Some e)
     end) w.

(** *** The pending-store loop *)

(** The local variables of [storeRequestLoop]. *)
Record LoopState : Type := mkLoopState {
  ls_start : Key;
  ls_key : Key;
  ls_n : Z;
  ls_it : list Key   (* the keys the iterator still yields, current first *)
}.

(** How one round of the loop ends. *)
Inductive Round : Type :=
  | Continue (st : LoopState) (w : World)
  | Break (st : LoopState) (w : World)
  | RoundPanics.

(** The head of a round:
    [if n == 0 { it = NewIterator(); it.Seek(key); if !it.Valid() { Sleep; continue }; key = it.Key(); n = 100 }].
    [inl] is the [continue], [inr] the state with which the round goes on. *)
Definition reseek (env : Env) (st : LoopState) (w : World)
  : (LoopState * World) + LoopState :=
  if ls_n st =? 0 then
    match seek env (requestDb w) (ls_key st) with
    | [] => inl (mkLoopState (ls_start st) (ls_key st) (ls_n st) [], log w EvSleep)
    | k :: rest => inr (mkLoopState (ls_start st) k 100 (k :: rest))
    end
  else inr st.

(** [it.Key()]: the empty slice once the iterator is exhausted. *)
Definition it_Key (it : list Key) : Key :=
  match it with
  | [] => []
  | k :: _ => k
  end.

(** One round of the [for] loop of [storeRequestLoop]; [addrKey] is
    [self.addrKey()], the hash of the peer's id. *)
Definition storeRequestLoop_round (env : Env) (addrKey : Key)
    (st : LoopState) (w : World) : Round :=
  match reseek env st w with
  | inl (st', w') => Continue st' w'
  | inr st1 =>
      let key := ls_key st1 in
      if len key <? 32 then
        match short_key_prefix env key with
        | None => RoundPanics                 (* key[:32] beyond the capacity *)
        | Some pre =>
            if negb (bool_decide (pre = addrKey))
            then Continue (mkLoopState (ls_start st1) key 0 (ls_it st1)) w
            else RoundPanics                  (* key[32:] with len(key) < 32 *)
        end
      else if negb (bool_decide (take 32 key = addrKey)) then
        (* reached the end of this peer's range *)
        Continue (mkLoopState (ls_start st1) key 0 (ls_it st1)) w
      else
        match dbStore_Get env (drop 32 key) with
        | None =>
            let w1 := log (set_requestDb w (delete key (requestDb w))) (EvDbDelete key) in
            Continue st1 w1
        | Some chunk =>
            let req := mkStoreRequest (chunk_Key chunk) (chunk_SData chunk)
                         (generateId env) in
            (* self.store(req): the outcome of Send is dropped *)
            let w1 := (Send_outcome storeRequestMsg (BStore req) w).2 in
            let n1 := int_wrap (ls_n st1 - 1) in
            let w2 := log (set_requestDb w1 (delete key (requestDb w1)))
                        (EvDbDelete key) in
            let it1 := tail (ls_it st1) in
            let key1 := it_Key it1 in
            let '(key2, n2, w3) :=
              if len key1 =? 0
              then (ls_start st1, 0, if n1 =? 0 then log w2 EvSleep else w2)
              else (key1, n1, w2) in
            let st2 := mkLoopState (ls_start st1) key2 n2 it1 in
            if quit w3 then Break st2 w3 else Continue st2 w3
        end
  end.

(** The state with which [storeRequestLoop] enters its loop. *)
Definition storeRequestLoop_init (addrKey : Key) : LoopState :=
  let start := take 64 (addrKey ++ replicate 64 0) in
  mkLoopState start start 0 [].

(** *** The iterator of goleveldb, as the loop uses it

    Keys are iterated in bytewise order; [Seek(key)] moves to the first key
    that is not below [key]. *)

Fixpoint bytes_le (a b : Key) : bool :=
  match a, b with
  | [], _ => true
  | _ :: _, [] => false
  | x :: a', y :: b' => (x <? y) || ((x =? y) && bytes_le a' b')
  end.

Definition key_le (a b : Key) : Prop := bytes_le a b = true.

#[global] Instance key_le_dec a b : Decision (key_le a b).
Proof. unfold key_le. apply _. Defined.

Definition ldb_seek (db : gmap Key (list Z)) (key : Key) : list Key :=
  merge_sort key_le (filter (key_le key) (map fst (map_to_list db))).

(** *** Sample sessions *)

(** A decoder that reads a status payload of three bytes
    [version; network id; port] and nothing else. *)
Definition sample_env : Env :=
  mkEnv
    (fun p => match p with
              | [v; nid; port] =>
                  Some (mkStatus v "peer" [] (mkPeerAddr [] port []) nid [])
              | _ => None
              end)
    (fun _ => None) (fun _ => None) (fun _ => None)
    [] [] 30399
    (fun k => match k with
              | [] => None
              | _ => Some (mkChunk k [1; 2; 3])
              end)
    ldb_seek
    7
    (fun _ => None).

Definition empty_world (rs : list (Msg + error)) : World :=
  mkWorld rs [] [] None ∅ false.

(** A well-formed status message of this network and version. *)
Definition good_status : Msg := mkMsg statusMsg 3 [0; 0; 30400].

(** A session whose peer address key is [sample_addrKey] and whose request
    db holds one pending key of that peer. *)
Definition sample_addrKey : Key := replicate 32 1.
Definition pending_key : Key := sample_addrKey ++ replicate 32 2.
Definition pending_world : World :=
  mkWorld [] [] [] None {[ pending_key := [0] ]} false.

(** A status message of more than 10 MiB. *)
Definition huge_status : Msg := mkMsg statusMsg (ProtocolMaxMsgSize + 1) [0; 0; 30400].

End Bzz.

(** ** More of the address type (kademlia.go, lines 353-359) *)

Module KadExt.
Import Kad.

(** [fmt.Sprintf("%08b", b)] for a byte: its eight binary digits, most
    significant first. *)
Definition binary_digit (b : Z) (k : Z) : ascii :=
  if Z.testbit b k then "1"%char else "0"%char.

Definition Sprintf_08b (b : Z) : list ascii :=
  map (fun k => binary_digit b (Z.of_nat k)) [7; 6; 5; 4; 3; 2; 1; 0]%nat.

(** [Address.Bin]: [for _, b := range a[:] { bs = append(bs, Sprintf("%08b", b)) }]
    and [strings.Join(bs, "")]. *)
Fixpoint Bin (a : Address) : list ascii :=
  match a with
  | [] => []
  | b :: rest => Sprintf_08b b ++ Bin rest
  end.

(** Length of the longest common prefix of two strings. *)
Fixpoint common_prefix (s t : list ascii) : Z :=
  match s, t with
  | c :: s', d :: t' => if Ascii.eqb c d then 1 + common_prefix s' t' else 0
  | _, _ => 0
  end.

(** All pairs of bytes, for exhaustive checks over two bytes. *)
Definition all_byte_pairs : list (Z * Z) :=
  x ← all_bytes; y ← all_bytes; [(x, y)].

End KadExt.

(** ** More of the routing table *)

Module TableExt.
Import Kad Table.

(** The parameters of a table, which no call after [Start] writes. *)
Definition same_parameters (k k' : Kademlia) : Prop :=
  addr k' = addr k /\ MaxProx k' = MaxProx k /\ MaxProxBinSize k' = MaxProxBinSize k
  /\ BucketSize k' = BucketSize k /\ started k' = started k
  /\ map size (buckets k') = map size (buckets k).

(** The values [Start] gives the optional parameters. *)
Definition started_MaxProx (k : Kademlia) : Z :=
  if MaxProx k =? 0 then 255 else MaxProx k.
Definition started_BucketSize (k : Kademlia) : Z :=
  if BucketSize k =? 0 then 20 else BucketSize k.

(** What the loop of [RemoveNode] leaves of a bucket, read off its index
    arithmetic: after [append(nodes[:i], nodes[i+1:]...)] the entry that
    stood behind the removed one stands at [i], and the loop goes on at
    [i+1]. *)
Fixpoint remove_scan (a : Address) (ns : list Node) : list Node :=
  match ns with
  | [] => []
  | x :: rest =>
      if bool_decide (a = Addr x) then
        match rest with
        | [] => []
        | y :: rest' => y :: remove_scan a rest'
        end
      else x :: remove_scan a rest
  end.

(** The addresses a bucket holds. *)
Definition addresses (ns : list Node) : list Address := map Addr ns.

(** The nodes a table holds, bucket after bucket. *)
Definition all_nodes (k : Kademlia) : list Node := concat (map nodes (buckets k)).

(** The first of the collected nodes has the address looked for. *)
Definition headed_by (target : Address) (r : nodesByDistance) : Prop :=
  exists y, head (nbd_nodes r) = Some y /\ Addr y = target.

(** Every node is held by the bucket of its proximity bin. *)
Definition binned (k : Kademlia) : Prop :=
  forall (i : nat) b x,
    buckets k !! i = Some b -> x ∈ nodes b -> proximityBin k (Addr x) = Z.of_nat i.

(** The buckets [getNodes] has been at when it comes to bucket [start]:
    on its way down those above [start], on its way up those from [index]
    on. *)
Definition visited (k : Kademlia) (index start : Z) (down : bool) (i : Z) : Prop :=
  if down then start < i <= MaxProx k else index <= i < start.

(** A node that was pushed is among the collected ones, or the collection
    is full and holds no node that is farther from the target. *)
Definition covered (target : Address) (lim : Z) (r : nodesByDistance) (x : Node)
  : Prop :=
  x ∈ nbd_nodes r
  \/ (lim <= len (nbd_nodes r) /\ forall y, y ∈ nbd_nodes r -> dist_le target y x).

(** No node that is left out is closer to the target than a node that is
    returned. *)
Definition nearest_of (k : Kademlia) (target : Address) (res : list Node) : Prop :=
  forall x, x ∈ all_nodes k -> x ∈ res \/ forall y, y ∈ res -> dist_le target y x.

(** *** The records of known nodes (kademlia.go, lines 291-305) *)

Definition set_nodeDB (k : Kademlia) (db : list (list NodeRecord)) : Kademlia :=
  mkKademlia (addr k) (MaxProx k) (MaxProxBinSize k) (BucketSize k)
    (currentMaxBucketSize k) db (proxLimit k) (proxSize k) (count k)
    (buckets k) (started k).

(** [nodeIndex map[Address]*NodeRecord] is a [gmap Address NodeRecord]
    beside the table. *)

(** The body of the loop of [AddNodeRecords], for one [node] of [nrs]; a
    nil pointer among them is [None], and so is the panic it causes at
    [node.Address].  The index is written before the row is. *)
Definition addNodeRecord (s : Kademlia * gmap Address NodeRecord) (node : option NodeRecord)
  : option (Kademlia * gmap Address NodeRecord) :=
  match node with
  | None => None
  | Some nr =>
      match s.2 !! nr_Address nr with
      | Some _ => Some s
      | None =>
          let index := proximityBin s.1 (nr_Address nr) in
          row ← slice_at (nodeDB s.1) index;
          Some (set_nodeDB s.1 (<[Z.to_nat index := row ++ [nr]]> (nodeDB s.1)),
                <[nr_Address nr := nr]> s.2)
      end
  end.

(** [AddNodeRecords(nrs)]: [for _, node := range nrs]. *)
Fixpoint AddNodeRecords (s : Kademlia * gmap Address NodeRecord) (nrs : list (option NodeRecord))
  : option (Kademlia * gmap Address NodeRecord) :=
  match nrs with
  | [] => Some s
  | node :: rest => s' ← addNodeRecord s node; AddNodeRecords s' rest
  end.



(** *** Stopping, saving and loading (kademlia.go, lines 69-73, 128-145
    and 498-536) *)

(** [Time.UnixNano] of Go's standard library:
    [(t.sec + internalToUnix)*1e9 + int64(t.nsec)], an [int64]. *)
Definition UnixNano (t : Time) : Z :=
  int_wrap ((sec t - 62135596800) * 1000000000 + nsec t).

(** [NodeRecord.setActive] *)
Definition setActive (nr : NodeRecord) : NodeRecord :=
  match nr_node nr with
  | Some n => mkNodeRecord (nr_Address nr) (nr_Url nr) (UnixNano (LastActive n))
                (nr_node nr)
  | None => nr
  end.

(** [type kadDB struct { Address Address; Nodes [][]*NodeRecord }] *)
Record kadDB : Type := mkKadDB {
  kad_Address : Address;
  kad_Nodes : list (list NodeRecord)
}.

(** What [Save] and [Load] take from outside this file: [encoding/json]
    and the file system.  [None] of [MarshalIndent] and [Unmarshal] is their
    error, [write_error] the error of [ioutil.WriteFile] for a path. *)
Record Disk (Data : Type) : Type := mkDisk {
  MarshalIndent : kadDB -> option Data;
  Unmarshal : Data -> option kadDB;
  write_error : string -> option string
}.
Arguments MarshalIndent {Data} d kad.
Arguments Unmarshal {Data} d data.
Arguments write_error {Data} d path.

Inductive FileError : Type :=
  | MarshalFailed
  | WriteFailed (what : string)
  | ReadFailed
  | UnmarshalFailed
  | AddressMismatch (expected got : Address).

(** [Save(path)].  The records are shared with the table: [setActive]
    writes them in place. *)
Definition Save {Data} (d : Disk Data) (k : Kademlia) (path : string)
    (files : gmap string Data) : Kademlia * gmap string Data * option FileError :=
  let nodes := map (map setActive) (nodeDB k) in
  let k' := set_nodeDB k nodes in
  match MarshalIndent d (mkKadDB (addr k) nodes) with
  | None => (k', files, Some MarshalFailed)
  | Some data =>
      match write_error d path with
      | Some e => (k', files, Some (WriteFailed e))
      | None => (k', <[path := data]> files, None)
      end
  end.

(** [Load(path)]; [self.nodeDB = kad.Nodes] stands before the comparison
    of the addresses. *)
Definition Load {Data} (d : Disk Data) (k : Kademlia) (path : string)
    (files : gmap string Data) : Kademlia * option FileError :=
  match files !! path with
  | None => (k, Some ReadFailed)
  | Some data =>
      match Unmarshal d data with
      | None => (k, Some UnmarshalFailed)
      | Some kad =>
          let k' := set_nodeDB k (kad_Nodes kad) in
          if bool_decide (addr k = kad_Address kad) then (k', None)
          else (k', Some (AddressMismatch (addr k) (kad_Address kad)))
      end
  end.

Definition set_started (k : Kademlia) (b : bool) : Kademlia :=
  mkKademlia (addr k) (MaxProx k) (MaxProxBinSize k) (BucketSize k)
    (currentMaxBucketSize k) (nodeDB k) (proxLimit k) (proxSize k) (count k)
    (buckets k) b.

(** [Stop(path)]: [close(self.quitC); self.quitC = nil], and [Save] if a
    path is given. *)
Definition Stop {Data} (d : Disk Data) (k : Kademlia) (path : string)
    (files : gmap string Data) : Kademlia * gmap string Data * option FileError :=
  if negb (started k) then (k, files, None)
  else
    let k1 := set_started k false in
    if (String.length path =? 0)%nat then (k1, files, None)
    else Save d k1 path files.

(** What [encoding/json] keeps of a record: the exported fields. *)
Definition exported (nr : NodeRecord) : NodeRecord :=
  mkNodeRecord (nr_Address nr) (nr_Url nr) (nr_Active nr) None.

(** A disk whose files hold the exported fields as they are, and on which
    every write succeeds. *)
Definition sample_disk : Disk kadDB :=
  mkDisk kadDB
    (fun kad => Some (mkKadDB (kad_Address kad) (map (map exported) (kad_Nodes kad))))
    (fun data => Some data)
    (fun _ => None).

(** A record of a live node. *)
Definition live_record : NodeRecord :=
  mkNodeRecord (Addr twin_first) "enode"%string 0 (Some twin_first).

(** *** The goroutine of [AddNode] (kademlia.go, lines 192-208)

    [AddNode] returns when it has written the bucket; the record of the node
    is filed by the goroutine it starts last, which takes [dblock] some time
    later.  [nodeIndex] and the rows of [nodeDB] hold pointers to
    [NodeRecord]s and the goroutine writes through one of them
    ([record.node = node]): the records are kept in a store here, and a
    pointer is a position of the store. *)

Record RecordDB : Type := mkRecordDB {
  db_records : list NodeRecord;            (* the records allocated so far *)
  db_rows : list (list nat);               (* nodeDB [][]*NodeRecord *)
  db_index : option (gmap Address nat)     (* nodeIndex; [None] is the nil map *)
}.

(** [&NodeRecord{Address: node.Addr(), Url: node.Url(),
      Active: node.LastActive().UnixNano(), node: node}] *)
Definition record_of (node : Node) : NodeRecord :=
  mkNodeRecord (Addr node) (Url node) (UnixNano (LastActive node)) (Some node).

(** [record.node = node] *)
Definition with_node (node : Node) (r : NodeRecord) : NodeRecord :=
  mkNodeRecord (nr_Address r) (nr_Url r) (nr_Active r) (Some node).

(** The body of the goroutine; [index] and [node] are the variables of
    [AddNode] it has captured.  A nil map is read like an empty one, and
    assigning to it panics; [None] is that panic or the one of
    [self.nodeDB[index]]. *)
Definition AddNode_goroutine (d : RecordDB) (index : Z) (node : Node)
  : option RecordDB :=
  match db_index d ≫= (fun ix => ix !! Addr node) with
  | Some p =>
      Some (mkRecordDB (alter (with_node node) p (db_records d))
              (db_rows d) (db_index d))
  | None =>
      ix ← db_index d;
      row ← slice_at (db_rows d) index;
      let p := length (db_records d) in
      Some (mkRecordDB (db_records d ++ [record_of node])
              (<[Z.to_nat index := row ++ [p]]> (db_rows d))
              (Some (<[Addr node := p]> ix)))
  end.

(** The rows as [GetNodeRecords], [Save] and [AddNodeRecords] above read
    them: the records the pointers point to. *)
Definition nodeDB_of (d : RecordDB) : list (list NodeRecord) :=
  map (omap (fun p => db_records d !! p)) (db_rows d).

(** What [Start] makes of the record db:
    [self.nodeDB = make([][]*NodeRecord, 8*len(self.addr));
     self.nodeIndex = make(map[Address]*NodeRecord)]. *)
Definition Start_db (d : RecordDB) (a : Address) : RecordDB :=
  mkRecordDB (db_records d) (replicate (Z.to_nat (8 * len a)) []) (Some ∅).

(** A table with its record db and the goroutines of [AddNode] that have
    not taken [dblock] yet, each with the [index] and the [node] it has
    captured.  The [nodeDB] of [sys_table] is not read: the rows are those
    of [sys_db]. *)
Record System : Type := mkSystem {
  sys_table : Kademlia;
  sys_db : RecordDB;
  sys_waiting : list (Z * Node)
}.

(** What happens to a started table: calls of [AddNode] and [RemoveNode],
    which exclude each other by [lock], and in between the goroutines that
    take [dblock], in any order. *)
Inductive Call : Type :=
  | CallAddNode (n : Node)
  | CallRemoveNode (n : Node)
  | RunGoroutine (i : nat).   (* the [i]-th of the waiting goroutines runs *)

Definition call (s : System) (c : Call) : option System :=
  match c with
  | CallAddNode n =>
      k' ← AddNode (sys_table s) n;
      Some (mkSystem k' (sys_db s)
              (sys_waiting s ++ [(proximityBin (sys_table s) (Addr n), n)]))
  | CallRemoveNode n =>
      r ← RemoveNode (sys_table s) n;
      Some (mkSystem r.1 (sys_db s) (sys_waiting s))
  | RunGoroutine i =>
      match sys_waiting s !! i with
      | None => Some s
      | Some (index, n) =>
          d' ← AddNode_goroutine (sys_db s) index n;
          Some (mkSystem (sys_table s) d' (delete i (sys_waiting s)))
      end
  end.

Fixpoint calls (s : System) (cs : list Call) : option System :=
  match cs with
  | [] => Some s
  | c :: cs' => s' ← call s c; calls s' cs'
  end.

(** [Start] with the record db it makes; on a table that is started it
    does nothing. *)
Definition Start_system (s : System) (a : Address) : option System :=
  if started (sys_table s) then Some s
  else k1 ← Start (sys_table s) a;
       Some (mkSystem k1 (Start_db (sys_db s) a) (sys_waiting s)).

(** A record db before [Start]: no record, no row, a nil index. *)
Definition no_records : RecordDB := mkRecordDB [] [] None.

(** The nodes of the buckets from [j] on. *)
Definition zone (k : Kademlia) (j : Z) : list Node :=
  concat (map nodes (drop (Z.to_nat j) (buckets k))).

(** The bin of a target, as [GetNodes] is documented: "the list of nodes
    belonging to the same proximity bin as the target.  The most proximate
    bin will be the union of the bins between proxLimit and MaxProx". *)
Definition target_bin (k : Kademlia) (target : Address) : list Node :=
  if proximityBin k target >=? proxLimit k then zone k (proxLimit k)
  else default [] (nodes <$> slice_at (buckets k) (proximityBin k target)).

(** The number of nodes [getNodes] has pushed when it comes to bucket
    [start]: on its way down those of the buckets above [start], on its way
    up those of the buckets from [index] to below [start]. *)
Definition pushed (k : Kademlia) (index start : Z) (down : bool) : Z :=
  if down then len (zone k (start + 1))
  else len (zone k index) - len (zone k start).

(** While [getNodes] has not been at bucket [idx], it is on its way to it:
    going down from above it and not yet allowed to stop, or standing at
    it. *)
Definition on_the_way (index idx start : Z) (down : bool) : Prop :=
  if down then index <= idx <= start else start = idx.

End TableExt.

(** ** More of the wire protocol *)

Module BzzExt.
Import Bzz.

(** The request [handle] registers for a message that it accepts, and the
    error with which it turns down what it does not accept: what [handle]
    does on a session that receives this one message. *)
Definition registration (env : Env) (msg : Msg) : option Event :=
  match handle env (empty_world [inl msg]) with
  | Some (None, w') => head (trace w')
  | _ => None
  end.

Definition rejection (env : Env) (m : Msg + error) : option error :=
  match handle env (empty_world [m]) with
  | Some (Some e, _) => Some e
  | _ => None
  end.

(** The calls with which [handle] passes a request on. *)
Definition is_registration (e : Event) : bool :=
  match e with
  | EvAddStoreRequest _ | EvAddRetrieveRequest _ | EvAddPeerEntries _ => true
  | _ => false
  end.

(** Go's [copy(dst, src)]: the first [min(len(dst), len(src))] elements of
    [dst] are overwritten with those of [src]. *)
Definition copy {A} (dst src : list A) : list A :=
  take (length dst) src ++ drop (length src) dst.

(** [storeRequest(key)]:
    [peerKey := make([]byte, 64); copy(peerKey, self.addrKey()); copy(peerKey[32:], key[:]);
     self.requestDb.Put(peerKey, []byte{0})]. *)
Definition peerKey (addrKey key : Key) : Key :=
  let k1 := copy (replicate 64 0) addrKey in
  take 32 k1 ++ copy (drop 32 k1) key.

Definition storeRequest (addrKey key : Key) (w : World) : World :=
  set_requestDb w (<[peerKey addrKey key := [0]]> (requestDb w)).

(** The [for] loop of [storeRequestLoop], for [m] rounds at most. *)
Fixpoint storeRequestLoop_rounds (m : nat) (env : Env) (addrKey : Key)
    (st : LoopState) (w : World) : Round :=
  match m with
  | O => Continue st w
  | S m' =>
      match storeRequestLoop_round env addrKey st w with
      | Continue st' w' => storeRequestLoop_rounds m' env addrKey st' w'
      | r => r
      end
  end.

(** The loop runs beside the goroutines that call [storeRequest] on the
    same session: a schedule is a sequence of rounds of the loop and of
    calls of [storeRequest]. *)
Inductive Action : Type :=
  | ActRound
  | ActStore (key : Key).

Fixpoint run_schedule (acts : list Action) (env : Env) (addrKey : Key)
    (st : LoopState) (w : World) : Round :=
  match acts with
  | [] => Continue st w
  | ActRound :: acts' =>
      match storeRequestLoop_round env addrKey st w with
      | Continue st' w' => run_schedule acts' env addrKey st' w'
      | r => r
      end
  | ActStore key :: acts' =>
      run_schedule acts' env addrKey st (storeRequest addrKey key w)
  end.

(** The messages a trace shows as sent. *)
Definition is_send (e : Event) : bool :=
  match e with EvSend _ _ => true | _ => false end.

Definition sent (t : list Event) : list Event := filter is_send t.

(** The loop has gone past the keys of its peer: it is to seek again, from a
    key whose first 32 bytes are above the peer's address key. *)
Definition past_range (addrKey : Key) (st : LoopState) : Prop :=
  ls_n st = 0 /\ bytes_le (take 32 (ls_key st)) addrKey = false.

(** Every key of the request db is one that [storeRequest] wrote: 64
    bytes. *)
Definition keys_64 (db : gmap Key (list Z)) : Prop :=
  forall k v, db !! k = Some v -> length k = 64%nat.

(** *** The two goroutines of a session (protocol.go, lines 240-268 and
    433-499)

    [runBzzProtocol] starts [storeRequestLoop] with [go] before the
    handshake and goes on beside it; both call [p2p.Send] on the same [rw],
    and [quitC] is all that ever stops the loop.  Each of the two is a
    machine here that makes, per step, one call on what they share or on
    what lies outside the file, with the tests that follow the call; a
    schedule says whose turn it is. *)

(** Where the goroutine of [runBzzProtocol] stands. *)
Inductive MainPc : Type :=
  | AtSendStatus               (* before p2p.Send(self.rw, statusMsg, handshake) *)
  | AtReadStatus               (* before self.rw.ReadMsg() of handleStatus *)
  | AtAddPeer (a : peerAddr)   (* self.node is set; before hive.addPeer *)
  | AtHandle                   (* before self.rw.ReadMsg() of handle *)
  | AtRegister (ev : Event)    (* before the call that passes the request on *)
  | AtRemovePeer (e : error)   (* before hive.removePeer *)
  | AtCloseQuit (e : error)    (* before close(self.quitC) *)
  | Returned (err : option error).

(** The tests of [handleStatus] on what [ReadMsg] has returned: the address
    of the peer, or the error. *)
Definition check_status (env : Env) (r : Msg + error) : peerAddr + error :=
  match r with
  | inr e => inr e
  | inl msg =>
      if negb (Code msg =? statusMsg) then inr (ProtoError ErrNoStatusMsg)
      else if Size msg >? ProtocolMaxMsgSize then inr (ProtoError ErrMsgTooLarge)
      else
        match decode_status env (Payload msg) with
        | None => inr (ProtoError ErrDecode)
        | Some status =>
            if negb (st_NetworkId status =? NetworkId)
            then inr (ProtoError ErrNetworkIdMismatch)
            else if negb (Version =? st_Version status)
            then inr (ProtoError ErrVersionMismatch)
            else inl (st_Addr status)
        end
  end.

(** The tests of [handle] on what [ReadMsg] has returned: the call with
    which the request is passed on, or the error. *)
Definition dispatch (env : Env) (r : Msg + error) : Event + error :=
  match r with
  | inr e => inr e
  | inl msg =>
      if Size msg >? ProtocolMaxMsgSize then inr (ProtoError ErrMsgTooLarge)
      else if Code msg =? statusMsg then inr (ProtoError ErrExtraStatusMsg)
      else if Code msg =? storeRequestMsg then
        match decode_store env (Payload msg) with
        | None => inr (ProtoError ErrDecode)
        | Some req => inl (EvAddStoreRequest req)
        end
      else if Code msg =? retrieveRequestMsg then
        match decode_retrieve env (Payload msg) with
        | None => inr (ProtoError ErrDecode)
        | Some req =>
            match rr_Key req with
            | None => inr (ProtoError ErrDecode)
            | Some _ => inl (EvAddRetrieveRequest req)
            end
        end
      else if Code msg =? peersMsg then
        match decode_peers env (Payload msg) with
        | None => inr (ProtoError ErrDecode)
        | Some req => inl (EvAddPeerEntries req)
        end
      else inr (ProtoError ErrInvalidMsgCode)
  end.

(** One step of the goroutine of [runBzzProtocol]; [None] when it is
    blocked in [ReadMsg] or has returned. *)
Definition main_step (env : Env) (pc : MainPc) (w : World)
  : option (MainPc * World) :=
  match pc with
  | AtSendStatus =>
      let r := Send_outcome statusMsg (handshake env) w in
      Some (match r.1 with
            | Some e => Returned (Some e)
            | None => AtReadStatus
            end, r.2)
  | AtReadStatus =>
      match reads w with
      | [] => None
      | r :: rest =>
          match check_status env r with
          | inl a => Some (AtAddPeer a, set_node (set_reads w rest) a)
          | inr e => Some (Returned (Some e), set_reads w rest)
          end
      end
  | AtAddPeer a => Some (AtHandle, log w (EvAddPeer a))
  | AtHandle =>
      match reads w with
      | [] => None
      | r :: rest =>
          match dispatch env r with
          | inl ev => Some (AtRegister ev, set_reads w rest)
          | inr e => Some (AtRemovePeer e, set_reads w rest)
          end
      end
  | AtRegister ev => Some (AtHandle, log w ev)
  | AtRemovePeer e => Some (AtCloseQuit e, log w EvRemovePeer)
  | AtCloseQuit e => Some (Returned (Some e), set_quit (log w EvCloseQuit))
  | Returned _ => None
  end.

(** The goroutine of [runBzzProtocol] on its own, up to its return. *)
Fixpoint main_run (fuel : nat) (env : Env) (pc : MainPc) (w : World)
  : option (option error * World) :=
  match pc with
  | Returned err => Some (err, w)
  | _ =>
      match fuel with
      | O => None
      | S fuel' =>
          match main_step env pc w with
          | Some (pc', w') => main_run fuel' env pc' w'
          | None => None
          end
      end
  end.

(** Where the goroutine of [storeRequestLoop] stands, with its local
    variables. *)
Inductive LoopPc : Type :=
  | AtTop (st : LoopState)             (* at the head of the for loop *)
  | AtSleepInvalid (st : LoopState)    (* before time.Sleep, the iterator not Valid *)
  | AtDeleteMissing (st : LoopState)   (* before requestDb.Delete(key), Get has failed *)
  | AtStore (st : LoopState) (chunk : Chunk)   (* before self.store(req) *)
  | AtDelete (st : LoopState)          (* before n--; requestDb.Delete(key) *)
  | AtSleepEnd (st : LoopState)        (* before time.Sleep, the range used up *)
  | AtSelect (st : LoopState)          (* before the select on quitC *)
  | Exited (st : LoopState)
  | Panicked.

(** From the key of the round to the first call on the request db or the
    transport: the test of the peer's range and [dbStore.Get]. *)
Definition route (env : Env) (addrKey : Key) (st1 : LoopState) : LoopPc :=
  let key := ls_key st1 in
  if len key <? 32 then
    match short_key_prefix env key with
    | None => Panicked
    | Some pre =>
        if negb (bool_decide (pre = addrKey))
        then AtTop (mkLoopState (ls_start st1) key 0 (ls_it st1))
        else Panicked
    end
  else if negb (bool_decide (take 32 key = addrKey)) then
    AtTop (mkLoopState (ls_start st1) key 0 (ls_it st1))
  else
    match dbStore_Get env (drop 32 key) with
    | None => AtDeleteMissing st1
    | Some chunk => AtStore st1 chunk
    end.

(** One step of the goroutine of [storeRequestLoop]; [None] when it has
    left the loop or panicked. *)
Definition loop_step (env : Env) (addrKey : Key) (pc : LoopPc) (w : World)
  : option (LoopPc * World) :=
  match pc with
  | AtTop st =>
      if ls_n st =? 0 then
        match seek env (requestDb w) (ls_key st) with
        | [] => Some (AtSleepInvalid (mkLoopState (ls_start st) (ls_key st) (ls_n st) []), w)
        | k :: rest => Some (route env addrKey (mkLoopState (ls_start st) k 100 (k :: rest)), w)
        end
      else Some (route env addrKey st, w)
  | AtSleepInvalid st => Some (AtTop st, log w EvSleep)
  | AtDeleteMissing st =>
      Some (AtTop st,
            log (set_requestDb w (delete (ls_key st) (requestDb w)))
              (EvDbDelete (ls_key st)))
  | AtStore st chunk =>
      let req := mkStoreRequest (chunk_Key chunk) (chunk_SData chunk)
                   (generateId env) in
      Some (AtDelete st, (Send_outcome storeRequestMsg (BStore req) w).2)
  | AtDelete st =>
      let n1 := int_wrap (ls_n st - 1) in
      let w2 := log (set_requestDb w (delete (ls_key st) (requestDb w)))
                  (EvDbDelete (ls_key st)) in
      let it1 := tail (ls_it st) in
      let key1 := it_Key it1 in
      if len key1 =? 0 then
        let st2 := mkLoopState (ls_start st) (ls_start st) 0 it1 in
        Some (if n1 =? 0 then AtSleepEnd st2 else AtSelect st2, w2)
      else Some (AtSelect (mkLoopState (ls_start st) key1 n1 it1), w2)
  | AtSleepEnd st => Some (AtSelect st, log w EvSleep)
  | AtSelect st => Some (if quit w then Exited st else AtTop st, w)
  | Exited _ => None
  | Panicked => None
  end.

(** The goroutine of [storeRequestLoop] on its own, from the head of the
    loop to the end of the round. *)
Fixpoint loop_round (fuel : nat) (env : Env) (addrKey : Key) (pc : LoopPc)
    (w : World) : Round :=
  match fuel with
  | O => RoundPanics
  | S fuel' =>
      match loop_step env addrKey pc w with
      | Some (AtTop st', w') => Continue st' w'
      | Some (Exited st', w') => Break st' w'
      | Some (Panicked, _) => RoundPanics
      | Some (pc', w') => loop_round fuel' env addrKey pc' w'
      | None => RoundPanics
      end
  end.

(** A session: the two goroutines and what they share. *)
Record Session : Type := mkSession {
  main_pc : MainPc;
  loop_pc : LoopPc;
  world : World
}.

(** Whose turn it is.  The request db is one for all sessions: store
    requests are entered for this and other peers and the loops of other
    sessions delete theirs, so between two steps the db may come to hold
    anything. *)
Inductive Turn : Type :=
  | TurnMain
  | TurnLoop
  | TurnOthers (db : gmap Key (list Z)).

(** One turn.  A goroutine that is blocked or has ended stays where it is,
    and a panic of the loop ends the process: nothing moves after it. *)
Definition turn (env : Env) (addrKey : Key) (s : Session) (t : Turn) : Session :=
  match loop_pc s with
  | Panicked => s
  | _ =>
      match t with
      | TurnMain =>
          match main_step env (main_pc s) (world s) with
          | Some (pc', w') => mkSession pc' (loop_pc s) w'
          | None => s
          end
      | TurnLoop =>
          match loop_step env addrKey (loop_pc s) (world s) with
          | Some (pc', w') => mkSession (main_pc s) pc' w'
          | None => s
          end
      | TurnOthers db =>
          mkSession (main_pc s) (loop_pc s) (set_requestDb (world s) db)
      end
  end.

Definition turns (env : Env) (addrKey : Key) (s : Session) (ts : list Turn)
  : Session :=
  foldl (turn env addrKey) s ts.

(** [runBzzProtocol] has made the session and started the loop. *)
Definition session_start (addrKey : Key) (w : World) : Session :=
  mkSession AtSendStatus (AtTop (storeRequestLoop_init addrKey)) w.

(** The calls of the loop, as a trace shows them. *)
Definition by_loop (e : Event) : bool :=
  match e with
  | EvSend code _ => code =? storeRequestMsg
  | EvDbDelete _ | EvSleep => true
  | _ => false
  end.

Definition by_main (e : Event) : bool := negb (by_loop e).

Definition loop_calls (t : list Event) : list Event := filter by_loop t.
Definition main_calls (t : list Event) : list Event := filter by_main t.

(** What the loop calls: [Send] with the store request of a chunk that
    [dbStore.Get] has returned, [Delete] of a key of its peer, [Sleep]. *)
Definition loop_call (env : Env) (addrKey : Key) (e : Event) : Prop :=
  match e with
  | EvSend code (BStore req) =>
      code = storeRequestMsg
      /\ exists key chunk,
           dbStore_Get env key = Some chunk
           /\ req = mkStoreRequest (chunk_Key chunk) (chunk_SData chunk)
                      (generateId env)
  | EvDbDelete key => 32 <= len key /\ take 32 key = addrKey
  | EvSleep => True
  | _ => False
  end.

(** What the goroutine of [runBzzProtocol] has called when it stands at
    [pc], and the peer it has set: [node0] is [self.node] as the session
    began. *)
Definition main_called (env : Env) (pc : MainPc) (node0 node1 : option peerAddr)
    (calls : list Event) : Prop :=
  let hs := EvSend statusMsg (handshake env) in
  let serving (more : list Event) :=
    exists a regs,
      calls = [hs; EvAddPeer a] ++ regs ++ more
      /\ forallb is_registration regs = true /\ node1 = Some a in
  match pc with
  | AtSendStatus => calls = [] /\ node1 = node0
  | AtReadStatus => calls = [hs] /\ node1 = node0
  | AtAddPeer a => calls = [hs] /\ node1 = Some a
  | AtHandle | AtRemovePeer _ => serving []
  | AtRegister ev => serving [] /\ is_registration ev = true
  | AtCloseQuit _ => serving [EvRemovePeer]
  | Returned None => False
  | Returned (Some _) =>
      (calls = [hs] /\ node1 = node0) \/ serving [EvRemovePeer; EvCloseQuit]
  end.

(** What the loop knows of its key when it stands at [pc]. *)
Definition loop_at (env : Env) (addrKey : Key) (pc : LoopPc) : Prop :=
  match pc with
  | AtDeleteMissing st | AtDelete st =>
      32 <= len (ls_key st) /\ take 32 (ls_key st) = addrKey
  | AtStore st chunk =>
      32 <= len (ls_key st) /\ take 32 (ls_key st) = addrKey
      /\ dbStore_Get env (drop 32 (ls_key st)) = Some chunk
  | _ => True
  end.

(** What holds of a session at every moment; [w0] is the world in which it
    began and [calls] what has been called since. *)
Definition session_ok (env : Env) (addrKey : Key) (w0 : World) (s : Session)
    (calls : list Event) : Prop :=
  trace (world s) = trace w0 ++ calls
  /\ main_called env (main_pc s) (node w0) (node (world s)) (main_calls calls)
  /\ Forall (loop_call env addrKey) (loop_calls calls)
  /\ loop_at env addrKey (loop_pc s)
  /\ (quit (world s) = true <-> EvCloseQuit ∈ calls)
  /\ (quit (world s) = true -> exists e, main_pc s = Returned (Some e))
  /\ (forall st, loop_pc s = Exited st -> quit (world s) = true).

(** A world with a pending key of the peer and a first message that is no
    status message. *)
Definition unwelcome_world : World :=
  mkWorld [inl (mkMsg peersMsg 1 [])] [] [] None {[ pending_key := [0] ]} false.

End BzzExt.

(** * Properties *)

Section MachineIntegers.

Lemma int_wrap_small z : int_min <= z <= int_max -> int_wrap z = z.
Proof.
  unfold int_wrap, int_min, int_max. intros H.
  rewrite Z.mod_small; lia.
Qed.

End MachineIntegers.

Module KadMetric.
Import Kad.

Lemma all_bytes_complete b : is_byte b -> In b all_bytes.
Proof.
  intros [H0 H1]. unfold all_bytes.
  apply in_map_iff. exists (Z.to_nat b). split; [lia|].
  apply in_seq. lia.
Qed.

Lemma forallb_bytes (P : Z -> bool) :
  forallb P all_bytes = true -> forall b, is_byte b -> P b = true.
Proof.
  intros H b Hb. rewrite forallb_forall in H. apply H.
  by apply all_bytes_complete.
Qed.

(** The bit scan of one byte finds its highest set bit. *)
Lemma proximity_bit_byte b :
  is_byte b ->
  proximity_bit b 0 8 = if b =? 0 then None else Some (7 - Z.log2 b).
Proof.
  intros Hb.
  pose (P := fun b : Z =>
    bool_decide (proximity_bit b 0 8 = if b =? 0 then None else Some (7 - Z.log2 b))).
  assert (H : P b = true).
  { apply forallb_bytes; [by vm_compute | done]. }
  unfold P in H. by apply bool_decide_eq_true in H.
Qed.

Lemma lxor_byte x y : is_byte x -> is_byte y -> is_byte (Z.lxor x y).
Proof.
  unfold is_byte. intros Hx Hy.
  assert (H0 : 0 <= Z.lxor x y) by (apply Z.lxor_nonneg; lia).
  split; [done|].
  destruct (Z.eq_dec (Z.lxor x y) 0) as [->|Hne]; [lia|].
  change 256 with (2 ^ 8). apply Z.log2_lt_pow2; [lia|].
  eapply Z.le_lt_trans; [apply Z.log2_lxor; lia|].
  apply Z.max_lub_lt.
  - destruct (Z.eq_dec x 0) as [->|]; [done|]. apply Z.log2_lt_pow2; lia.
  - destruct (Z.eq_dec y 0) as [->|]; [done|]. apply Z.log2_lt_pow2; lia.
Qed.

Lemma xor_bytes_bytes xs ys :
  Forall is_byte xs -> Forall is_byte ys -> Forall is_byte (xor_bytes xs ys).
Proof.
  intros Hx. revert ys. induction Hx as [|x xs Hx Hxs IH]; intros ys Hy.
  - constructor.
  - destruct Hy as [|y ys Hy Hys]; [constructor|].
    cbn. constructor; [by apply lxor_byte | by apply IH].
Qed.

Lemma xor_bytes_cons x xs y ys :
  xor_bytes (x :: xs) (y :: ys) = Z.lxor x y :: xor_bytes xs ys.
Proof. reflexivity. Qed.

Lemma xor_bytes_length xs ys :
  length xs = length ys -> length (xor_bytes xs ys) = length xs.
Proof.
  revert ys. induction xs as [|x xs IH]; intros [|y ys] H; cbn in *; try done.
  f_equal. apply IH. lia.
Qed.

Lemma xor_bytes_comm xs ys : xor_bytes xs ys = xor_bytes ys xs.
Proof.
  revert ys. induction xs as [|x xs IH]; intros [|y ys]; cbn; try done.
  by rewrite Z.lxor_comm, IH.
Qed.

Lemma be_value_range l :
  Forall is_byte l -> 0 <= be_value l < 2 ^ (8 * len l).
Proof.
  induction 1 as [|b l Hb Hl IH]; [unfold len; simpl; lia|].
  cbn [be_value]. unfold len in *. cbn [length].
  replace (8 * Z.of_nat (S (length l))) with (8 + 8 * Z.of_nat (length l)) by lia.
  rewrite Z.pow_add_r by lia. change (2 ^ 8) with 256.
  unfold is_byte in Hb. nia.
Qed.

(** The position of the highest set bit of [b * 2^m + r]. *)
Lemma log2_shift_add b m r :
  0 < b -> 0 <= m -> 0 <= r < 2 ^ m -> Z.log2 (b * 2 ^ m + r) = Z.log2 b + m.
Proof.
  intros Hb Hm Hr.
  destruct (Z.log2_spec b Hb) as [Hlo Hhi].
  assert (0 <= Z.log2 b) by apply Z.log2_nonneg.
  apply Z.log2_unique; [lia|].
  replace (Z.succ (Z.log2 b + m)) with (Z.succ (Z.log2 b) + m) by lia.
  rewrite !Z.pow_add_r by lia.
  assert (0 < 2 ^ m) by (apply Z.pow_pos_nonneg; lia).
  nia.
Qed.

Lemma leading_zeros_cons b rest :
  is_byte b -> Forall is_byte rest ->
  leading_zeros (8 * len (b :: rest)) (be_value (b :: rest)) =
    if b =? 0 then 8 + leading_zeros (8 * len rest) (be_value rest)
    else 7 - Z.log2 b.
Proof.
  intros Hb Hrest. pose proof (be_value_range rest Hrest) as Hr.
  unfold is_byte in Hb. cbn [be_value]. unfold leading_zeros, len in *. cbn [length].
  assert (0 < 2 ^ (8 * Z.of_nat (length rest))) by (apply Z.pow_pos_nonneg; lia).
  destruct (Z.eqb_spec b 0) as [->|Hb0].
  - rewrite Z.mul_0_l, Z.add_0_l. destruct (Z.eqb_spec (be_value rest) 0); lia.
  - destruct (Z.eqb_spec (b * 2 ^ (8 * Z.of_nat (length rest)) + be_value rest) 0); [nia|].
    rewrite log2_shift_add by lia. lia.
Qed.

(** [proximity] counts the leading zero bits of the distance. *)
Lemma proximity_loop_leading_zeros xs ys i :
  length xs = length ys -> Forall is_byte xs -> Forall is_byte ys ->
  proximity_loop xs ys i =
    i * 8 + leading_zeros (8 * len xs) (be_value (xor_bytes xs ys)).
Proof.
  intros Hlen Hx. revert ys i Hlen.
  induction Hx as [|x xs Hx Hxs IH]; intros [|y ys] i Hlen Hy; cbn in Hlen; try done.
  - cbn. unfold leading_zeros, len. simpl. lia.
  - apply Forall_cons in Hy as [Hy Hys].
    pose proof (lxor_byte x y Hx Hy) as Hb.
    cbn [proximity_loop]. rewrite proximity_bit_byte by done.
    assert (Hl : len (x :: xs) = len (xor_bytes (x :: xs) (y :: ys))).
    { unfold len. rewrite xor_bytes_length; cbn; [done|lia]. }
    rewrite Hl, xor_bytes_cons.
    rewrite leading_zeros_cons by (done || by apply xor_bytes_bytes).
    destruct (Z.eqb_spec (Z.lxor x y) 0) as [H0|H0]; [|lia].
    rewrite IH by (done || lia).
    unfold len. rewrite xor_bytes_length by lia. lia.
Qed.

Lemma proximity_leading_zeros x y :
  wf_address x -> wf_address y ->
  proximity x y = leading_zeros 256 (distance x y).
Proof.
  intros [Lx Bx] [Ly By]. unfold proximity, distance.
  rewrite proximity_loop_leading_zeros by (done || congruence).
  unfold len. rewrite Lx. done.
Qed.

Lemma distance_range x y :
  wf_address x -> wf_address y -> 0 <= distance x y < 2 ^ 256.
Proof.
  intros [Lx Bx] [Ly By]. unfold distance.
  pose proof (be_value_range _ (xor_bytes_bytes x y Bx By)) as H.
  unfold len in H. rewrite xor_bytes_length in H by congruence.
  by rewrite Lx in H.
Qed.

Lemma leading_zeros_range w d : 0 <= d < 2 ^ w -> 0 <= leading_zeros w d <= w.
Proof.
  intros Hd. unfold leading_zeros.
  assert (0 <= w).
  { destruct (Z.le_gt_cases 0 w); [done|]. rewrite Z.pow_neg_r in Hd; lia. }
  destruct (Z.eqb_spec d 0); [lia|].
  pose proof (Z.log2_nonneg d).
  assert (Z.log2 d < w) by (apply Z.log2_lt_pow2; lia). lia.
Qed.

(** A smaller distance has at least as many leading zeros. *)
Lemma leading_zeros_antimono w d1 d2 :
  0 <= d1 <= d2 -> d2 < 2 ^ w -> leading_zeros w d2 <= leading_zeros w d1.
Proof.
  intros H12 Hw. unfold leading_zeros.
  destruct (Z.eqb_spec d2 0), (Z.eqb_spec d1 0); try lia.
  - assert (Z.log2 d2 < w) by (apply Z.log2_lt_pow2; lia).
    pose proof (Z.log2_nonneg d2). lia.
  - pose proof (Z.log2_le_mono d1 d2). lia.
Qed.

Lemma be_value_inj l1 l2 :
  length l1 = length l2 -> Forall is_byte l1 -> Forall is_byte l2 ->
  be_value l1 = be_value l2 -> l1 = l2.
Proof.
  intros Hlen H1. revert l2 Hlen.
  induction H1 as [|b1 l1 Hb1 Hl1 IH]; intros [|b2 l2] Hlen H2 Heq; cbn in Hlen; try done.
  apply Forall_cons in H2 as [Hb2 Hl2].
  cbn [be_value] in Heq.
  pose proof (be_value_range l1 Hl1) as R1.
  pose proof (be_value_range l2 Hl2) as R2.
  assert (Hl : length l2 = length l1) by lia.
  unfold len in *. rewrite Hl in R2, Heq.
  unfold is_byte in *.
  assert (b1 = b2) by nia. subst b2.
  f_equal. apply IH; [lia|done|lia].
Qed.

Lemma lxor_eq_0 x y : Z.lxor x y = 0 -> x = y.
Proof. apply Z.lxor_eq. Qed.

Lemma xor_bytes_zero xs ys :
  length xs = length ys -> Forall is_byte xs -> Forall is_byte ys ->
  be_value (xor_bytes xs ys) = 0 -> xs = ys.
Proof.
  intros Hlen Hx. revert ys Hlen.
  induction Hx as [|x xs Hx Hxs IH]; intros [|y ys] Hlen Hy H0; cbn in Hlen; try done.
  apply Forall_cons in Hy as [Hy Hys].
  rewrite xor_bytes_cons in H0. cbn [be_value] in H0.
  pose proof (lxor_byte x y Hx Hy) as [Hb _].
  pose proof (be_value_range _ (xor_bytes_bytes xs ys Hxs Hys)) as [Hr _].
  assert (0 < 2 ^ (8 * len (xor_bytes xs ys))) by (apply Z.pow_pos_nonneg; unfold len; lia).
  assert (Z.lxor x y = 0) by nia.
  assert (be_value (xor_bytes xs ys) = 0) by nia.
  f_equal; [by apply lxor_eq_0 | apply IH; [lia|done|done]].
Qed.

Lemma xor_bytes_self xs : be_value (xor_bytes xs xs) = 0.
Proof.
  induction xs as [|x xs IH]; [done|].
  rewrite xor_bytes_cons. cbn [be_value].
  rewrite Z.lxor_nilpotent, IH. lia.
Qed.

(** [proxCmp] is the comparison of the two distances to the target. *)
Lemma proxCmp_compare t a b :
  length a = length t -> length b = length t ->
  Forall is_byte t -> Forall is_byte a -> Forall is_byte b ->
  proxCmp t a b =
    match be_value (xor_bytes a t) ?= be_value (xor_bytes b t) with
    | Lt => -1 | Eq => 0 | Gt => 1
    end.
Proof.
  intros La Lb Ht. revert a b La Lb.
  induction Ht as [|t0 t Ht0 Ht IH]; intros [|x a] [|y b] La Lb Ha Hb; cbn in La, Lb; try done.
  apply Forall_cons in Ha as [Hx Ha]. apply Forall_cons in Hb as [Hy Hb].
  cbn [proxCmp]. rewrite !xor_bytes_cons. cbn [be_value].
  pose proof (lxor_byte x t0 Hx Ht0) as Bx.
  pose proof (lxor_byte y t0 Hy Ht0) as By.
  pose proof (be_value_range _ (xor_bytes_bytes a t Ha Ht)) as Ra.
  pose proof (be_value_range _ (xor_bytes_bytes b t Hb Ht)) as Rb.
  assert (La' : length a = length t) by lia.
  assert (Lb' : length b = length t) by lia.
  unfold len in *.
  rewrite xor_bytes_length, La' in Ra by lia.
  rewrite xor_bytes_length, Lb' in Rb by lia.
  rewrite !xor_bytes_length, La', Lb' by lia.
  set (m := 2 ^ (8 * Z.of_nat (length t))) in *.
  assert (0 < m) by (apply Z.pow_pos_nonneg; lia).
  unfold is_byte in Bx, By.
  destruct (Z.gtb_spec (Z.lxor x t0) (Z.lxor y t0)) as [Hgt|Hle].
  { assert (Hc : (Z.lxor x t0 * m + be_value (xor_bytes a t) ?=
                   Z.lxor y t0 * m + be_value (xor_bytes b t)) = Gt)
      by (apply Z.compare_gt_iff; nia).
    by rewrite Hc. }
  destruct (Z.ltb_spec (Z.lxor x t0) (Z.lxor y t0)) as [Hlt|Hge].
  { assert (Hc : (Z.lxor x t0 * m + be_value (xor_bytes a t) ?=
                   Z.lxor y t0 * m + be_value (xor_bytes b t)) = Lt)
      by (apply Z.compare_lt_iff; nia).
    by rewrite Hc. }
  assert (Heq : Z.lxor x t0 = Z.lxor y t0) by lia.
  rewrite IH by (done || lia). rewrite Heq.
  by rewrite Z.add_compare_mono_l.
Qed.

Lemma testbit_shift_add b m r n :
  0 <= m -> 0 <= r < 2 ^ m -> 0 <= n ->
  Z.testbit (b * 2 ^ m + r) n = if n <? m then Z.testbit r n else Z.testbit b (n - m).
Proof.
  intros Hm Hr Hn.
  assert (0 < 2 ^ m) by (apply Z.pow_pos_nonneg; lia).
  destruct (Z.ltb_spec n m) as [Hlt|Hge].
  - rewrite <- (Z.mod_pow2_bits_low (b * 2 ^ m + r) m n) by lia.
    rewrite Z.add_comm, Z.mod_add by lia. rewrite Z.mod_small by lia.
    done.
  - replace n with ((n - m) + m) at 1 by lia.
    rewrite <- Z.div_pow2_bits by lia.
    rewrite Z.add_comm, Z.div_add by lia. rewrite Z.div_small by lia.
    done.
Qed.

Lemma be_value_lxor xs ys :
  length xs = length ys -> Forall is_byte xs -> Forall is_byte ys ->
  be_value (xor_bytes xs ys) = Z.lxor (be_value xs) (be_value ys).
Proof.
  intros Hlen Hx. revert ys Hlen.
  induction Hx as [|x xs Hx Hxs IH]; intros [|y ys] Hlen Hy; cbn in Hlen; try done.
  apply Forall_cons in Hy as [Hy Hys].
  rewrite xor_bytes_cons. cbn [be_value].
  pose proof (be_value_range xs Hxs) as Rx.
  pose proof (be_value_range ys Hys) as Ry.
  pose proof (be_value_range _ (xor_bytes_bytes xs ys Hxs Hys)) as Rxy.
  assert (Hl : length ys = length xs) by lia.
  unfold len in *. rewrite xor_bytes_length in Rxy |- * by lia. rewrite Hl in Ry |- *.
  apply Z.bits_inj'. intros n Hn.
  rewrite Z.lxor_spec, !testbit_shift_add by lia.
  destruct (n <? _); [|by rewrite Z.lxor_spec].
  rewrite IH by (done || lia). by rewrite Z.lxor_spec.
Qed.

Lemma leading_zeros_bits_clear w d i :
  0 <= d < 2 ^ w -> 0 <= i < leading_zeros w d -> Z.testbit d (w - 1 - i) = false.
Proof.
  unfold leading_zeros. intros Hd Hi.
  destruct (Z.eqb_spec d 0) as [->|Hne]; [apply Z.bits_0|].
  apply Z.bits_above_log2; lia.
Qed.

Lemma leading_zeros_bit_set w d :
  0 <= d < 2 ^ w -> leading_zeros w d < w ->
  Z.testbit d (w - 1 - leading_zeros w d) = true.
Proof.
  unfold leading_zeros. intros Hd Hlt.
  destruct (Z.eqb_spec d 0) as [->|Hne]; [lia|].
  replace (w - 1 - (w - 1 - Z.log2 d)) with (Z.log2 d) by lia.
  apply Z.bit_log2. lia.
Qed.

Lemma addr_bit_xor x y i :
  wf_address x -> wf_address y ->
  Z.testbit (distance x y) (255 - i) = xorb (addr_bit x i) (addr_bit y i).
Proof.
  intros [Lx Bx] [Ly By]. unfold distance, addr_bit, len.
  rewrite be_value_lxor by (done || congruence).
  rewrite Z.lxor_spec, Lx, Ly. done.
Qed.

(** C6.  For 32-byte addresses [x] and [y], [proximity x y] is the number
    of leading zero bits of the big-endian integer [x XOR y]: it is the
    index of the first bit in which [x] and [y] differ, it lies in
    [0, 256], and it is 256 exactly when [x = y]. *)
Theorem proximity_counts_leading_zeros x y :
  wf_address x -> wf_address y ->
  proximity x y = leading_zeros 256 (distance x y)
  /\ (forall i, 0 <= i < proximity x y -> addr_bit x i = addr_bit y i)
  /\ (proximity x y < 256 ->
      addr_bit x (proximity x y) <> addr_bit y (proximity x y))
  /\ 0 <= proximity x y <= 256
  /\ (proximity x y = 256 <-> x = y).
Proof.
  intros Hx Hy.
  pose proof (proximity_leading_zeros x y Hx Hy) as Hp.
  pose proof (distance_range x y Hx Hy) as Hd.
  rewrite Hp. repeat split.
  - intros i Hi.
    pose proof (leading_zeros_bits_clear 256 _ i Hd Hi) as Hb.
    replace (256 - 1 - i) with (255 - i) in Hb by lia.
    rewrite addr_bit_xor in Hb by done.
    by destruct (addr_bit x i), (addr_bit y i).
  - intros Hlt Heq.
    pose proof (leading_zeros_bit_set 256 _ Hd Hlt) as Hb.
    replace (256 - 1 - leading_zeros 256 (distance x y))
      with (255 - leading_zeros 256 (distance x y)) in Hb by lia.
    rewrite addr_bit_xor, Heq in Hb by done.
    by destruct (addr_bit y _).
  - by apply leading_zeros_range.
  - by apply leading_zeros_range.
  - intros H256. destruct Hx as [Lx Bx], Hy as [Ly By].
    apply xor_bytes_zero; [congruence|done|done|].
    fold (distance x y). unfold leading_zeros in H256.
    destruct (Z.eqb_spec (distance x y) 0); [done|].
    pose proof (Z.log2_nonneg (distance x y)). lia.
  - intros ->. unfold distance. by rewrite xor_bytes_self.
Qed.

Lemma proximity_counts_leading_zeros_witness :
  let x := replicate 32 0 in
  let y := replicate 31 0 ++ [5] in
  proximity x y = 253 /\ leading_zeros 256 (distance x y) = 253
  /\ addr_bit x 253 <> addr_bit y 253.
Proof.
  intros x y.
  assert (Hx : wf_address x) by (apply (bool_decide_unpack _); by vm_compute).
  assert (Hy : wf_address y) by (apply (bool_decide_unpack _); by vm_compute).
  destruct (proximity_counts_leading_zeros x y Hx Hy) as (H1 & _ & H3 & _).
  assert (Hv : proximity x y = 253) by (by vm_compute).
  rewrite Hv in *.
  split; [done|]. split; [by rewrite <- H1|]. apply H3; lia.
Defined.

(** C5.  For 32-byte addresses, [proxCmp t a b < 0] says that [a XOR t] is
    smaller than [b XOR t] as a big-endian integer, and then
    [proximity t a >= proximity t b]. *)
Theorem proxCmp_proximity_agree t a b :
  wf_address t -> wf_address a -> wf_address b ->
  (proxCmp t a b < 0 <-> distance a t < distance b t)
  /\ (proxCmp t a b < 0 -> proximity t a >= proximity t b).
Proof.
  intros Ht Ha Hb.
  pose proof (distance_range a t Ha Ht) as Ra.
  pose proof (distance_range b t Hb Ht) as Rb.
  assert (Hiff : proxCmp t a b < 0 <-> distance a t < distance b t).
  { destruct Ht as [Lt Bt], Ha as [La Ba], Hb as [Lb Bb].
    rewrite proxCmp_compare by (done || congruence).
    unfold distance.
    destruct (Z.compare_spec (be_value (xor_bytes a t)) (be_value (xor_bytes b t))); lia. }
  split; [done|].
  intros Hlt. apply Hiff in Hlt.
  rewrite !proximity_leading_zeros by done.
  unfold distance in *. rewrite (xor_bytes_comm t a), (xor_bytes_comm t b).
  apply Z.le_ge, leading_zeros_antimono; lia.
Qed.

Lemma proxCmp_proximity_agree_witness :
  let t := replicate 32 0 in
  let a := replicate 31 0 ++ [1] in
  let b := 128 :: replicate 31 0 in
  proxCmp t a b < 0 /\ proximity t a >= proximity t b.
Proof.
  intros t a b.
  assert (Ht : wf_address t) by (apply (bool_decide_unpack _); by vm_compute).
  assert (Ha : wf_address a) by (apply (bool_decide_unpack _); by vm_compute).
  assert (Hb : wf_address b) by (apply (bool_decide_unpack _); by vm_compute).
  assert (Hc : proxCmp t a b < 0) by (by vm_compute).
  split; [done|].
  by apply (proxCmp_proximity_agree t a b Ht Ha Hb).
Defined.

End KadMetric.

Module TableFacts.
Import Kad Table.

(** *** Slices *)

Lemma slice_at_is_Some {A} (l : list A) i :
  0 <= i < len l -> is_Some (slice_at l i).
Proof.
  intros Hi. unfold slice_at, len in *.
  destruct (Z.leb_spec 0 i); [|lia].
  destruct (Z.ltb_spec i (Z.of_nat (length l))); [|lia].
  cbn. apply lookup_lt_is_Some. lia.
Qed.

Lemma slice_at_Some {A} (l : list A) i x :
  slice_at l i = Some x -> 0 <= i < len l /\ l !! Z.to_nat i = Some x.
Proof.
  unfold slice_at, len.
  destruct (Z.leb_spec 0 i); [|done].
  destruct (Z.ltb_spec i (Z.of_nat (length l))); [|done].
  cbn. intros Hx. split; [lia|done].
Qed.

(** *** The bin of an address *)

Lemma proximity_bit_ge oxo todo : forall j r,
  proximity_bit oxo j todo = Some r -> j <= r.
Proof.
  induction todo as [|todo IH]; intros j r; cbn; [done|].
  destruct (negb _); [intros [= <-]; lia|].
  intros H. apply IH in H. lia.
Qed.

Lemma proximity_loop_ge xs : forall ys i,
  0 <= i -> i * 8 <= proximity_loop xs ys i.
Proof.
  induction xs as [|x xs IH]; intros [|y ys] i Hi; cbn [proximity_loop]; try lia.
  destruct (proximity_bit _ _ _) as [j|] eqn:Hj.
  - apply proximity_bit_ge in Hj. lia.
  - specialize (IH ys (i + 1)). lia.
Qed.

Lemma proximity_nonneg x y : 0 <= proximity x y.
Proof. pose proof (proximity_loop_ge x y 0). unfold proximity. lia. Qed.

Lemma proximityBin_range k a :
  0 <= MaxProx k -> 0 <= proximityBin k a <= MaxProx k.
Proof.
  intros HM. unfold proximityBin.
  pose proof (proximity_nonneg (addr k) a).
  destruct (Z.gtb_spec (proximity (addr k) a) (MaxProx k)); lia.
Qed.

(** *** Buckets stay within their size *)

Lemma remove_loop_length todo a : forall ns i,
  (length (remove_loop todo a ns i) <= length ns)%nat.
Proof.
  induction todo as [|todo IH]; intros ns i; cbn; [done|].
  destruct (ns !! i) as [x|] eqn:Hx; [|done].
  destruct (bool_decide _); [|apply IH].
  etrans; [apply IH|].
  apply lookup_lt_Some in Hx.
  rewrite length_app, length_take, length_drop. lia.
Qed.

Lemma worstNode_loop_range ns : forall i oldest idx,
  0 <= idx < i + len ns -> 0 <= i ->
  0 <= worstNode_loop ns i oldest idx < i + len ns.
Proof.
  unfold len.
  induction ns as [|n ns IH]; intros i oldest idx Hidx Hi; cbn [worstNode_loop length].
  - cbn in Hidx. lia.
  - cbn [length] in Hidx.
    destruct (_ || _).
    + specialize (IH (i + 1) (LastActive n) i). lia.
    + specialize (IH (i + 1) oldest idx). lia.
Qed.

Lemma worstNode_range b :
  nodes b <> [] -> 0 <= worstNode b < len (nodes b).
Proof.
  intros Hne. unfold worstNode.
  pose proof (worstNode_loop_range (nodes b) 0 zero_time 0) as Hr.
  destruct (nodes b); [done|]. unfold len in *. cbn [length] in *. lia.
Qed.

(** [insert] never panics on a bucket of positive size, appends below the
    size and overwrites one place at the size; the bucket stays within
    its size. *)
Lemma insert_wf b node :
  wf_bucket b ->
  exists b', insert b node = Some b' /\ wf_bucket b' /\ size b' = size b
    /\ (len (nodes b) < size b -> nodes b' = nodes b ++ [node])
    /\ (len (nodes b) >= size b ->
        nodes b' = <[Z.to_nat (worstNode b) := node]> (nodes b)).
Proof.
  intros [Hs Hl]. unfold insert.
  destruct (Z.geb_spec (len (nodes b)) (size b)) as [Hge|Hlt].
  - assert (Hne : nodes b <> []).
    { intros E. rewrite E in Hge. unfold len in Hge. cbn in Hge. lia. }
    pose proof (worstNode_range b Hne) as Hw.
    destruct (Z.leb_spec 0 (worstNode b)); [|lia].
    destruct (Z.ltb_spec (worstNode b) (len (nodes b))); [|lia].
    cbn. eexists. split; [done|]. unfold wf_bucket. cbn.
    repeat split; try done; try lia.
    unfold len in *. rewrite length_insert. lia.
  - eexists. split; [done|]. unfold wf_bucket. cbn.
    repeat split; try done; try lia.
    unfold len in *. rewrite length_app. cbn. lia.
Qed.

(** *** proxLimit stays within the table *)

Lemma advance_loop_ok bs maxprox todo : forall limit sz,
  len bs = maxprox + 1 -> maxprox < int_max -> 0 <= limit ->
  exists l s, advance_loop todo bs maxprox limit sz = Some (l, s)
              /\ limit <= l /\ (l <= limit \/ l <= maxprox).
Proof.
  intros limit sz Hlen Hmax. revert limit sz.
  induction todo as [|todo IH]; intros limit sz Hl; cbn [advance_loop].
  - exists limit, sz. split; [done|lia].
  - destruct (Z.ltb_spec limit maxprox) as [Hlt|Hge].
    + destruct (slice_at_is_Some bs limit) as [b Hb]; [lia|].
      rewrite Hb. cbn.
      destruct (len (nodes b) >? 0).
      * rewrite (int_wrap_small (limit + 1)) by (unfold int_min, int_max in *; lia).
        destruct (IH (limit + 1) (int_wrap (sz - len (nodes b)))) as (l & s & -> & H1 & H2);
          [lia|].
        exists l, s. split; [done|lia].
      * exists limit, sz. split; [done|lia].
    + exists limit, sz. split; [done|lia].
Qed.

Lemma rollback_loop_ok bs maxprox r todo : forall i sz,
  len bs = maxprox + 1 -> maxprox < int_max -> 0 <= r -> i <= maxprox ->
  exists s, rollback_loop todo bs r i sz = Some s.
Proof.
  intros i sz Hlen Hmax Hr. revert i sz.
  induction todo as [|todo IH]; intros i sz Hi; cbn [rollback_loop]; [by eexists|].
  destruct (Z.gtb_spec i r) as [Hgt|Hle]; [|by eexists].
  destruct (slice_at_is_Some bs i) as [b Hb]; [lia|].
  rewrite Hb. cbn.
  rewrite (int_wrap_small (i - 1)) by (unfold int_min, int_max in *; lia).
  apply IH. lia.
Qed.

Lemma set_prox_id k : set_prox k (proxLimit k) (proxSize k) = k.
Proof. by destruct k. Qed.

(** [adjustProx] never panics on a well-formed table and only writes
    [proxLimit] and [proxSize]. *)
Lemma adjustProx_ok k r add :
  wf_table k -> 0 <= r <= MaxProx k -> add = 1 \/ add = -1 ->
  exists l s, adjustProx k r add = Some (set_prox k l s)
              /\ 0 <= l <= MaxProx k + 1.
Proof.
  intros (HM & Hlen & HP & Hb) Hr Hadd. unfold adjustProx.
  assert (Hw : forall z, 0 <= z <= MaxProx k + 1 -> int_wrap z = z).
  { intros z Hz. apply int_wrap_small. unfold int_min, int_max in *. lia. }
  destruct (Z.gtb_spec add 0) as [Hpos|Hneg]; cbn [andb].
  - assert (add = 1) as -> by lia.
    destruct (Z.eqb_spec r (proxLimit k)) as [Heq|Hne].
    + rewrite Hw by lia.
      destruct (advance_loop_ok (buckets k) (MaxProx k)
                  (Z.to_nat (MaxProx k - (proxLimit k + 1)))
                  (proxLimit k + 1) (proxSize k)) as (l & s & -> & H1 & H2);
        [done|lia|lia|].
      cbn. exists l, s. split; [done|lia].
    + destruct (Z.gtb_spec r (proxLimit k)) as [Hgt|Hle]; cbn [andb].
      * destruct (int_wrap (proxSize k + 1) >? MaxProxBinSize k).
        -- destruct (slice_at_is_Some (buckets k) r) as [b ->]; [lia|].
           cbn. rewrite Hw by lia. eexists _, _. split; [done|lia].
        -- eexists _, _. split; [done|lia].
      * destruct (1 <? 0) eqn:E; [done|]. cbn [andb].
        exists (proxLimit k), (proxSize k). by rewrite set_prox_id.
  - assert (add = -1) as -> by lia.
    change (-1 <? 0) with true. cbn [andb].
    destruct (Z.ltb_spec r (proxLimit k)) as [Hlt|Hge].
    + destruct (slice_at_is_Some (buckets k) r) as [b ->]; [lia|].
      cbn. destruct (len (nodes b) =? 0).
      * rewrite Hw by lia.
        destruct (rollback_loop_ok (buckets k) (MaxProx k) r
                    (Z.to_nat (proxLimit k - 1 - r)) (proxLimit k - 1) (proxSize k))
          as (s & ->); [done|lia|lia|lia|].
        cbn. exists r, s. split; [done|lia].
      * exists (proxLimit k), (proxSize k). by rewrite set_prox_id.
    + exists (proxLimit k), (proxSize k). by rewrite set_prox_id.
Qed.

Lemma wf_table_set_bucket k i b b' :
  wf_table k -> slice_at (buckets k) i = Some b -> wf_bucket b' ->
  wf_table (set_buckets k (<[Z.to_nat i := b']> (buckets k))).
Proof.
  intros (HM & Hlen & HP & Hb) Hi Hb'. unfold wf_table. cbn.
  unfold len in *. rewrite length_insert.
  repeat split; try lia. by apply Forall_insert.
Qed.

Lemma wf_table_set_count k c : wf_table k -> wf_table (set_count k c).
Proof. by intros (HM & Hlen & HP & Hb). Qed.

Lemma wf_table_set_prox k l s :
  wf_table k -> 0 <= l <= MaxProx k + 1 -> wf_table (set_prox k l s).
Proof.
  intros (HM & Hlen & HP & Hb) Hl. unfold wf_table. cbn.
  repeat split; (done || lia).
Qed.

Lemma Start_New_wf a :
  exists k, Start New a = Some k /\ wf_table k
            /\ MaxProx k = 255 /\ BucketSize k = 20 /\ MaxProxBinSize k = 20
            /\ proxLimit k = 0 /\ Count k = 0 /\ stored (buckets k) = 0.
Proof.
  eexists. split; [reflexivity|]. cbn.
  split; [|by vm_compute].
  unfold wf_table. cbn. repeat split; try (by vm_compute).
  apply Forall_replicate. by vm_compute.
Qed.

(** [AddNode] never panics on a well-formed table, and keeps it so. *)
Lemma AddNode_ok k node :
  wf_table k ->
  exists k', AddNode k node = Some k' /\ wf_table k'
             /\ Count k' = int_wrap (Count k + 1).
Proof.
  intros Hwf. pose proof Hwf as (HM & Hlen & HP & Hb). unfold AddNode.
  pose proof (proximityBin_range k (Addr node) (proj1 HM)) as Hidx.
  set (idx := proximityBin k (Addr node)) in *.
  destruct (slice_at_is_Some (buckets k) idx) as [b Hb0]; [lia|].
  rewrite Hb0. cbn.
  assert (Hwb : wf_bucket b).
  { apply slice_at_Some in Hb0 as [_ Hb0].
    rewrite Forall_lookup in Hb. by eapply Hb. }
  destruct (insert_wf b node Hwb) as (b' & -> & Hwb' & _). cbn.
  pose proof (wf_table_set_count _ (int_wrap (count k + 1))
                (wf_table_set_bucket k idx b b' Hwf Hb0 Hwb')) as Hwf2.
  match goal with |- context [adjustProx ?k2 _ _] => set (k2' := k2) in * end.
  destruct (idx >=? _).
  - destruct (adjustProx_ok k2' idx 1 Hwf2) as (l & s & -> & Hl); [done|by left|].
    eexists. split; [done|]. split; [by apply wf_table_set_prox|done].
  - eexists. split; [done|]. split; done.
Qed.

(** [RemoveNode] never panics on a well-formed table, keeps it so, and
    takes one off [count] whatever the bucket held. *)
Lemma RemoveNode_ok k node :
  wf_table k ->
  exists k' err, RemoveNode k node = Some (k', err) /\ wf_table k'
                 /\ Count k' = int_wrap (Count k - 1).
Proof.
  intros Hwf. pose proof Hwf as (HM & Hlen & HP & Hb). unfold RemoveNode.
  pose proof (proximityBin_range k (Addr node) (proj1 HM)) as Hidx.
  set (idx := proximityBin k (Addr node)) in *.
  destruct (slice_at_is_Some (buckets k) idx) as [b Hb0]; [lia|].
  rewrite Hb0. cbn -[adjustProx remove_loop].
  assert (Hwb : wf_bucket b).
  { apply slice_at_Some in Hb0 as [_ Hb0].
    rewrite Forall_lookup in Hb. by eapply Hb. }
  set (ns := remove_loop (length (nodes b)) (Addr node) (nodes b) 0).
  assert (Hwb' : wf_bucket (mkBucket (size b) ns)).
  { destruct Hwb as [H1 H2]. split; [done|]. cbn.
    pose proof (remove_loop_length (length (nodes b)) (Addr node) (nodes b) 0).
    unfold len in *. fold ns in H. lia. }
  pose proof (wf_table_set_count _ (int_wrap (count k - 1))
                (wf_table_set_bucket k idx b _ Hwf Hb0 Hwb')) as Hwf2.
  match goal with |- context [adjustProx ?k2 _ _] => set (k2' := k2) in * end.
  destruct (len ns =? 0).
  - destruct (adjustProx_ok k2' idx (-1) Hwf2) as (l & s & -> & Hl); [done|by right|].
    cbn. eexists _, _. split; [done|]. split; [by apply wf_table_set_prox|done].
  - cbn. eexists _, _. split; [done|]. split; done.
Qed.

Lemma run_ok ops : forall k,
  wf_table k -> exists k', run k ops = Some k' /\ wf_table k'.
Proof.
  induction ops as [|o ops IH]; intros k Hwf; cbn [run]; [by eexists|].
  destruct o as [n|n]; cbn [apply_op].
  - destruct (AddNode_ok k n Hwf) as (k' & -> & Hwf' & _). cbn. by apply IH.
  - destruct (RemoveNode_ok k n Hwf) as (k' & err & -> & Hwf' & _). cbn. by apply IH.
Qed.

(** No bucket of a started table ever holds more than its size. *)
Lemma buckets_bounded a ops :
  exists k, (k0 ← Start New a; run k0 ops) = Some k
            /\ Forall (fun b => len (nodes b) <= size b) (buckets k).
Proof.
  destruct (Start_New_wf a) as (k0 & -> & Hwf & _). cbn.
  destruct (run_ok ops k0 Hwf) as (k & -> & (_ & _ & _ & Hb)).
  exists k. split; [done|]. eapply Forall_impl; [done|]. by intros b [_ ?].
Qed.

(** *** Removing nodes and the count *)

(** C10.  [RemoveNode] takes one off [count] for every node it is given,
    whether or not a node with that address is in the bucket: on a freshly
    started table the removal of a node that was never added leaves
    [Count() = -1] while no node is stored. *)
Theorem RemoveNode_always_decrements_count :
  (forall k node, wf_table k ->
     exists k' err, RemoveNode k node = Some (k', err)
       /\ Count k' = int_wrap (Count k - 1)
       /\ (int_min < Count k <= int_max -> Count k' = Count k - 1))
  /\ (exists k0 k' err, Start New self_addr = Some k0
        /\ RemoveNode k0 never_active = Some (k', err)
        /\ stored (buckets k') = 0 /\ Count k' = -1).
Proof.
  split.
  - intros k node Hwf.
    destruct (RemoveNode_ok k node Hwf) as (k' & err & HR & Hwf' & Hc).
    exists k', err. split; [done|]. split; [done|].
    intros Hmin. rewrite Hc. unfold Count in *.
    apply int_wrap_small. unfold int_min, int_max in *. lia.
  - eexists _, _, _. split; [reflexivity|]. split; [by vm_compute|].
    split; by vm_compute.
Qed.

Lemma RemoveNode_always_decrements_count_witness :
  exists k0 k' err,
    Start New self_addr = Some k0 /\ wf_table k0
    /\ RemoveNode k0 never_active = Some (k', err) /\ Count k' = -1.
Proof.
  destruct (Start_New_wf self_addr) as (k0 & HS & Hwf & _ & _ & _ & _ & Hc & _).
  destruct (proj1 RemoveNode_always_decrements_count k0 never_active Hwf)
    as (k' & err & HR & _ & Hdec).
  exists k0, k', err. split; [done|]. split; [done|]. split; [done|].
  rewrite Hdec; rewrite Hc; [done|]. by vm_compute.
Defined.

(** *** proxLimit *)

(** C1, on the table [spread_table]: one node added to each of the bins
    1..21 of a freshly started table with the default parameters.  The
    twenty-first [AddNode] takes the second case of [adjustProx] and moves
    [proxLimit] to 1 although bin 0 is empty; the 21 nodes of the bins from
    1 on exceed [MaxProxBinSize = 20], and moving [proxLimit] over the
    non-empty bin 1 would leave 20. *)
Theorem proxLimit_passes_empty_bin :
  let k := spread_result in
  spread_table = Some k
  /\ proxLimit k = 1
  /\ nodes <$> slice_at (buckets k) 0 = Some []
  /\ ~ low_bins_nonempty k
  /\ MaxProxBinSize k = 20
  /\ zone_size k (proxLimit k) = 21
  /\ bin_nonempty k 1 /\ zone_size k 2 = 20
  /\ ~ near_zone_fits_when_achievable k.
Proof.
  intros k.
  assert (Hbin : bin_nonempty k 1).
  { unfold bin_nonempty. eexists. split; [by vm_compute|done]. }
  split; [by vm_compute|].
  split; [by vm_compute|]. split; [by vm_compute|].
  split.
  { intros H. destruct (H 0) as (b & Hb & Hne); [by vm_compute|].
    vm_compute in Hb. injection Hb as <-. by apply Hne. }
  split; [by vm_compute|]. split; [by vm_compute|].
  split; [done|]. split; [by vm_compute|].
  intros H.
  assert (Hfit : zone_size k (proxLimit k) <= MaxProxBinSize k);
    [apply H|by vm_compute in Hfit].
  exists 2. split; [by vm_compute|].
  split; [|by vm_compute].
  intros i Hi. change (proxLimit k) with 1 in Hi.
  assert (i = 1) as -> by lia. done.
Qed.

(** *** Node records *)

Lemma GetNodeRecords_round_id k bs : forall i round nrs,
  GetNodeRecords_round k bs i round nrs = nrs.
Proof.
  induction bs as [|b bs IH]; intros i round nrs; cbn [GetNodeRecords_round]; [done|].
  rewrite IH. destruct (_ <? _); [|done].
  destruct (getNodeRecord _ _ _); [apply app_nil_r|done].
Qed.

Lemma GetNodeRecords_nil k max : GetNodeRecords k max = [].
Proof.
  unfold GetNodeRecords. generalize 0 at 1. generalize max at 2.
  induction (Z.to_nat max) as [|todo IH]; intros m round; cbn [GetNodeRecords_loop]; [done|].
  destruct (m >? 0); [|done].
  rewrite GetNodeRecords_round_id. apply IH.
Qed.

(** What a table would need for the two to differ: [record_table] has no
    live node, one known record in row 0 of [nodeDB] and
    [currentMaxBucketSize = 1], a value no statement of the package gives
    the field.  Round 0 finds [0 + 0 < 1] for bucket 0 and
    [getNodeRecord(0, 0)] is the record, but [nrs = append(nrs)] adds
    nothing. *)
Lemma GetNodeRecords_drops_the_records :
  GetNodeRecords record_table 1 = []
  /\ round_robin_records record_table 1 = [known_record]
  /\ (forall k max, GetNodeRecords k max = []).
Proof.
  split; [by vm_compute|]. split; [by vm_compute|]. apply GetNodeRecords_nil.
Qed.

(** *** What [AddNode] and [RemoveNode] write *)

Lemma adjustProx_frame k r add k' :
  adjustProx k r add = Some k' -> exists l s, k' = set_prox k l s.
Proof.
  unfold adjustProx. intros H.
  repeat match type of H with
         | (if ?c then _ else _) = _ => destruct c
         | (match ?o with Some _ => _ | None => _ end) = _ => destruct o as [?|]; cbn in H
         | (?o ≫= _) = _ => destruct o as [?|]; cbn in H
         | (let '(_, _) := ?p in _) = _ => destruct p; cbn in H
         end;
    try discriminate; injection H as <-;
    try (by eexists _, _); exists (proxLimit k), (proxSize k); by rewrite set_prox_id.
Qed.

Lemma AddNode_frame k node k' :
  AddNode k node = Some k' ->
  exists b b' l s,
    slice_at (buckets k) (proximityBin k (Addr node)) = Some b
    /\ insert b node = Some b'
    /\ k' = set_prox
              (set_count
                 (set_buckets k (<[Z.to_nat (proximityBin k (Addr node)) := b']> (buckets k)))
                 (int_wrap (count k + 1))) l s.
Proof.
  unfold AddNode.
  destruct (slice_at (buckets k) _) as [b|] eqn:Hb; [|done]. cbn.
  destruct (insert b node) as [b'|] eqn:Hi; [|done]. cbn.
  match goal with |- context [adjustProx ?k2 _ _] => set (k2' := k2) in * end.
  destruct (_ >=? _).
  - intros (l & s & ->)%adjustProx_frame. by exists b, b', l, s.
  - intros [= <-]. exists b, b', (proxLimit k2'), (proxSize k2').
    by rewrite set_prox_id.
Qed.

Lemma RemoveNode_frame k node k' err :
  RemoveNode k node = Some (k', err) ->
  exists b l s,
    slice_at (buckets k) (proximityBin k (Addr node)) = Some b
    /\ k' = set_prox
              (set_count
                 (set_buckets k
                    (<[Z.to_nat (proximityBin k (Addr node)) :=
                         mkBucket (size b)
                           (remove_loop (length (nodes b)) (Addr node) (nodes b) 0)]>
                       (buckets k)))
                 (int_wrap (count k - 1))) l s.
Proof.
  unfold RemoveNode.
  destruct (slice_at (buckets k) _) as [b|] eqn:Hb; [|done].
  cbn -[adjustProx remove_loop].
  match goal with |- context [adjustProx ?k2 _ _] => set (k2' := k2) in * end.
  destruct (_ =? 0).
  - destruct (adjustProx k2' _ _) as [k3|] eqn:Ha; [|done].
    apply adjustProx_frame in Ha as (l & s & ->).
    intros [= <- _]. by exists b, l, s.
  - intros [= <- _]. exists b, (proxLimit k2'), (proxSize k2').
    by rewrite set_prox_id.
Qed.







(** *** Eviction *)

(** C3, on the bucket [full_bucket]: size 2, holding a node whose
    [LastActive()] is the zero time and a node last active at second 5.
    [worstNode] takes the zero time of the first node for its own "not yet
    set" mark and returns index 1: [insert] overwrites the node that was
    active at second 5 and keeps the one with the minimum time.  So does
    [AddNode] on a table started with [BucketSize = 2]. *)
Theorem insert_spares_zero_time_node :
  Before (LastActive never_active) (LastActive active_at_5) = true
  /\ worstNode full_bucket = 1
  /\ insert full_bucket newcomer = Some (mkBucket 2 [never_active; newcomer])
  /\ (k ← small_table; slice_at (buckets k) 5)
     = Some (mkBucket 2 [never_active; newcomer]).
Proof.
  split; [by vm_compute|]. split; [by vm_compute|]. split; by vm_compute.
Qed.

(** *** Which node [worstNode] picks when no node reports the zero time *)

Lemma Before_true t u :
  Before t u = true <-> sec t < sec u \/ (sec t = sec u /\ nsec t < nsec u).
Proof.
  unfold Before. rewrite orb_true_iff, andb_true_iff.
  rewrite !Z.ltb_lt, Z.eqb_eq. tauto.
Qed.

Lemma Before_false t u :
  Before t u = false <-> sec u < sec t \/ (sec t = sec u /\ nsec u <= nsec t).
Proof.
  destruct (Before t u) eqn:E.
  - apply Before_true in E. split; [done|lia].
  - split; [|done]. intros _.
    assert (Hn : ~ (sec t < sec u \/ (sec t = sec u /\ nsec t < nsec u))).
    { intros H. apply Before_true in H. congruence. }
    lia.
Qed.

(** Turns the facts on [Before] at hand into linear arithmetic. *)
Ltac before_lia :=
  repeat match goal with
         | H : Before _ _ = true |- _ => apply Before_true in H
         | H : Before _ _ = false |- _ => apply Before_false in H
         end;
  first [apply Before_true | apply Before_false]; lia.

Lemma worstNode_loop_oldest ns : forall pre c idx,
  Forall reports_nonzero ns -> reports_nonzero c ->
  pre !! idx = Some c ->
  (forall x, x ∈ pre -> Before (LastActive x) (LastActive c) = false) ->
  (forall j x, (j < idx)%nat -> pre !! j = Some x ->
     Before (LastActive c) (LastActive x) = true) ->
  exists r w,
    worstNode_loop ns (len pre) (LastActive c) (Z.of_nat idx) = Z.of_nat r
    /\ (pre ++ ns) !! r = Some w
    /\ (forall x, x ∈ pre ++ ns -> Before (LastActive x) (LastActive w) = false)
    /\ (forall j x, (j < r)%nat -> (pre ++ ns) !! j = Some x ->
          Before (LastActive w) (LastActive x) = true).
Proof.
  induction ns as [|x rest IH]; intros pre c idx Hns Hc Hidx Hmin Hfirst.
  - exists idx, c. rewrite app_nil_r. by cbn.
  - apply Forall_cons in Hns as [Hx Hns].
    cbn [worstNode_loop]. unfold reports_nonzero in Hc. rewrite Hc. cbn [orb].
    assert (Hlen : len pre + 1 = len (pre ++ [x])).
    { unfold len. rewrite length_app. cbn. lia. }
    rewrite Hlen. rewrite (cons_middle x pre rest), app_assoc.
    destruct (Before (LastActive x) (LastActive c)) eqn:Hb.
    + replace (len pre) with (Z.of_nat (length pre)) by done.
      apply IH; try done.
      * by rewrite lookup_app_r, Nat.sub_diag by lia.
      * intros y [Hy|Hy]%elem_of_app.
        -- specialize (Hmin y Hy). before_lia.
        -- apply list_elem_of_singleton in Hy as ->. before_lia.
      * intros j y Hj Hy. rewrite lookup_app_l in Hy by done.
        assert (Hin : y ∈ pre) by (by eapply list_elem_of_lookup_2).
        specialize (Hmin y Hin). before_lia.
    + apply IH; try done.
      * by apply lookup_app_l_Some.
      * intros y [Hy|Hy]%elem_of_app; [by apply Hmin|].
        by apply list_elem_of_singleton in Hy as ->.
      * intros j y Hj Hy. apply (Hfirst j y Hj).
        apply lookup_lt_Some in Hidx.
        by rewrite lookup_app_l in Hy by lia.
Qed.

(** With no zero time among them, [worstNode] is the index of the first of
    the nodes that were active least recently. *)
Lemma worstNode_oldest b :
  nodes b <> [] -> Forall reports_nonzero (nodes b) ->
  exists r w,
    worstNode b = Z.of_nat r /\ nodes b !! r = Some w
    /\ (forall x, x ∈ nodes b -> Before (LastActive x) (LastActive w) = false)
    /\ (forall j x, (j < r)%nat -> nodes b !! j = Some x ->
          Before (LastActive w) (LastActive x) = true).
Proof.
  unfold worstNode. destruct (nodes b) as [|n rest]; [done|]. intros _ Hnz.
  apply Forall_cons in Hnz as [Hn Hrest].
  cbn [worstNode_loop]. change (time_eqb zero_time zero_time) with true. cbn [orb].
  apply (worstNode_loop_oldest rest [n] n 0%nat); try done.
  - intros x ->%list_elem_of_singleton. before_lia.
  - intros j x Hj. lia.
Qed.

(** *** Well-formed addresses stay in the table *)

Lemma remove_loop_Forall (P : Node -> Prop) todo a : forall ns i,
  Forall P ns -> Forall P (remove_loop todo a ns i).
Proof.
  induction todo as [|todo IH]; intros ns i Hns; cbn; [done|].
  destruct (ns !! i); [|done].
  destruct (bool_decide _); apply IH; [|done].
  apply Forall_app_2; [by apply Forall_take|by apply Forall_drop].
Qed.

Lemma insert_Forall (P : Node -> Prop) b b' node :
  Forall P (nodes b) -> P node -> insert b node = Some b' -> Forall P (nodes b').
Proof.
  intros Hb Hn. unfold insert.
  destruct (_ >=? _).
  - destruct (_ && _); [|done]. intros [= <-]. cbn. by apply Forall_insert.
  - intros [= <-]. cbn. apply Forall_app_2; [done|by constructor].
Qed.

Lemma AddNode_nodes_wf k node k' :
  wf_table k -> nodes_wf k -> wf_node node ->
  AddNode k node = Some k' -> nodes_wf k'.
Proof.
  intros Hwf Hn Hnode. unfold AddNode.
  destruct (slice_at (buckets k) _) as [b|] eqn:Hb; [|done]. cbn.
  destruct (insert b node) as [b'|] eqn:Hi; [|done]. cbn.
  assert (Hb' : Forall wf_node (nodes b')).
  { eapply insert_Forall; [|done|done].
    apply slice_at_Some in Hb as [_ Hb].
    unfold nodes_wf in Hn. rewrite Forall_lookup in Hn. by eapply Hn. }
  assert (Hwb : wf_bucket b').
  { assert (wf_bucket b) as Hw.
    { destruct Hwf as (_ & _ & _ & Hbs). apply slice_at_Some in Hb as [_ Hb].
      rewrite Forall_lookup in Hbs. by eapply Hbs. }
    destruct (insert_wf b node Hw) as (b2 & Hi2 & Hw2 & _). congruence. }
  pose proof (wf_table_set_count _ (int_wrap (count k + 1))
                (wf_table_set_bucket k _ b b' Hwf Hb Hwb)) as Hwf2.
  match goal with |- context [adjustProx ?k2 _ _] => set (k2' := k2) in * end.
  assert (Hn2 : nodes_wf k2') by (by apply Forall_insert).
  destruct (_ >=? _); [|by intros [= <-]].
  pose proof (proximityBin_range k (Addr node) (proj1 (proj1 Hwf))) as Hidx.
  destruct (adjustProx_ok k2' (proximityBin k (Addr node)) 1 Hwf2)
    as (l & s & -> & _); [done|by left|].
  by intros [= <-].
Qed.

Lemma RemoveNode_nodes_wf k node k' err :
  wf_table k -> nodes_wf k ->
  RemoveNode k node = Some (k', err) -> nodes_wf k'.
Proof.
  intros Hwf Hn. unfold RemoveNode.
  destruct (slice_at (buckets k) _) as [b|] eqn:Hb; [|done].
  cbn -[adjustProx remove_loop].
  set (ns := remove_loop (length (nodes b)) (Addr node) (nodes b) 0).
  assert (Hb0 : Forall wf_node (nodes b)).
  { apply slice_at_Some in Hb as [_ Hb].
    unfold nodes_wf in Hn. rewrite Forall_lookup in Hn. by eapply Hn. }
  assert (Hns : Forall wf_node ns) by (by apply remove_loop_Forall).
  assert (Hwb : wf_bucket (mkBucket (size b) ns)).
  { assert (wf_bucket b) as [H1 H2].
    { destruct Hwf as (_ & _ & _ & Hbs). apply slice_at_Some in Hb as [_ Hb].
      rewrite Forall_lookup in Hbs. by eapply Hbs. }
    split; [done|]. cbn.
    pose proof (remove_loop_length (length (nodes b)) (Addr node) (nodes b) 0) as Hl.
    unfold len in *. fold ns in Hl. lia. }
  pose proof (wf_table_set_count _ (int_wrap (count k - 1))
                (wf_table_set_bucket k _ b _ Hwf Hb Hwb)) as Hwf2.
  match goal with |- context [adjustProx ?k2 _ _] => set (k2' := k2) in * end.
  assert (Hn2 : nodes_wf k2') by (by apply Forall_insert).
  destruct (len ns =? 0); [|by intros [= <- _]].
  pose proof (proximityBin_range k (Addr node) (proj1 (proj1 Hwf))) as Hidx.
  destruct (adjustProx_ok k2' (proximityBin k (Addr node)) (-1) Hwf2)
    as (l & s & -> & _); [done|by right|].
  by intros [= <- _].
Qed.

(** Every table built from a started one by adding and removing nodes with
    32-byte addresses meets what [GetNodes] is proved under. *)
Lemma run_nodes_wf ops : forall k,
  wf_table k -> nodes_wf k -> Forall (fun o => wf_node (op_node o)) ops ->
  exists k', run k ops = Some k' /\ wf_table k' /\ nodes_wf k'.
Proof.
  induction ops as [|o ops IH]; intros k Hwf Hn Hops; cbn [run]; [by eexists|].
  apply Forall_cons in Hops as [Ho Hops].
  destruct o as [n|n]; cbn [apply_op op_node] in *.
  - destruct (AddNode_ok k n Hwf) as (k' & Hk' & Hwf' & _). rewrite Hk'. cbn.
    apply IH; [done| |done]. exact (AddNode_nodes_wf k n k' Hwf Hn Ho Hk').
  - destruct (RemoveNode_ok k n Hwf) as (k' & err & Hk' & Hwf' & _). rewrite Hk'. cbn.
    apply IH; [done| |done]. exact (RemoveNode_nodes_wf k n k' err Hwf Hn Hk').
Qed.

(** *** The iteration bounds of the loops are never reached early

    Each loop of the table is a [Fixpoint] on a number of rounds that is
    taken from the distance the loop has to cover.  One more round changes
    nothing: when the rounds are used up, the loop's own condition has
    become false. *)

Lemma remove_loop_bound a todo : forall ns i,
  (length ns - i <= todo)%nat ->
  remove_loop (S todo) a ns i = remove_loop todo a ns i.
Proof.
  induction todo as [|todo IH]; intros ns i Hle.
  - cbn. rewrite (lookup_ge_None_2 ns i) by lia. done.
  - change (remove_loop (S (S todo)) a ns i)
      with (match ns !! i with
            | None => ns
            | Some x =>
                if bool_decide (a = Addr x)
                then remove_loop (S todo) a (take i ns ++ drop (S i) ns) (S i)
                else remove_loop (S todo) a ns (S i)
            end).
    cbn [remove_loop].
    destruct (ns !! i) as [x|] eqn:Hx; [|done].
    apply lookup_lt_Some in Hx.
    destruct (bool_decide _); apply IH; [|lia].
    rewrite length_app, length_take, length_drop. lia.
Qed.

Lemma advance_loop_bound bs maxprox todo : forall limit sz,
  maxprox <= int_max -> int_min <= limit ->
  maxprox - limit <= Z.of_nat todo ->
  advance_loop (S todo) bs maxprox limit sz = advance_loop todo bs maxprox limit sz.
Proof.
  induction todo as [|todo IH]; intros limit sz Hmax Hmin Hle.
  - cbn. destruct (Z.ltb_spec limit maxprox); [lia|done].
  - change (advance_loop (S (S todo)) bs maxprox limit sz)
      with (if limit <? maxprox then
              b ← slice_at bs limit;
              if len (nodes b) >? 0
              then advance_loop (S todo) bs maxprox
                     (int_wrap (limit + 1)) (int_wrap (sz - len (nodes b)))
              else Some (limit, sz)
            else Some (limit, sz)).
    cbn [advance_loop].
    destruct (Z.ltb_spec limit maxprox); [|done].
    destruct (slice_at bs limit) as [b|]; [|done]. cbn.
    destruct (len (nodes b) >? 0); [|done].
    rewrite (int_wrap_small (limit + 1)) by lia.
    apply IH; lia.
Qed.

Lemma rollback_loop_bound bs r todo : forall i sz,
  int_min <= r -> i <= int_max ->
  i - r <= Z.of_nat todo ->
  rollback_loop (S todo) bs r i sz = rollback_loop todo bs r i sz.
Proof.
  induction todo as [|todo IH]; intros i sz Hmin Hmax Hle.
  - cbn. destruct (Z.gtb_spec i r); [lia|done].
  - change (rollback_loop (S (S todo)) bs r i sz)
      with (if i >? r then
              b ← slice_at bs i;
              rollback_loop (S todo) bs r (int_wrap (i - 1))
                (int_wrap (sz + len (nodes b)))
            else Some sz).
    cbn [rollback_loop].
    destruct (Z.gtb_spec i r); [|done].
    destruct (slice_at bs i) as [b|]; [|done]. cbn.
    rewrite (int_wrap_small (i - 1)) by lia.
    apply IH; lia.
Qed.

Lemma GetNodeRecords_loop_bound k todo : forall max round nrs,
  max <= int_max -> max <= Z.of_nat todo ->
  GetNodeRecords_loop (S todo) k max round nrs = GetNodeRecords_loop todo k max round nrs.
Proof.
  induction todo as [|todo IH]; intros max round nrs Hmax Hle.
  - cbn. destruct (Z.gtb_spec max 0); [lia|done].
  - change (GetNodeRecords_loop (S (S todo)) k max round nrs)
      with (if max >? 0 then
              GetNodeRecords_loop (S todo) k (int_wrap (max - 1)) (int_wrap (round + 1))
                (GetNodeRecords_round k (buckets k) 0 round nrs)
            else nrs).
    cbn [GetNodeRecords_loop].
    destruct (Z.gtb_spec max 0); [|done].
    assert (Hw : int_wrap (max - 1) = max - 1).
    { apply int_wrap_small. unfold int_min, int_max in *. lia. }
    rewrite Hw. apply IH; lia.
Qed.

Lemma Search_loop_bound f todo : forall i j,
  j - i <= Z.of_nat todo ->
  Search_loop (S todo) f i j = Search_loop todo f i j.
Proof.
  induction todo as [|todo IH]; intros i j Hle.
  - cbn. destruct (Z.ltb_spec i j); [lia|done].
  - change (Search_loop (S (S todo)) f i j)
      with (if i <? j then
              let h := i + (j - i) / 2 in
              if negb (f h) then Search_loop (S todo) f (h + 1) j
              else Search_loop (S todo) f i h
            else i).
    cbn [Search_loop].
    destruct (Z.ltb_spec i j) as [Hlt|]; [|done]. cbn zeta.
    assert (Hh : i <= i + (j - i) / 2 < j) by (Z.div_mod_to_equations; lia).
    destruct (negb (f _)); apply IH; lia.
Qed.

End TableFacts.

Module LookupFacts.
Import Kad Table.

(** *** Binary search *)

Section Search.

Variable f : Z -> bool.
Variable n : Z.
Hypothesis f_mono :
  forall x y, 0 <= x -> x <= y -> y < n -> f x = true -> f y = true.

Lemma Search_loop_spec todo : forall i j,
  0 <= i -> i <= j -> j <= n -> j - i <= Z.of_nat todo ->
  (forall x, 0 <= x < i -> f x = false) ->
  (forall x, j <= x < n -> f x = true) ->
  i <= Search_loop todo f i j <= j
  /\ (forall x, 0 <= x < Search_loop todo f i j -> f x = false)
  /\ (forall x, Search_loop todo f i j <= x < n -> f x = true).
Proof using f_mono.
  induction todo as [|todo IH]; intros i j Hi Hij Hj Hfuel Hlo Hhi; cbn [Search_loop].
  - assert (i = j) as -> by lia. split; [lia|]. split; [done|done].
  - destruct (Z.ltb_spec i j) as [Hlt|Hge].
    + set (h := i + (j - i) / 2).
      assert (Hh : i <= h < j /\ h - i <= Z.of_nat todo)
        by (unfold h; Z.div_mod_to_equations; lia).
      clearbody h.
      destruct (f h) eqn:Hfh; cbn [negb].
      * destruct (IH i h) as (H1 & H2 & H3); try lia; try done.
        { intros x Hx. apply (f_mono h x); lia || done. }
        split; [lia|]. done.
      * destruct (IH (h + 1) j) as (H1 & H2 & H3); try lia; try done.
        { intros x Hx. destruct (f x) eqn:Hfx; [|done].
          rewrite (f_mono x h) in Hfh; done || lia. }
        split; [lia|]. done.
    + assert (i = j) as -> by lia. split; [lia|]. split; [done|done].
Qed.

(** [sort.Search] returns the first index at which a monotone [f] holds. *)
Lemma Search_spec :
  0 <= n ->
  0 <= Search n f <= n
  /\ (forall x, 0 <= x < Search n f -> f x = false)
  /\ (forall x, Search n f <= x < n -> f x = true).
Proof using f_mono.
  intros Hn. unfold Search.
  apply Search_loop_spec; try lia.
Qed.

End Search.

(** *** Moving a slice one place up *)

Lemma shift_insert {A} (l : list A) (ix : nat) (x : A) :
  (ix < length l)%nat ->
  <[ix := x]> (list_inserts (S ix) (drop ix l) l)
  = take (length l) (take ix l ++ x :: drop ix l).
Proof.
  intros Hix. apply list_eq. intros i.
  destruct (decide (i < length l)%nat) as [Hi|Hi].
  - rewrite lookup_take_lt by done.
    destruct (decide (i < ix)%nat) as [Hlt|Hge].
    + rewrite list_lookup_insert_ne by lia.
      rewrite list_lookup_inserts_lt by lia.
      rewrite lookup_app_l by (rewrite length_take; lia).
      by rewrite lookup_take_lt.
    + rewrite lookup_app_r by (rewrite length_take; lia).
      rewrite length_take, Nat.min_l by lia.
      destruct (decide (i = ix)) as [->|Hne].
      * rewrite list_lookup_insert_eq by (rewrite length_inserts; lia).
        by rewrite Nat.sub_diag.
      * rewrite list_lookup_insert_ne by lia.
        rewrite list_lookup_inserts by (rewrite ?length_drop; lia).
        replace (i - ix)%nat with (S (i - S ix)) by lia. done.
  - rewrite lookup_take_ge by lia.
    apply lookup_ge_None. rewrite length_insert, length_inserts. lia.
Qed.

(** *** [push] keeps the list ordered *)

Section Push.

Variable target : Address.
Hypothesis target_wf : wf_address target.

Lemma proxCmp_key x y :
  wf_node x -> wf_node y ->
  proxCmp target (Addr x) (Addr y) =
    match node_distance target x ?= node_distance target y with
    | Lt => -1 | Eq => 0 | Gt => 1
    end.
Proof using target_wf.
  intros [Lx Bx] [Ly By]. destruct target_wf as [Lt Bt].
  unfold node_distance, distance.
  apply KadMetric.proxCmp_compare; done || congruence.
Qed.

Lemma dist_le_key x y :
  wf_node x -> wf_node y ->
  dist_le target x y <-> node_distance target x <= node_distance target y.
Proof using target_wf.
  intros Hx Hy. unfold dist_le. rewrite proxCmp_key by done.
  destruct (Z.compare_spec (node_distance target x) (node_distance target y)); lia.
Qed.

Lemma StronglySorted_lookup {A} (R : relation A) l i j x y :
  StronglySorted R l -> (i < j)%nat -> l !! i = Some x -> l !! j = Some y -> R x y.
Proof.
  intros Hs. revert i j. induction Hs as [|a l Hs IH Ha]; intros i j Hij Hi Hj; [done|].
  destruct j as [|j]; [lia|]. cbn in Hj.
  destruct i as [|i]; cbn in Hi.
  - injection Hi as ->. rewrite Forall_lookup in Ha. by eapply Ha.
  - eapply (IH i j); done || lia.
Qed.

Lemma push_pred_mono ns node :
  Forall wf_node ns -> wf_node node -> StronglySorted (dist_le target) ns ->
  forall x y, 0 <= x -> x <= y -> y < len ns ->
    push_pred target ns node x = true -> push_pred target ns node y = true.
Proof using target_wf.
  intros Hwf Hn Hs x y Hx Hxy Hy. unfold push_pred, len in *.
  destruct (ns !! Z.to_nat x) as [a|] eqn:Ha; [|done].
  destruct (lookup_lt_is_Some_2 ns (Z.to_nat y)) as [b Hb]; [lia|].
  rewrite Hb.
  pose proof (Forall_lookup_1 _ _ _ _ Hwf Ha) as Hwa.
  pose proof (Forall_lookup_1 _ _ _ _ Hwf Hb) as Hwb.
  destruct (decide (x = y)) as [->|Hne]; [by simplify_eq|].
  assert (Hab : dist_le target a b).
  { eapply (StronglySorted_lookup _ ns (Z.to_nat x) (Z.to_nat y)); done || lia. }
  apply dist_le_key in Hab; [|done|done].
  rewrite !proxCmp_key by done.
  destruct (Z.compare_spec (node_distance target a) (node_distance target node));
    destruct (Z.compare_spec (node_distance target b) (node_distance target node));
    done || lia.
Qed.

(** Where [push] puts the node: after the nodes that are strictly closer
    to the target, before all others. *)
Lemma push_spec h node lim :
  nbd_target h = target ->
  Forall wf_node (nbd_nodes h) -> wf_node node ->
  StronglySorted (dist_le target) (nbd_nodes h) ->
  exists ix : nat,
    (ix <= length (nbd_nodes h))%nat
    /\ Forall (fun x => proxCmp target (Addr x) (Addr node) < 0) (take ix (nbd_nodes h))
    /\ Forall (fun x => proxCmp target (Addr x) (Addr node) >= 0) (drop ix (nbd_nodes h))
    /\ nbd_nodes (push h node lim) =
         take (if len (nbd_nodes h) <? lim then S (length (nbd_nodes h))
               else length (nbd_nodes h))
           (take ix (nbd_nodes h) ++ node :: drop ix (nbd_nodes h))
    /\ nbd_target (push h node lim) = target.
Proof using target_wf.
  destruct h as [ns t]. cbn [nbd_nodes nbd_target].
  intros -> Hwf Hn Hs.
  pose proof (Search_spec (push_pred target ns node) (len ns)
                (push_pred_mono ns node Hwf Hn Hs)) as Hsearch.
  destruct Hsearch as (Hr & Hlo & Hhi); [unfold len; lia|].
  unfold push. cbn [nbd_nodes nbd_target].
  set (ixz := Search (len ns) (push_pred target ns node)) in *.
  clearbody ixz.
  exists (Z.to_nat ixz). unfold len in *.
  split; [lia|]. split; [|split; [|split; [|done]]].
  - apply Forall_lookup_2. intros i x Hx.
    apply lookup_take_Some in Hx as [Hx Hi].
    specialize (Hlo (Z.of_nat i)). unfold push_pred in Hlo.
    rewrite Nat2Z.id, Hx in Hlo.
    rewrite Z.geb_leb in Hlo. apply Z.leb_gt in Hlo; lia.
  - apply Forall_lookup_2. intros i x Hx.
    rewrite lookup_drop in Hx. pose proof (lookup_lt_Some _ _ _ Hx).
    specialize (Hhi (Z.of_nat (Z.to_nat ixz + i))). unfold push_pred in Hhi.
    rewrite Nat2Z.id, Hx in Hhi.
    rewrite Z.geb_leb in Hhi. apply Z.leb_le in Hhi; lia.
  - destruct (Z.ltb_spec (Z.of_nat (length ns)) lim) as [Hlt|Hge].
    + rewrite length_app. cbn [length].
      destruct (Z.ltb_spec ixz (Z.of_nat (length ns + 1))); [|lia].
      rewrite shift_insert by (rewrite length_app; cbn; lia).
      rewrite length_app. cbn [length].
      rewrite (take_app_le ns [node]), (drop_app_le ns [node]) by lia.
      replace (length ns + 1)%nat with (S (length ns)) by lia.
      change (node :: drop (Z.to_nat ixz) ns ++ [node])
        with ((node :: drop (Z.to_nat ixz) ns) ++ [node]).
      rewrite app_assoc.
      assert (Hl : length (take (Z.to_nat ixz) ns ++ node :: drop (Z.to_nat ixz) ns)
                   = S (length ns)).
      { rewrite length_app, length_take. cbn [length]. rewrite length_drop. lia. }
      rewrite take_app_length' by done.
      rewrite <- Hl. by rewrite firstn_all.
    + destruct (Z.ltb_spec ixz (Z.of_nat (length ns))) as [Hix|Hix].
      * by rewrite shift_insert by lia.
      * replace (Z.to_nat ixz) with (length ns) by lia.
        rewrite firstn_all, drop_all. by rewrite take_app_length.
Qed.

Lemma push_sorted h node lim :
  nbd_target h = target ->
  Forall wf_node (nbd_nodes h) -> wf_node node ->
  StronglySorted (dist_le target) (nbd_nodes h) ->
  StronglySorted (dist_le target) (nbd_nodes (push h node lim))
  /\ Forall wf_node (nbd_nodes (push h node lim))
  /\ nbd_target (push h node lim) = target
  /\ (0 <= lim -> len (nbd_nodes h) <= lim -> len (nbd_nodes (push h node lim)) <= lim).
Proof using target_wf.
  intros Ht Hwf Hn Hs.
  destruct (push_spec h node lim Ht Hwf Hn Hs) as (ix & Hix & Hlt & Hge & -> & Htg).
  set (ns := nbd_nodes h) in *.
  assert (Hwf' : Forall wf_node (take ix ns ++ node :: drop ix ns)).
  { apply Forall_app_2; [by apply Forall_take|].
    constructor; [done|by apply Forall_drop]. }
  assert (Hs' : StronglySorted (dist_le target) (take ix ns ++ node :: drop ix ns)).
  { rewrite <- (take_drop ix ns) in Hs.
    apply StronglySorted_app in Hs as (Hcross & Hs1 & Hs2).
    apply StronglySorted_app_2; [|done|].
    - intros x1 x2 H1 H2.
      pose proof (proj1 (Forall_forall _ _) Hlt x1 H1) as Hx1. cbn in Hx1.
      assert (Hw1 : wf_node x1).
      { eapply (proj1 (Forall_forall _ _)); [apply Forall_take, Hwf|done]. }
      apply elem_of_cons in H2 as [->|H2]; [unfold dist_le; lia|].
      pose proof (proj1 (Forall_forall _ _) Hge x2 H2) as Hx2. cbn in Hx2.
      assert (Hw2 : wf_node x2).
      { eapply (proj1 (Forall_forall _ _)); [apply Forall_drop, Hwf|done]. }
      apply dist_le_key; [done|done|].
      rewrite proxCmp_key in Hx1, Hx2 by done.
      destruct (Z.compare_spec (node_distance target x1) (node_distance target node));
        destruct (Z.compare_spec (node_distance target x2) (node_distance target node));
        lia.
    - constructor; [done|].
      apply Forall_forall. intros x2 H2.
      pose proof (proj1 (Forall_forall _ _) Hge x2 H2) as Hx2. cbn in Hx2.
      assert (Hw2 : wf_node x2).
      { eapply (proj1 (Forall_forall _ _)); [apply Forall_drop, Hwf|done]. }
      apply dist_le_key; [done|done|].
      rewrite proxCmp_key in Hx2 by done.
      destruct (Z.compare_spec (node_distance target x2) (node_distance target node)); lia. }
  split; [|split; [by apply Forall_take|split; [done|]]].
  - rewrite <- (take_drop (if len ns <? lim then S (length ns) else length ns)
                  (take ix ns ++ node :: drop ix ns)) in Hs'.
    by apply StronglySorted_app_1_l in Hs'.
  - intros Hlim Hlen. unfold len in *. rewrite length_take.
    destruct (Z.ltb_spec (Z.of_nat (length ns)) lim); lia.
Qed.

End Push.

(** *** The loop of [getNodes] *)

Section GetNodes.

Variable k : Kademlia.
Variable target : Address.
Variables max limit index : Z.
Hypothesis k_wf : wf_table k.
Hypothesis k_nodes : nodes_wf k.
Hypothesis target_wf : wf_address target.
Hypothesis max_nonneg : 0 <= max.
Hypothesis limit_nonneg : 0 <= limit.
Hypothesis index_range : 0 <= index <= MaxProx k.

Lemma push_bucket_collected bkt : forall r n,
  Forall wf_node bkt -> collected target limit r ->
  collected target limit (push_bucket bkt limit r n).1.
Proof using target_wf limit_nonneg.
  induction bkt as [|node bkt IH]; intros r n Hb Hr; cbn [push_bucket]; [done|].
  apply Forall_cons in Hb as [Hn Hb].
  destruct Hr as (Ht & Hwf & Hs & Hl).
  destruct (push_sorted target target_wf r node limit Ht Hwf Hn Hs)
    as (Hs' & Hwf' & Ht' & Hl').
  apply IH; [done|]. split; [done|]. split; [done|]. split; [done|]. by apply Hl'.
Qed.

Lemma getNodes_break_at_0 n1 :
  getNodes_break k max limit index 0 true n1 = true.
Proof using max_nonneg index_range.
  unfold getNodes_break.
  replace (0 <=? index) with true by (symmetry; apply Z.leb_le; lia).
  change (0 =? 0) with true. rewrite !orb_true_r, !andb_true_r.
  destruct (Z.eqb_spec max 0) as [->|Hne]; [done|].
  destruct (Z.gtb_spec max 0); [done|lia].
Qed.

Lemma getNodes_loop_returns fuel : forall start down n r,
  0 <= start <= MaxProx k ->
  rounds_left k index start down <= Z.of_nat fuel ->
  collected target limit r ->
  exists r', getNodes_loop fuel k max limit index start down n r = Returns r'
             /\ collected target limit r'.
Proof using All.
  pose proof k_wf as (HM & Hlen & HP & Hbs).
  assert (Hw : forall z, 0 <= z <= MaxProx k -> int_wrap z = z).
  { intros z Hz. apply int_wrap_small. unfold int_min, int_max in *. lia. }
  induction fuel as [|fuel IH]; intros start down n r Hstart Hfuel Hr.
  { unfold rounds_left in Hfuel. destruct down; lia. }
  cbn [getNodes_loop].
  destruct (TableFacts.slice_at_is_Some (buckets k) start) as [b Hb]; [lia|].
  rewrite Hb.
  assert (Hbw : Forall wf_node (nodes b)).
  { apply TableFacts.slice_at_Some in Hb as [_ Hb].
    unfold nodes_wf in k_nodes. rewrite Forall_lookup in k_nodes. by eapply k_nodes. }
  pose proof (push_bucket_collected (nodes b) r n Hbw Hr) as Hr1.
  destruct (push_bucket (nodes b) limit r n) as [r1 n1]. cbn [fst] in Hr1.
  destruct (getNodes_break k max limit index start down n1) eqn:Hbrk; [by eexists|].
  unfold rounds_left in *.
  destruct down.
  - assert (start <> 0).
    { intros ->. by rewrite getNodes_break_at_0 in Hbrk. }
    rewrite Hw by lia. apply IH; [lia|lia|done].
  - destruct (Z.eqb_spec start (MaxProx k)) as [Heq|Hne].
    + destruct (Z.eqb_spec index 0); [by eexists|].
      rewrite Hw by lia. apply IH; [lia|lia|done].
    + rewrite Hw by lia. apply IH; [lia|lia|done].
Qed.

End GetNodes.

(** [getNodes] returns, whatever the table holds. *)
Lemma getNodes_returns k target max :
  wf_table k -> nodes_wf k -> wf_address target -> 0 <= max ->
  exists r, getNodes k target max = Returns r
            /\ collected target (if max =? 0 then 1000 else max) r.
Proof.
  intros Hwf Hn Ht Hmax. pose proof Hwf as (HM & Hlen & HP & Hbs).
  unfold getNodes.
  pose proof (TableFacts.proximityBin_range k target (proj1 HM)) as Hbin.
  assert (Hlim : 0 <= (if max =? 0 then 1000 else max)).
  { destruct (max =? 0); lia. }
  assert (Hfuel : 2 * MaxProx k + 3 = Z.of_nat (getNodes_fuel k)).
  { unfold getNodes_fuel. lia. }
  assert (Hc0 : collected target (if max =? 0 then 1000 else max)
                  (mkNodesByDistance [] target)).
  { split; [done|]. split; [constructor|]. split; [constructor|]. unfold len. cbn. lia. }
  destruct (Z.geb_spec (proximityBin k target) (proxLimit k)) as [Hge|Hlt].
  - apply (getNodes_loop_returns k target max _ (proxLimit k)); try done; try lia.
    unfold rounds_left. lia.
  - apply (getNodes_loop_returns k target max _ (proximityBin k target)); try done; try lia.
    unfold rounds_left. lia.
Qed.

(** *** The source's own test of the order *)

Lemma sortedByDistanceTo_loop_sorted target l : forall i prev,
  wf_address target -> wf_node prev -> Forall wf_node l ->
  StronglySorted (dist_le target) l ->
  (0 < i -> Forall (dist_le target prev) l) -> 0 <= i ->
  sortedByDistanceTo_loop target l i (Addr prev) = true.
Proof.
  induction l as [|x l IH]; intros i prev Ht Hp Hwf Hs Hprev Hi; cbn [sortedByDistanceTo_loop]; [done|].
  apply Forall_cons in Hwf as [Hx Hwf].
  apply StronglySorted_cons in Hs as [Hxl Hs].
  assert (Hchk : (i >? 0) && (proxCmp target (Addr x) (Addr prev) <? 0) = false).
  { destruct (Z.gtb_spec i 0) as [Hpos|]; [|done]. cbn [andb].
    apply Z.ltb_ge.
    specialize (Hprev Hpos). apply Forall_cons in Hprev as [Hpx _].
    apply (dist_le_key target Ht) in Hpx; [|done|done].
    rewrite (proxCmp_key target Ht) by done.
    destruct (Z.compare_spec (node_distance target x) (node_distance target prev)); lia. }
  rewrite Hchk. apply IH; try done. lia.
Qed.

Lemma sortedByDistanceTo_sorted target l :
  wf_address target -> Forall wf_node l -> StronglySorted (dist_le target) l ->
  sortedByDistanceTo target l = true.
Proof.
  intros Ht Hwf Hs. unfold sortedByDistanceTo.
  apply (sortedByDistanceTo_loop_sorted target l 0
           (mkNode (replicate HashLength 0) EmptyString zero_time));
    try done; try lia.
  split; [done|]. apply Forall_replicate. by vm_compute.
Qed.

(** *** GetNodes *)

(** C4, as the code has it.  For every target and every [max > 0],
    [GetNodes(target, max)] returns, and what it returns holds at most
    [max] nodes in order of non-decreasing XOR distance to the target (no
    node is farther than a later one by [proxCmp]; the source's own
    [sortedByDistanceTo] accepts it).  [push] puts a node behind the nodes
    that are strictly closer and in front of all others: of nodes at the
    same distance the one pushed last comes first. *)
Theorem GetNodes_sorted_within_max k target max :
  wf_table k -> nodes_wf k -> wf_address target -> 0 < max ->
  (exists res, GetNodes k target max = Returns res
     /\ len res <= max
     /\ StronglySorted (dist_le target) res
     /\ sortedByDistanceTo target res = true)
  /\ (forall h node,
        nbd_target h = target -> Forall wf_node (nbd_nodes h) -> wf_node node ->
        StronglySorted (dist_le target) (nbd_nodes h) ->
        exists closer others,
          nbd_nodes h = closer ++ others
          /\ Forall (fun x => proxCmp target (Addr x) (Addr node) < 0) closer
          /\ Forall (fun x => proxCmp target (Addr x) (Addr node) >= 0) others
          /\ nbd_nodes (push h node max) =
               take (if len (nbd_nodes h) <? max then S (length (nbd_nodes h))
                     else length (nbd_nodes h))
                 (closer ++ node :: others)).
Proof.
  intros Hwf Hn Ht Hmax. split.
  - destruct (getNodes_returns k target max Hwf Hn Ht) as (r & Hr & Hc); [lia|].
    destruct (Z.eqb_spec max 0); [lia|].
    destruct Hc as (_ & Hw & Hs & Hl).
    unfold GetNodes. rewrite Hr. exists (nbd_nodes r).
    split; [done|]. split; [done|]. split; [done|].
    by apply sortedByDistanceTo_sorted.
  - intros h node Hh Hw Hnode Hs.
    destruct (push_spec target Ht h node max Hh Hw Hnode Hs)
      as (ix & Hix & Hlt & Hge & Heq & _).
    exists (take ix (nbd_nodes h)), (drop ix (nbd_nodes h)).
    by rewrite take_drop.
Qed.

Lemma GetNodes_sorted_within_max_witness :
  exists res, GetNodes twin_result (Addr twin_first) 2 = Returns res
    /\ len res <= 2
    /\ sortedByDistanceTo (Addr twin_first) res = true.
Proof.
  assert (Hwf : wf_table twin_result) by (apply (bool_decide_unpack _); by vm_compute).
  assert (Hn : nodes_wf twin_result) by (apply (bool_decide_unpack _); by vm_compute).
  assert (Ht : wf_address (Addr twin_first)) by (apply (bool_decide_unpack _); by vm_compute).
  assert (Hmax : 0 < 2) by lia.
  destruct (proj1 (GetNodes_sorted_within_max twin_result (Addr twin_first) 2
                     Hwf Hn Ht Hmax)) as (res & Hres & Hlen & _ & Hsorted).
  exists res. split; [exact Hres|]. split; [exact Hlen|exact Hsorted].
Defined.

(** C4 as it is stated fails on ties: [twin_first] was added before
    [twin_second] and stands before it in bucket 3; both have the same
    address; [GetNodes] returns [twin_second] first. *)
Lemma GetNodes_ties_against_insertion_order :
  twin_table = Some twin_result
  /\ nodes <$> slice_at (buckets twin_result) 3 = Some [twin_first; twin_second]
  /\ GetNodes twin_result (Addr twin_first) 2 = Returns [twin_second; twin_first]
  /\ ~ ties_by_insertion_order twin_result (Addr twin_first)
         [twin_second; twin_first].
Proof.
  split; [by vm_compute|]. split; [by vm_compute|]. split; [by vm_compute|].
  intros H.
  assert (Hb : mkBucket 20 [twin_first; twin_second] ∈ buckets twin_result).
  { apply (list_elem_of_lookup_2 _ 3%nat). by vm_compute. }
  specialize (H _ 0%nat 1%nat 1%nat 0%nat twin_first twin_second Hb).
  assert (Hlt : (1 < 0)%nat); [|lia].
  apply H.
  - reflexivity.
  - reflexivity.
  - lia.
  - intros [=].
  - by vm_compute.
  - reflexivity.
  - reflexivity.
Qed.

End LookupFacts.

Module BzzFacts.
Import Bzz.

(** Takes apart the conditions of acceptance found among the hypotheses. *)
Ltac use_accept :=
  match goal with
  | H : _ /\ _ /\ (exists _, _) |- _ =>
      destruct H as (_ & _ & ? & ? & ? & ?); simplify_eq; try done; try lia
  end.

(** *** The handshake *)

(** A failing transport ends the handshake without a registration. *)
Lemma handleStatus_transport_error env w :
  (forall e rest, sends w = Some e :: rest ->
     exists w', handleStatus env w = Some (Some e, w')
                /\ trace w' = trace w ++ [EvSend statusMsg (handshake env)])
  /\ (forall e rest, hd None (sends w) = None -> reads w = inr e :: rest ->
        exists w', handleStatus env w = Some (Some e, w')
                   /\ trace w' = trace w ++ [EvSend statusMsg (handshake env)]).
Proof.
  split.
  - intros e rest Hs. unfold handleStatus, bind, Send, Send_outcome.
    rewrite Hs. cbn. by eexists.
  - intros e rest Hs Hr. unfold handleStatus, bind, Send, Send_outcome, ReadMsg.
    destruct (sends w) as [|r srest] eqn:Es; cbn in Hs; subst; cbn; rewrite Hr; cbn;
      by eexists.
Qed.

(** C7.  When the handshake has gone out and a first message has come in,
    [handleStatus] returns nil and registers the peer with the hive exactly
    when that message is a status message of at most 10 MiB that decodes to
    the local [NetworkId] and [Version]; a first message of another code
    gives [ErrNoStatusMsg], a status message above 10 MiB [ErrMsgTooLarge],
    another network id [ErrNetworkIdMismatch], the same network id with
    another version [ErrVersionMismatch]; whenever an error is returned the
    hive has not been called. *)
Theorem handleStatus_registers_matching_status_only env w msg rest :
  hd None (sends w) = None -> reads w = inl msg :: rest ->
  exists err w',
    handleStatus env w = Some (err, w')
    /\ (err = None <->
          Code msg = statusMsg /\ Size msg <= ProtocolMaxMsgSize
          /\ exists st, decode_status env (Payload msg) = Some st
                        /\ st_NetworkId st = NetworkId /\ st_Version st = Version)
    /\ (err = None ->
          exists st, decode_status env (Payload msg) = Some st
            /\ trace w' = trace w ++ [EvSend statusMsg (handshake env);
                                      EvAddPeer (st_Addr st)])
    /\ (err <> None -> trace w' = trace w ++ [EvSend statusMsg (handshake env)])
    /\ (Code msg <> statusMsg -> err = Some (ProtoError ErrNoStatusMsg))
    /\ (Code msg = statusMsg -> Size msg > ProtocolMaxMsgSize ->
          err = Some (ProtoError ErrMsgTooLarge))
    /\ (forall st, Code msg = statusMsg -> Size msg <= ProtocolMaxMsgSize ->
          decode_status env (Payload msg) = Some st ->
          (st_NetworkId st <> NetworkId -> err = Some (ProtoError ErrNetworkIdMismatch))
          /\ (st_NetworkId st = NetworkId -> st_Version st <> Version ->
              err = Some (ProtoError ErrVersionMismatch))).
Proof.
  intros Hs Hr.
  unfold handleStatus, bind, Send, Send_outcome, ReadMsg, protoError, ret, emit.
  assert (Hsend : exists w1,
            (match sends w with
             | [] => (None, log w (EvSend statusMsg (handshake env)))
             | r :: srest => (r, set_sends (log w (EvSend statusMsg (handshake env))) srest)
             end) = (None, w1)
            /\ reads w1 = inl msg :: rest
            /\ trace w1 = trace w ++ [EvSend statusMsg (handshake env)]).
  { destruct (sends w) as [|r srest]; cbn in Hs; subst; by eexists. }
  destruct Hsend as (w1 & -> & Hr1 & Ht1). rewrite Hr1.
  destruct (Z.eqb_spec (Code msg) statusMsg) as [Hc|Hc]; cbn [negb].
  2:{ eexists _, _. split; [done|]. cbn [trace set_reads].
      repeat split; intros; try done; try tauto; try lia. }
  destruct (Z.gtb_spec (Size msg) ProtocolMaxMsgSize) as [Hsz|Hsz].
  { eexists _, _. split; [done|]. cbn [trace set_reads].
    repeat split; intros; try done; try tauto; try lia. }
  destruct (decode_status env (Payload msg)) as [st|] eqn:Hd.
  2:{ eexists _, _. split; [done|]. cbn [trace set_reads].
      repeat split; intros; try done; try tauto; try lia.
      use_accept. }
  destruct (Z.eqb_spec (st_NetworkId st) NetworkId) as [Hn|Hn]; cbn [negb].
  2:{ eexists _, _. split; [done|]. cbn [trace set_reads].
      repeat split; intros; simplify_eq; try done; try tauto; try lia.
      use_accept. }
  destruct (Z.eqb_spec Version (st_Version st)) as [Hv|Hv]; cbn [negb].
  2:{ eexists _, _. split; [done|]. cbn [trace set_reads].
      repeat split; intros; simplify_eq; try done; try tauto; try lia.
      use_accept. }
  eexists _, _. split; [done|]. cbn [trace set_reads set_node log].
  repeat split; intros; simplify_eq; try done; try tauto; try lia.
  - by exists st.
  - exists st. split; [done|]. rewrite Ht1, <- app_assoc. done.
Qed.

Lemma handleStatus_registers_matching_status_only_witness :
  exists w',
    handleStatus sample_env (empty_world [inl good_status]) = Some (None, w')
    /\ trace w' = [EvSend statusMsg (handshake sample_env);
                   EvAddPeer (mkPeerAddr [] 30400 [])].
Proof.
  destruct (handleStatus_registers_matching_status_only sample_env
              (empty_world [inl good_status]) good_status [] eq_refl eq_refl)
    as (err & w' & Hrun & Hiff & Hreg & _).
  assert (Herr : err = None).
  { apply Hiff. split; [reflexivity|]. split; [by vm_compute|].
    eexists. split; [reflexivity|]. split; reflexivity. }
  subst err. exists w'. split; [exact Hrun|].
  destruct (Hreg eq_refl) as (st & Hst & Ht).
  cbn in Hst. injection Hst as <-. exact Ht.
Defined.

(** *** The message loop *)

(** [handle] takes exactly one message off the transport. *)
Lemma handle_reads env w err w' :
  handle env w = Some (err, w') -> exists m, reads w = m :: reads w'.
Proof.
  unfold handle, bind, ReadMsg, protoError, ret, emit.
  destruct (reads w) as [|m rs] eqn:Hr; [done|].
  intros H. exists m. f_equal.
  destruct m as [msg|e]; [|by simplify_eq].
  repeat
    (match type of H with
     | context [if ?c then _ else _] => destruct c
     | context [match ?o with Some _ => _ | None => _ end] => destruct o
     end);
    by simplify_eq.
Qed.

(** The rounds [runBzzProtocol] gives the loop are enough: with the
    messages used up the loop blocks in [ReadMsg], whatever rounds are
    left. *)
Lemma message_loop_bound env todo : forall w,
  (length (reads w) <= todo)%nat ->
  message_loop (S todo) env w = message_loop todo env w.
Proof.
  induction todo as [|todo IH]; intros w Hle.
  - cbn. unfold bind, handle, bind, ReadMsg.
    destruct (reads w); [done|cbn in Hle; lia].
  - change (message_loop (S (S todo)) env w)
      with ((do err <- handle env;
             match err with
             | Some e => exec emit EvRemovePeer; ret e
             | None => message_loop (S todo) env
             end) w).
    cbn [message_loop]. unfold bind.
    destruct (handle env w) as [[[e|] w']|] eqn:Hh; [done| |done].
    apply IH. apply handle_reads in Hh as [m Hm]. rewrite Hm in Hle. cbn in Hle. lia.
Qed.

Lemma message_loop_next env w w1 todo :
  handle env w = Some (None, w1) ->
  message_loop (S todo) env w = message_loop todo env w1.
Proof. intros H. cbn [message_loop]. unfold bind. by rewrite H. Qed.

(** C8, as the code has it.  When the next message of an active session is
    a status message, [handle] returns [ErrExtraStatusMsg] if the message is
    of at most 10 MiB and [ErrMsgTooLarge] if it is larger; either way the
    message loop calls [hive.removePeer] and exits with that error, and a
    session whose handshake was just accepted closes [quitC] and returns
    it. *)
Theorem status_message_ends_active_session env w msg rest todo :
  reads w = inl msg :: rest -> Code msg = statusMsg ->
  let code := if Size msg >? ProtocolMaxMsgSize then ErrMsgTooLarge
              else ErrExtraStatusMsg in
  handle env w = Some (Some (ProtoError code), set_reads w rest)
  /\ message_loop (S todo) env w =
       Some (ProtoError code, log (set_reads w rest) EvRemovePeer)
  /\ (forall w0, handleStatus env w0 = Some (None, w) ->
        runBzzProtocol env w0 =
          Some (Some (ProtoError code),
                set_quit (log (log (set_reads w rest) EvRemovePeer) EvCloseQuit))).
Proof.
  intros Hr Hc code.
  assert (Hh : handle env w = Some (Some (ProtoError code), set_reads w rest)).
  { unfold handle, bind, ReadMsg, protoError, ret. rewrite Hr, Hc. subst code.
    by destruct (Size msg >? ProtocolMaxMsgSize). }
  assert (Hl : forall t, message_loop (S t) env w =
                 Some (ProtoError code, log (set_reads w rest) EvRemovePeer)).
  { intros t. cbn [message_loop]. unfold bind. by rewrite Hh. }
  split; [done|]. split; [done|].
  intros w0 H0. unfold runBzzProtocol, bind. rewrite H0.
  unfold bind in Hl. cbn [message_loop]. unfold bind. by rewrite Hh.
Qed.

Lemma status_message_ends_active_session_witness :
  message_loop 1 sample_env (empty_world [inl good_status]) =
    Some (ProtoError ErrExtraStatusMsg, log (empty_world []) EvRemovePeer).
Proof.
  exact (proj1 (proj2 (status_message_ends_active_session sample_env
                         (empty_world [inl good_status]) good_status [] 0%nat
                         eq_refl eq_refl))).
Defined.

(** C8 as it is stated fails for a status message above 10 MiB: the size
    is tested before the code and the error is [ErrMsgTooLarge]. *)
Lemma oversized_status_is_not_ExtraStatusMsg :
  Code huge_status = statusMsg
  /\ handle sample_env (empty_world [inl huge_status]) =
       Some (Some (ProtoError ErrMsgTooLarge), empty_world [])
  /\ handle sample_env (empty_world [inl huge_status]) <>
       Some (Some (ProtoError ErrExtraStatusMsg), empty_world []).
Proof. split; [done|]. split; [by vm_compute|]. by vm_compute. Qed.

(** *** The pending-store loop *)

(** C9.  In a round of the pending-store loop whose key (after the iterator
    has been sought again, if it had to be) starts with the session's peer
    address key: if the chunk named by the rest of the key is in the DB
    store, [Send] is called with a storeRequest message of that chunk's key
    and data and then the key is deleted from the request db; if the lookup
    fails, the key is deleted and nothing is sent. *)
Theorem storeRequestLoop_round_sends_then_deletes env addrKey st w st1 :
  length addrKey = 32%nat ->
  reseek env st w = inr st1 ->
  take 32 (ls_key st1) = addrKey ->
  let key := ls_key st1 in
  match dbStore_Get env (drop 32 key) with
  | Some chunk =>
      exists st' w' sleeps,
        (storeRequestLoop_round env addrKey st w = Continue st' w'
         \/ storeRequestLoop_round env addrKey st w = Break st' w')
        /\ trace w' =
             trace w
             ++ [EvSend storeRequestMsg
                   (BStore (mkStoreRequest (chunk_Key chunk) (chunk_SData chunk)
                              (generateId env)));
                 EvDbDelete key]
             ++ sleeps
        /\ (sleeps = [] \/ sleeps = [EvSleep])
        /\ requestDb w' = delete key (requestDb w)
  | None =>
      exists w',
        storeRequestLoop_round env addrKey st w = Continue st1 w'
        /\ trace w' = trace w ++ [EvDbDelete key]
        /\ requestDb w' = delete key (requestDb w)
  end.
Proof.
  intros Hlen Hseek Hpre key.
  assert (Hk : (len key <? 32) = false).
  { apply Z.ltb_ge. unfold len.
    assert (length (take 32 key) = 32%nat) as Hl by (unfold key; by rewrite Hpre).
    rewrite length_take in Hl. lia. }
  unfold storeRequestLoop_round. rewrite Hseek. fold key. rewrite Hk.
  rewrite bool_decide_eq_true_2 by done. cbn [negb].
  destruct (dbStore_Get env (drop 32 key)) as [chunk|]; [|by eexists].
  set (req := mkStoreRequest _ _ _).
  assert (Hsend : trace (Send_outcome storeRequestMsg (BStore req) w).2
                  = trace w ++ [EvSend storeRequestMsg (BStore req)]
                  /\ requestDb (Send_outcome storeRequestMsg (BStore req) w).2
                     = requestDb w).
  { unfold Send_outcome. by destruct (sends w). }
  destruct Hsend as [Ht Hdb].
  set (w1 := (Send_outcome storeRequestMsg (BStore req) w).2) in *.
  destruct (len (it_Key (tail (ls_it st1))) =? 0).
  - destruct (int_wrap (ls_n st1 - 1) =? 0).
    + eexists _, _, [EvSleep].
      split; [destruct (quit _); [by right|by left]|].
      cbn [trace log set_requestDb requestDb]. rewrite Ht, Hdb, <- !app_assoc.
      split; [done|]. split; [by right|done].
    + eexists _, _, [].
      split; [destruct (quit _); [by right|by left]|].
      cbn [trace log set_requestDb requestDb]. rewrite Ht, Hdb, <- !app_assoc.
      split; [done|]. split; [by left|done].
  - eexists _, _, [].
    split; [destruct (quit _); [by right|by left]|].
    cbn [trace log set_requestDb requestDb]. rewrite Ht, Hdb, <- !app_assoc.
    split; [done|]. split; [by left|done].
Qed.

Lemma storeRequestLoop_round_sends_then_deletes_witness :
  exists st' w' sleeps,
    (storeRequestLoop_round sample_env sample_addrKey
       (storeRequestLoop_init sample_addrKey) pending_world = Continue st' w'
     \/ storeRequestLoop_round sample_env sample_addrKey
          (storeRequestLoop_init sample_addrKey) pending_world = Break st' w')
    /\ trace w' =
         trace pending_world
         ++ [EvSend storeRequestMsg
               (BStore (mkStoreRequest (replicate 32 2) [1; 2; 3] 7));
             EvDbDelete pending_key]
         ++ sleeps
    /\ (sleeps = [] \/ sleeps = [EvSleep])
    /\ requestDb w' = delete pending_key (requestDb pending_world).
Proof.
  assert (Hseek : reseek sample_env (storeRequestLoop_init sample_addrKey) pending_world
                  = inr (mkLoopState (sample_addrKey ++ replicate 32 0) pending_key 100
                           [pending_key])) by (vm_compute; reflexivity).
  exact (storeRequestLoop_round_sends_then_deletes sample_env sample_addrKey
           (storeRequestLoop_init sample_addrKey) pending_world
           (mkLoopState (sample_addrKey ++ replicate 32 0) pending_key 100
              [pending_key])
           eq_refl Hseek eq_refl).
Defined.

End BzzFacts.

(** * Properties of the code beside the claims *)

Module KadExtFacts.
Import Kad KadExt KadMetric.

(** *** [proxCmp] as an order *)

Lemma lxor_cancel_r x y t : Z.lxor x t = Z.lxor y t -> x = y.
Proof.
  intros H.
  assert (E : forall z, Z.lxor (Z.lxor z t) t = z).
  { intros z. by rewrite Z.lxor_assoc, Z.lxor_nilpotent, Z.lxor_0_r. }
  by rewrite <- (E x), H, E.
Qed.

Lemma xor_bytes_cancel_r xs : forall ys ts,
  length xs = length ts -> length ys = length ts ->
  xor_bytes xs ts = xor_bytes ys ts -> xs = ys.
Proof.
  induction xs as [|x xs IH]; intros [|y ys] [|t ts] Hx Hy H;
    cbn in Hx, Hy; try done.
  rewrite !xor_bytes_cons in H. injection H as H1 H2.
  f_equal; [by eapply lxor_cancel_r|]. eapply IH; [| |done]; lia.
Qed.

Lemma distance_eq_inv a b t :
  wf_address t -> wf_address a -> wf_address b ->
  distance a t = distance b t -> a = b.
Proof.
  intros [Lt Bt] [La Ba] [Lb Bb] H. unfold distance in H.
  apply be_value_inj in H.
  - eapply xor_bytes_cancel_r; [| |done]; congruence.
  - rewrite !xor_bytes_length; congruence.
  - by apply xor_bytes_bytes.
  - by apply xor_bytes_bytes.
Qed.

(** X1.  [proxCmp] returns -1, 0 or 1; 0 exactly for equal addresses;
    swapping the two addresses negates it; "not farther" is transitive. *)
Theorem proxCmp_total_order t a b c :
  wf_address t -> wf_address a -> wf_address b -> wf_address c ->
  (proxCmp t a b = -1 \/ proxCmp t a b = 0 \/ proxCmp t a b = 1)
  /\ (proxCmp t a b = 0 <-> a = b)
  /\ proxCmp t b a = - proxCmp t a b
  /\ (proxCmp t a b <= 0 -> proxCmp t b c <= 0 -> proxCmp t a c <= 0).
Proof.
  intros Ht Ha Hb Hc.
  pose proof (distance_eq_inv a b t Ht Ha Hb) as Hinj.
  destruct Ht as [Lt Bt], Ha as [La Ba], Hb as [Lb Bb], Hc as [Lc Bc].
  rewrite !proxCmp_compare by (done || congruence).
  fold (distance a t) (distance b t) (distance c t).
  destruct (Z.compare_spec (distance a t) (distance b t)) as [Hab|Hab|Hab];
    destruct (Z.compare_spec (distance b t) (distance a t)) as [Hba|Hba|Hba];
    try lia;
    destruct (Z.compare_spec (distance b t) (distance c t)) as [Hbc|Hbc|Hbc];
    destruct (Z.compare_spec (distance a t) (distance c t)) as [Hac|Hac|Hac];
    try lia;
    (split; [tauto|]); (split; [|split; [done|lia]]);
    (split; [try done; try lia; intros _; by apply Hinj
            |try done; intros ->; lia]).
Qed.

Lemma proxCmp_total_order_witness :
  let t := replicate 32 0 in
  let a := replicate 31 0 ++ [1] in
  let b := replicate 31 0 ++ [2] in
  let c := 128 :: replicate 31 0 in
  proxCmp t a b <= 0 /\ proxCmp t b c <= 0 /\ proxCmp t a c <= 0.
Proof.
  intros t a b c.
  assert (Ht : wf_address t) by (apply (bool_decide_unpack _); by vm_compute).
  assert (Ha : wf_address a) by (apply (bool_decide_unpack _); by vm_compute).
  assert (Hb : wf_address b) by (apply (bool_decide_unpack _); by vm_compute).
  assert (Hc : wf_address c) by (apply (bool_decide_unpack _); by vm_compute).
  assert (H1 : proxCmp t a b <= 0) by (by vm_compute).
  assert (H2 : proxCmp t b c <= 0) by (by vm_compute).
  split; [exact H1|]. split; [exact H2|].
  exact (proj2 (proj2 (proj2 (proxCmp_total_order t a b c Ht Ha Hb Hc))) H1 H2).
Defined.

(** *** [proximity] as a count of common leading bits *)

(** Two addresses are at proximity [n] or more exactly when they agree on
    their first [n] bits. *)
Lemma proximity_ge_bits x y n :
  wf_address x -> wf_address y -> 0 <= n <= 256 ->
  (n <= proximity x y <->
   forall i, 0 <= i < n -> addr_bit x i = addr_bit y i).
Proof.
  intros Hx Hy Hn.
  pose proof (proximity_leading_zeros x y Hx Hy) as Hp.
  pose proof (distance_range x y Hx Hy) as Hd.
  split.
  - intros Hle i Hi.
    assert (Hz : Z.testbit (distance x y) (256 - 1 - i) = false).
    { apply leading_zeros_bits_clear; [done|]. rewrite <- Hp. lia. }
    replace (256 - 1 - i) with (255 - i) in Hz by lia.
    rewrite addr_bit_xor in Hz by done.
    by destruct (addr_bit x i), (addr_bit y i).
  - intros Hbits. destruct (Z.le_gt_cases n (proximity x y)) as [|Hlt]; [done|].
    exfalso.
    assert (Hs : Z.testbit (distance x y) (256 - 1 - leading_zeros 256 (distance x y)) = true).
    { apply leading_zeros_bit_set; [done|]. rewrite <- Hp. lia. }
    rewrite <- Hp in Hs.
    replace (256 - 1 - proximity x y) with (255 - proximity x y) in Hs by lia.
    rewrite addr_bit_xor in Hs by done.
    pose proof (leading_zeros_range 256 _ Hd) as Hr. rewrite <- Hp in Hr.
    rewrite (Hbits (proximity x y)) in Hs by lia.
    by destruct (addr_bit y _).
Qed.

Lemma proximity_range x y :
  wf_address x -> wf_address y -> 0 <= proximity x y <= 256.
Proof.
  intros Hx Hy. rewrite proximity_leading_zeros by done.
  apply leading_zeros_range. by apply distance_range.
Qed.

Lemma proximity_sym a b :
  wf_address a -> wf_address b -> proximity a b = proximity b a.
Proof.
  intros Ha Hb. rewrite !proximity_leading_zeros by done.
  unfold distance. by rewrite xor_bytes_comm.
Qed.

Lemma proximity_min x a b :
  wf_address x -> wf_address a -> wf_address b ->
  Z.min (proximity x a) (proximity x b) <= proximity a b.
Proof.
  intros Hx Ha Hb.
  pose proof (proximity_range x a Hx Ha) as Ra.
  pose proof (proximity_range x b Hx Hb) as Rb.
  apply proximity_ge_bits; [done|done|lia|].
  intros i Hi.
  pose proof (proj1 (proximity_ge_bits x a (proximity x a) Hx Ha ltac:(lia))
                ltac:(lia) i ltac:(lia)) as H1.
  pose proof (proj1 (proximity_ge_bits x b (proximity x b) Hx Hb ltac:(lia))
                ltac:(lia) i ltac:(lia)) as H2.
  congruence.
Qed.

(** The bit at which two addresses part. *)
Lemma proximity_bit_differs x a :
  wf_address x -> wf_address a -> proximity x a < 256 ->
  addr_bit x (proximity x a) <> addr_bit a (proximity x a).
Proof.
  intros Hx Ha Hlt E.
  pose proof (proximity_range x a Hx Ha) as Ra.
  assert (proximity x a + 1 <= proximity x a); [|lia].
  apply proximity_ge_bits; [done|done|lia|].
  intros j Hj. destruct (Z.eq_dec j (proximity x a)) as [->|]; [done|].
  apply (proj1 (proximity_ge_bits x a (proximity x a) Hx Ha ltac:(lia))); lia.
Qed.

Lemma proximity_same_bin x a b :
  wf_address x -> wf_address a -> wf_address b ->
  proximity x a = proximity x b -> proximity x a < 256 ->
  proximity x a < proximity a b.
Proof.
  intros Hx Ha Hb Heq Hlt.
  pose proof (proximity_range x a Hx Ha) as Ra.
  pose proof (proximity_range x b Hx Hb) as Rb.
  assert (Hge : proximity x a + 1 <= proximity a b); [|lia].
  apply proximity_ge_bits; [done|done|lia|].
  intros i Hi.
  destruct (Z.eq_dec i (proximity x a)) as [->|Hne].
  - pose proof (proximity_bit_differs x a Hx Ha Hlt) as Hda.
    pose proof (proximity_bit_differs x b Hx Hb ltac:(lia)) as Hdb.
    rewrite <- Heq in Hdb.
    destruct (addr_bit x _), (addr_bit a _), (addr_bit b _); done.
  - pose proof (proj1 (proximity_ge_bits x a (proximity x a) Hx Ha ltac:(lia))
                  ltac:(lia) i ltac:(lia)) as H1.
    pose proof (proj1 (proximity_ge_bits x b (proximity x b) Hx Hb ltac:(lia))
                  ltac:(lia) i ltac:(lia)) as H2.
    congruence.
Qed.

(** X2.  [proximity] does not depend on the order of its arguments, the
    proximity of two addresses is at least the smaller of their proximities
    to a third one, and of two addresses at the same proximity below 256 to
    [x] each is closer to the other than to [x] ("any two item belonging to
    the same bin are at most half as distant from each other as they are
    from x"). *)
Theorem proximity_ultrametric x a b :
  wf_address x -> wf_address a -> wf_address b ->
  proximity a b = proximity b a
  /\ Z.min (proximity x a) (proximity x b) <= proximity a b
  /\ (proximity x a = proximity x b -> proximity x a < 256 ->
      proximity x a < proximity a b).
Proof.
  intros Hx Ha Hb.
  split; [by apply proximity_sym|]. split; [by apply proximity_min|].
  by apply proximity_same_bin.
Qed.

Lemma proximity_ultrametric_witness :
  let x := replicate 32 0 in
  let a := 0 :: 9 :: replicate 30 0 in
  let b := 0 :: 12 :: replicate 30 0 in
  proximity x a = proximity x b /\ proximity x a < 256
  /\ proximity x a < proximity a b.
Proof.
  intros x a b.
  assert (Hx : wf_address x) by (apply (bool_decide_unpack _); by vm_compute).
  assert (Ha : wf_address a) by (apply (bool_decide_unpack _); by vm_compute).
  assert (Hb : wf_address b) by (apply (bool_decide_unpack _); by vm_compute).
  assert (H1 : proximity x a = proximity x b) by (by vm_compute).
  assert (H2 : proximity x a < 256) by (by vm_compute).
  split; [exact H1|]. split; [exact H2|].
  exact (proj2 (proj2 (proximity_ultrametric x a b Hx Ha Hb)) H1 H2).
Defined.

(** *** [Bin]: the address as a string of binary digits *)

Lemma all_byte_pairs_complete x y :
  is_byte x -> is_byte y -> In (x, y) all_byte_pairs.
Proof.
  intros Hx Hy. unfold all_byte_pairs.
  apply list_elem_of_In, list_elem_of_bind. exists x.
  split; [|by apply list_elem_of_In, all_bytes_complete].
  apply list_elem_of_bind. exists y.
  split; [by apply list_elem_of_singleton|by apply list_elem_of_In, all_bytes_complete].
Qed.

Lemma Sprintf_08b_length b : length (Sprintf_08b b) = 8%nat.
Proof. reflexivity. Qed.

Lemma Bin_length a : length (Bin a) = (8 * length a)%nat.
Proof.
  induction a as [|b a IH]; [done|].
  cbn [Bin]. rewrite length_app, Sprintf_08b_length, IH. cbn [length]. lia.
Qed.

Lemma common_prefix_range s : forall t,
  0 <= common_prefix s t <= Z.of_nat (length s).
Proof.
  induction s as [|c s IH]; intros [|d t]; cbn [common_prefix length]; try lia.
  destruct (Ascii.eqb c d); [specialize (IH t)|]; lia.
Qed.

Lemma common_prefix_app u : forall v s t,
  length u = length v ->
  common_prefix (u ++ s) (v ++ t) =
    if common_prefix u v =? Z.of_nat (length u)
    then Z.of_nat (length u) + common_prefix s t
    else common_prefix u v.
Proof.
  induction u as [|c u IH]; intros [|d v] s t Hlen; cbn in Hlen; try done.
  cbn [app common_prefix length].
  destruct (Ascii.eqb c d).
  - rewrite IH by lia. pose proof (common_prefix_range u v).
    destruct (Z.eqb_spec (common_prefix u v) (Z.of_nat (length u)));
      destruct (Z.eqb_spec (1 + common_prefix u v) (Z.of_nat (S (length u)))); lia.
  - destruct (Z.eqb_spec 0 (Z.of_nat (S (length u)))); lia.
Qed.

(** The digits of two bytes agree up to the highest set bit of their XOR. *)
Lemma Sprintf_08b_proximity_bit x y :
  is_byte x -> is_byte y ->
  common_prefix (Sprintf_08b x) (Sprintf_08b y) =
    match proximity_bit (Z.lxor x y) 0 8 with Some j => j | None => 8 end
  /\ (forall j, proximity_bit (Z.lxor x y) 0 8 = Some j -> j < 8).
Proof.
  intros Hx Hy.
  pose (P := fun p : Z * Z =>
    match proximity_bit (Z.lxor p.1 p.2) 0 8 with
    | Some j => (common_prefix (Sprintf_08b p.1) (Sprintf_08b p.2) =? j) && (j <? 8)
    | None => common_prefix (Sprintf_08b p.1) (Sprintf_08b p.2) =? 8
    end).
  assert (Hall : forallb P all_byte_pairs = true) by (vm_compute; reflexivity).
  rewrite forallb_forall in Hall.
  specialize (Hall (x, y) (all_byte_pairs_complete x y Hx Hy)).
  unfold P in Hall. cbn [fst snd] in Hall.
  destruct (proximity_bit (Z.lxor x y) 0 8) as [j|].
  - apply andb_prop in Hall as [H1 H2].
    apply Z.eqb_eq in H1. apply Z.ltb_lt in H2.
    split; [done|]. intros j' [= <-]. done.
  - apply Z.eqb_eq in Hall. split; [done|]. intros j' [=].
Qed.

Lemma proximity_loop_common_prefix xs : forall ys i,
  length xs = length ys -> Forall is_byte xs -> Forall is_byte ys ->
  proximity_loop xs ys i = i * 8 + common_prefix (Bin xs) (Bin ys).
Proof.
  induction xs as [|x xs IH]; intros [|y ys] i Hlen Hx Hy; cbn in Hlen; try done.
  - cbn. lia.
  - apply Forall_cons in Hx as [Hx Hxs]. apply Forall_cons in Hy as [Hy Hys].
    cbn [proximity_loop Bin].
    rewrite common_prefix_app by (by rewrite !Sprintf_08b_length).
    rewrite Sprintf_08b_length.
    destruct (Sprintf_08b_proximity_bit x y Hx Hy) as [-> Hj].
    destruct (proximity_bit (Z.lxor x y) 0 8) as [j|].
    + specialize (Hj j eq_refl).
      destruct (Z.eqb_spec j (Z.of_nat 8)); lia.
    + rewrite IH by (done || lia).
      destruct (Z.eqb_spec 8 (Z.of_nat 8)); lia.
Qed.

(** X3.  [Bin] renders an address as 256 binary digits, and the proximity
    of two addresses is the length of the common prefix of their
    renderings. *)
Theorem Bin_common_prefix_is_proximity x y :
  wf_address x -> wf_address y ->
  length (Bin x) = 256%nat
  /\ proximity x y = common_prefix (Bin x) (Bin y).
Proof.
  intros [Lx Bx] [Ly By]. split.
  - rewrite Bin_length. unfold HashLength in Lx. lia.
  - unfold proximity. rewrite proximity_loop_common_prefix by (done || congruence).
    lia.
Qed.

Lemma Bin_common_prefix_is_proximity_witness :
  let x := 0 :: 9 :: replicate 30 0 in
  let y := 0 :: 12 :: replicate 30 255 in
  length (Bin x) = 256%nat /\ proximity x y = common_prefix (Bin x) (Bin y).
Proof.
  intros x y.
  apply (Bin_common_prefix_is_proximity x y);
    apply (bool_decide_unpack _); vm_compute; reflexivity.
Defined.

End KadExtFacts.

Module TableExtFacts.
Import Kad Table TableExt TableFacts.

(** *** The parameters of a table *)

Lemma same_parameters_refl k : same_parameters k k.
Proof. by repeat split. Qed.

Lemma same_parameters_trans k1 k2 k3 :
  same_parameters k1 k2 -> same_parameters k2 k3 -> same_parameters k1 k3.
Proof.
  unfold same_parameters. intros (?&?&?&?&?&?) (?&?&?&?&?&?).
  repeat split; congruence.
Qed.

Lemma map_size_insert bs i b b' :
  bs !! i = Some b -> size b' = size b ->
  map size (<[i := b']> bs) = map size bs.
Proof.
  intros Hb Hs. change (map size) with (fmap (M := list) size).
  rewrite list_fmap_insert, Hs.
  apply list_insert_id. by rewrite list_lookup_fmap, Hb.
Qed.

Lemma insert_size b node b' : insert b node = Some b' -> size b' = size b.
Proof.
  unfold insert. destruct (_ >=? _); [destruct (_ && _); [|done]|]; by intros [= <-].
Qed.

Lemma AddNode_parameters k node k' :
  AddNode k node = Some k' -> same_parameters k k'.
Proof.
  intros (b & b' & l & s & Hb & Hi & ->)%AddNode_frame.
  repeat split. cbn. apply slice_at_Some in Hb as [_ Hb].
  eapply map_size_insert; [done|]. by eapply insert_size.
Qed.

Lemma RemoveNode_parameters k node k' err :
  RemoveNode k node = Some (k', err) -> same_parameters k k'.
Proof.
  intros (b & l & s & Hb & ->)%RemoveNode_frame.
  repeat split. cbn -[remove_loop]. apply slice_at_Some in Hb as [_ Hb].
  by eapply map_size_insert.
Qed.

Lemma run_parameters ops : forall k k',
  run k ops = Some k' -> same_parameters k k'.
Proof.
  induction ops as [|o ops IH]; intros k k'; cbn [run].
  - intros [= <-]. apply same_parameters_refl.
  - destruct (apply_op k o) as [k1|] eqn:Ho; [|done]. cbn. intros Hr.
    eapply same_parameters_trans; [|by apply IH].
    destruct o as [n|n]; cbn [apply_op] in Ho.
    + by eapply AddNode_parameters.
    + destruct (RemoveNode k n) as [[k2 err]|] eqn:HR; [|done].
      injection Ho as <-. by eapply RemoveNode_parameters.
Qed.

(** *** Starting a table *)

Lemma Start_wf k0 a :
  started k0 = false -> proxLimit k0 = 0 ->
  0 <= MaxProx k0 < int_max -> 0 <= BucketSize k0 ->
  exists k1, Start k0 a = Some k1 /\ wf_table k1 /\ addr k1 = a
             /\ MaxProx k1 = started_MaxProx k0
             /\ BucketSize k1 = started_BucketSize k0
             /\ started k1 = true
             /\ Forall (fun b => size b = started_BucketSize k0) (buckets k1).
Proof.
  intros Hs Hp HM HB. unfold Start. rewrite Hs.
  fold maxProx bucketSize. unfold maxProx, bucketSize.
  fold (started_MaxProx k0) (started_BucketSize k0).
  assert (HM' : 0 <= started_MaxProx k0 < int_max).
  { unfold started_MaxProx, int_max in *. destruct (MaxProx k0 =? 0); lia. }
  assert (HB' : 0 < started_BucketSize k0).
  { unfold started_BucketSize. destruct (Z.eqb_spec (BucketSize k0) 0); lia. }
  rewrite (int_wrap_small (started_MaxProx k0 + 1))
    by (unfold int_min, int_max in *; lia).
  destruct (Z.ltb_spec (started_MaxProx k0 + 1) 0); [lia|].
  eexists. split; [done|]. cbn.
  split; [|repeat split; try done; by apply Forall_replicate].
  unfold wf_table. cbn. unfold len. rewrite length_replicate.
  repeat split; try lia.
  apply Forall_replicate. split; cbn; [done|]. unfold len. cbn. lia.
Qed.

(** The goroutine does not panic when the index is made and the row is
    there. *)
Lemma AddNode_goroutine_ok d index node :
  is_Some (db_index d) -> 0 <= index < len (db_rows d) ->
  exists d', AddNode_goroutine d index node = Some d'
             /\ len (db_rows d') = len (db_rows d)
             /\ is_Some (db_index d').
Proof.
  intros [ix Hix] Hr. unfold AddNode_goroutine. rewrite Hix. cbn.
  destruct (ix !! Addr node) as [p|].
  - eexists. split; [done|]. cbn. split; [done|by eexists].
  - destruct (slice_at_is_Some (db_rows d) index Hr) as [row ->]. cbn.
    eexists. split; [done|]. cbn. unfold len. rewrite length_insert.
    split; [done|by eexists].
Qed.

(** What the calls keep of a started table and its record db. *)
Lemma call_ok s c :
  wf_table (sys_table s) ->
  MaxProx (sys_table s) < len (db_rows (sys_db s)) ->
  is_Some (db_index (sys_db s)) ->
  Forall (fun g => 0 <= g.1 <= MaxProx (sys_table s)) (sys_waiting s) ->
  exists s',
    call s c = Some s'
    /\ wf_table (sys_table s')
    /\ same_parameters (sys_table s) (sys_table s')
    /\ len (db_rows (sys_db s')) = len (db_rows (sys_db s))
    /\ is_Some (db_index (sys_db s'))
    /\ Forall (fun g => 0 <= g.1 <= MaxProx (sys_table s)) (sys_waiting s').
Proof.
  intros Hwf Hrows Hix Hwait. destruct c as [n|n|i]; cbn [call].
  - destruct (AddNode_ok _ n Hwf) as (k' & HA & Hwf' & _). rewrite HA. cbn.
    eexists. split; [done|]. cbn.
    split; [done|]. split; [by eapply AddNode_parameters|].
    split; [done|]. split; [done|].
    apply Forall_app. split; [done|]. apply Forall_singleton. cbn.
    apply proximityBin_range. by destruct Hwf as [[? _] _].
  - destruct (RemoveNode_ok _ n Hwf) as (k' & err & HR & Hwf' & _). rewrite HR. cbn.
    eexists. split; [done|]. cbn.
    split; [done|]. split; [by eapply RemoveNode_parameters|]. done.
  - destruct (sys_waiting s !! i) as [[index n]|] eqn:Hi.
    + assert (Hr : 0 <= index <= MaxProx (sys_table s)).
      { rewrite Forall_lookup in Hwait. exact (Hwait _ _ Hi). }
      destruct (AddNode_goroutine_ok (sys_db s) index n Hix ltac:(lia))
        as (d' & -> & Hlen & Hix').
      cbn. eexists. split; [done|]. cbn.
      split; [done|]. split; [apply same_parameters_refl|].
      split; [done|]. split; [done|].
      by apply Forall_delete.
    + eexists. split; [done|].
      split; [done|]. split; [apply same_parameters_refl|]. done.
Qed.

Lemma calls_ok cs : forall s,
  wf_table (sys_table s) ->
  MaxProx (sys_table s) < len (db_rows (sys_db s)) ->
  is_Some (db_index (sys_db s)) ->
  Forall (fun g => 0 <= g.1 <= MaxProx (sys_table s)) (sys_waiting s) ->
  exists s',
    calls s cs = Some s'
    /\ wf_table (sys_table s')
    /\ same_parameters (sys_table s) (sys_table s')
    /\ len (db_rows (sys_db s')) = len (db_rows (sys_db s)).
Proof.
  induction cs as [|c cs IH]; intros s Hwf Hrows Hix Hwait; cbn [calls].
  - exists s. split; [done|]. split; [done|]. split; [apply same_parameters_refl|done].
  - destruct (call_ok s c Hwf Hrows Hix Hwait)
      as (s1 & -> & Hwf1 & Hp1 & Hlen1 & Hix1 & Hwait1). cbn.
    pose proof Hp1 as (_ & HM & _).
    destruct (IH s1 Hwf1) as (s' & Hc & Hwf' & Hp' & Hlen').
    + rewrite HM, Hlen1. done.
    + done.
    + by rewrite HM.
    + exists s'. split; [done|]. split; [done|].
      split; [by eapply same_parameters_trans|]. by rewrite Hlen'.
Qed.

(** X4.  A [Kademlia] that has not been started before (its [proxLimit]
    is 0), with a maximum proximity in [[0, 255]], a bucket size that is
    not negative (0 stands for the default of either) and no [GetNode]
    callback, is brought up by [Start] for a 32-byte address and then
    serves every sequence of [AddNode] and [RemoveNode] calls without a
    run-time panic, whenever the goroutines that [AddNode] starts take
    their turn: the buckets are indexed within their number, and so are the
    256 rows of [nodeDB].  The self address, the parameters and the number
    of buckets and of rows stay as [Start] set them, no bucket ever holds
    more nodes than its size, and a second [Start] changes nothing. *)
Theorem started_table_serves_all_calls k0 a a' cs :
  started k0 = false -> proxLimit k0 = 0 ->
  0 <= MaxProx k0 <= 255 -> 0 <= BucketSize k0 -> length a = 32%nat ->
  exists s1 s,
    Start_system (mkSystem k0 no_records []) a = Some s1
    /\ calls s1 cs = Some s
    /\ addr (sys_table s) = a
    /\ MaxProx (sys_table s) = started_MaxProx k0
    /\ len (buckets (sys_table s)) = started_MaxProx k0 + 1
    /\ Forall (fun b => size b = started_BucketSize k0
                        /\ len (nodes b) <= started_BucketSize k0)
         (buckets (sys_table s))
    /\ len (db_rows (sys_db s)) = 256
    /\ Start_system s a' = Some s.
Proof.
  intros Hs Hp HM HB Ha.
  destruct (Start_wf k0 a Hs Hp ltac:(unfold int_max; lia) HB)
    as (k1 & HS & Hwf & Haddr & HMP & HBS & Hst & Hsz).
  assert (HM1 : MaxProx k1 <= 255).
  { rewrite HMP. unfold started_MaxProx. destruct (MaxProx k0 =? 0); lia. }
  assert (Hrows : len (db_rows (Start_db no_records a)) = 256).
  { cbn. unfold len. rewrite length_replicate, Ha. reflexivity. }
  destruct (calls_ok cs (mkSystem k1 (Start_db no_records a) []))
    as (s & Hc & Hwf' & (Pa & PM & _ & _ & Pst & Psz) & Hlen).
  { done. }
  { cbn [sys_table sys_db]. rewrite Hrows. lia. }
  { by eexists. }
  { constructor. }
  cbn [sys_table sys_db] in *.
  eexists _, s. split.
  { unfold Start_system. cbn [sys_table sys_db sys_waiting]. rewrite Hs, HS. done. }
  split; [done|].
  destruct Hwf' as (_ & Hlenb & _ & Hb).
  split; [congruence|]. split; [congruence|]. split; [congruence|].
  split.
  { apply Forall_lookup. intros i b Hi.
    assert (Hsb : size b = started_BucketSize k0).
    { assert (Hm : map size (buckets (sys_table s)) !! i = Some (size b)).
      { change (map size) with (fmap (M := list) size).
        by rewrite list_lookup_fmap, Hi. }
      rewrite Psz in Hm. change (map size) with (fmap (M := list) size) in Hm.
      rewrite list_lookup_fmap in Hm.
      destruct (buckets k1 !! i) as [b1|] eqn:Hb1; [|done].
      cbn in Hm. injection Hm as <-.
      rewrite Forall_lookup in Hsz. by eapply Hsz. }
    split; [done|]. rewrite <- Hsb.
    rewrite Forall_lookup in Hb. by destruct (Hb i b Hi). }
  split; [by rewrite Hlen|].
  unfold Start_system. by rewrite Pst, Hst.
Qed.

Lemma started_table_serves_all_calls_witness :
  exists s1 s,
    Start_system (mkSystem (mkKademlia [] 7 0 2 0 [] 0 0 0 [] false) no_records [])
      self_addr = Some s1
    /\ calls s1 [CallAddNode never_active; RunGoroutine 0; CallRemoveNode newcomer;
                 CallAddNode active_at_5; CallAddNode never_active;
                 RunGoroutine 1; RunGoroutine 0] = Some s
    /\ addr (sys_table s) = self_addr
    /\ MaxProx (sys_table s) = 7
    /\ len (buckets (sys_table s)) = 8
    /\ Forall (fun b => size b = 2 /\ len (nodes b) <= 2) (buckets (sys_table s))
    /\ len (db_rows (sys_db s)) = 256
    /\ Start_system s (addr_in_bin 3 1) = Some s.
Proof.
  apply (started_table_serves_all_calls
           (mkKademlia [] 7 0 2 0 [] 0 0 0 [] false) self_addr (addr_in_bin 3 1)
           [CallAddNode never_active; RunGoroutine 0; CallRemoveNode newcomer;
            CallAddNode active_at_5; CallAddNode never_active;
            RunGoroutine 1; RunGoroutine 0]);
    vm_compute; (reflexivity || (split; congruence) || congruence).
Defined.

(** X5.  With a negative bucket size or a negative maximum proximity the
    first [AddNode] ends in a run-time panic (if [Start] has not panicked
    in [make] before): the bucket is "full" while empty, and [worstNode]
    names index 0 of an empty slice; a table without buckets has no bin for
    any address. *)
Theorem negative_parameters_panic k0 a node :
  started k0 = false ->
  int_min <= MaxProx k0 <= int_max ->
  BucketSize k0 < 0 \/ MaxProx k0 < 0 ->
  (k1 ← Start k0 a; AddNode k1 node) = None.
Proof.
  intros Hs HM Hneg. unfold Start. rewrite Hs.
  set (M := if MaxProx k0 =? 0 then maxProx else MaxProx k0).
  set (B := if BucketSize k0 =? 0 then bucketSize else BucketSize k0).
  destruct (Z.ltb_spec (int_wrap (M + 1)) 0) as [|Hge]; [done|].
  cbn [mbind option_bind]. unfold AddNode.
  match goal with |- context [proximityBin ?t _] => set (k1 := t) end.
  destruct (slice_at (buckets k1) (proximityBin k1 (Addr node))) as [b|] eqn:Hb;
    [|done].
  cbn [mbind option_bind].
  apply slice_at_Some in Hb as [Hr Hb]. cbn in Hr, Hb.
  unfold len in Hr. rewrite length_replicate in Hr.
  apply lookup_replicate in Hb as [-> _].
  assert (HM0 : 0 <= M).
  { destruct (Z.le_gt_cases 0 M) as [|Hlt]; [done|]. exfalso.
    destruct (Z.eq_dec M (-1)) as [E|NE].
    - rewrite E in Hr. change (int_wrap (-1 + 1)) with 0 in Hr. cbn in Hr. lia.
    - assert (M = MaxProx k0) as EM.
      { unfold M, maxProx in *. destruct (MaxProx k0 =? 0); lia. }
      rewrite int_wrap_small in Hge by (unfold int_min, int_max in *; lia). lia. }
  assert (HB : B < 0).
  { destruct Hneg as [HBn|HMn].
    - unfold B. destruct (Z.eqb_spec (BucketSize k0) 0); lia.
    - exfalso. unfold M, maxProx in HM0. destruct (Z.eqb_spec (MaxProx k0) 0); lia. }
  unfold insert. cbn [size nodes].
  destruct (Z.geb_spec (len (@nil Node)) B) as [_|Hlt]; [done|].
  unfold len in Hlt. cbn in Hlt. lia.
Qed.

Lemma negative_parameters_panic_witness :
  (k1 ← Start (mkKademlia [] 0 0 (-1) 0 [] 0 0 0 [] false) self_addr;
   AddNode k1 newcomer) = None.
Proof.
  apply (negative_parameters_panic
           (mkKademlia [] 0 0 (-1) 0 [] 0 0 0 [] false) self_addr newcomer);
    vm_compute; (reflexivity || (split; congruence) || (left; reflexivity)).
Defined.

(** *** The bucket [AddNode] writes *)

Lemma stored_cons c bs : stored (c :: bs) = len (nodes c) + stored bs.
Proof. reflexivity. Qed.

Lemma stored_insert bs : forall i b b',
  bs !! i = Some b ->
  stored (<[i := b']> bs) = stored bs - len (nodes b) + len (nodes b').
Proof.
  induction bs as [|c bs IH]; intros [|i] b b' Hb; cbn in Hb; try done.
  - injection Hb as ->. change (<[0%nat:=b']> (b :: bs)) with (b' :: bs).
    rewrite !stored_cons. lia.
  - change (<[S i:=b']> (c :: bs)) with (c :: <[i:=b']> bs).
    rewrite !stored_cons, (IH i b b' Hb). lia.
Qed.

(** X6.  [AddNode] on a well-formed table writes, before it returns, the
    bucket of the node's bin and no other; the node is in that bucket
    afterwards.  Below its size the bucket gains the node at its end; at its
    size one entry is overwritten, so the number of nodes held stays the
    same while [count] is incremented all the same.  The goroutine it starts
    writes the record db: when the index has the node's address it sets the
    [node] field of the indexed record and nothing else; otherwise it makes
    a record of the node, enters it in the index and appends it to the row
    of the node's bin.  No other row, no other field of a record that
    exists and no other entry of the index is written.  It panics exactly
    when the address is not in the index and the index is nil or there is no
    row of that number. *)
Theorem AddNode_writes_one_bucket k node d :
  wf_table k ->
  (exists k' b b',
    AddNode k node = Some k'
    /\ slice_at (buckets k) (proximityBin k (Addr node)) = Some b
    /\ buckets k' = <[Z.to_nat (proximityBin k (Addr node)) := b']> (buckets k)
    /\ size b' = size b
    /\ node ∈ nodes b'
    /\ (len (nodes b) < size b ->
        nodes b' = nodes b ++ [node]
        /\ stored (buckets k') = stored (buckets k) + 1)
    /\ (len (nodes b) = size b ->
        len (nodes b') = size b
        /\ stored (buckets k') = stored (buckets k))
    /\ Count k' = int_wrap (Count k + 1))
  /\ (AddNode_goroutine d (proximityBin k (Addr node)) node = None <->
        (db_index d ≫= (fun ix => ix !! Addr node)) = None
        /\ (db_index d = None \/ len (db_rows d) <= proximityBin k (Addr node)))
  /\ (forall d',
        AddNode_goroutine d (proximityBin k (Addr node)) node = Some d' ->
        length (db_rows d') = length (db_rows d)
        /\ (forall i, i <> Z.to_nat (proximityBin k (Addr node)) ->
              db_rows d' !! i = db_rows d !! i)
        /\ (forall p r, db_records d !! p = Some r ->
              exists r', db_records d' !! p = Some r'
                /\ nr_Address r' = nr_Address r /\ nr_Url r' = nr_Url r
                /\ nr_Active r' = nr_Active r
                /\ (nr_node r' = nr_node r
                    \/ (nr_node r' = Some node
                        /\ (db_index d ≫= (fun ix => ix !! Addr node)) = Some p)))
        /\ (forall a, a <> Addr node ->
              (db_index d' ≫= (fun ix => ix !! a)) = (db_index d ≫= (fun ix => ix !! a)))
        /\ ((exists p, (db_index d ≫= (fun ix => ix !! Addr node)) = Some p
                       /\ db_index d' = db_index d /\ db_rows d' = db_rows d
                       /\ db_records d' = alter (with_node node) p (db_records d))
            \/ (exists row,
                  (db_index d ≫= (fun ix => ix !! Addr node)) = None
                  /\ slice_at (db_rows d) (proximityBin k (Addr node)) = Some row
                  /\ db_records d' = db_records d ++ [record_of node]
                  /\ db_rows d' !! Z.to_nat (proximityBin k (Addr node))
                     = Some (row ++ [length (db_records d)])
                  /\ (db_index d' ≫= (fun ix => ix !! Addr node))
                     = Some (length (db_records d))))).
Proof.
  intros Hwf. split; [|split].
  - destruct (AddNode_ok k node Hwf) as (k' & HA & _ & Hc).
    destruct (AddNode_frame k node k' HA) as (b & b' & l & s & Hb & Hi & ->).
    eexists. exists b, b'. split; [done|]. split; [done|]. split; [done|].
    assert (Hwb : wf_bucket b).
    { destruct Hwf as (_ & _ & _ & Hbs). apply slice_at_Some in Hb as [_ Hb].
      rewrite Forall_lookup in Hbs. by eapply Hbs. }
    destruct (insert_wf b node Hwb) as (b2 & Hi2 & Hwb' & Hsz & Hlt & Hge).
    assert (b2 = b') as -> by congruence.
    apply slice_at_Some in Hb as [Hr Hb].
    split; [done|]. split.
    { destruct (Z.lt_ge_cases (len (nodes b)) (size b)) as [H|H].
      - rewrite (Hlt H). apply elem_of_app. right. by apply list_elem_of_singleton.
      - rewrite (Hge ltac:(lia)).
        pose proof (worstNode_range b) as Hw.
        assert (nodes b <> []) as Hne.
        { intros E. rewrite E in H. destruct Hwb as [? _]. unfold len in H. cbn in H. lia. }
        specialize (Hw Hne).
        eapply list_elem_of_lookup_2 with (i := Z.to_nat (worstNode b)).
        apply list_lookup_insert_eq. unfold len in Hw. lia. }
    split.
    { intros H. split; [by apply Hlt|].
      cbn [buckets set_prox set_count set_buckets].
      rewrite (stored_insert _ _ b b' Hb), (Hlt H).
      unfold len. rewrite length_app. cbn [length]. lia. }
    split; [|done].
    intros H. assert (Hl : len (nodes b') = size b).
    { rewrite (Hge ltac:(lia)). unfold len in *. by rewrite length_insert. }
    split; [done|].
    cbn [buckets set_prox set_count set_buckets].
    rewrite (stored_insert _ _ b b' Hb). lia.
  - pose proof (proximityBin_range k (Addr node) ltac:(by destruct Hwf as [[? _] _]))
      as Hr.
    set (index := proximityBin k (Addr node)) in *.
    unfold AddNode_goroutine.
    destruct (db_index d) as [ix|]; cbn; [|split; [by split; [|left]|done]].
    destruct (ix !! Addr node) as [p|]; [split; [done|by intros [? _]]|].
    unfold slice_at.
    destruct (Z.leb_spec 0 index); [|lia]. cbn [andb].
    destruct (Z.ltb_spec index (len (db_rows d))) as [Hlt|Hge].
    + destruct (db_rows d !! Z.to_nat index) as [row|] eqn:Hrow.
      * cbn. split; [done|]. intros [_ [?|?]]; [done|lia].
      * apply lookup_ge_None in Hrow. unfold len in Hlt. lia.
    + cbn. split; [|done]. intros _. split; [done|]. right. lia.
  - intros d'. set (index := proximityBin k (Addr node)).
    unfold AddNode_goroutine.
    destruct (db_index d) as [ix|] eqn:Hix; cbn; [|done].
    destruct (ix !! Addr node) as [p|] eqn:Hp.
    + intros [= <-]. cbn.
      split; [done|]. split; [done|]. split.
      { intros q r Hq. destruct (decide (p = q)) as [->|Hne].
        - rewrite list_lookup_alter_eq, Hq. cbn. eexists. split; [done|]. cbn.
          split; [done|]. split; [done|]. split; [done|]. right. done.
        - rewrite list_lookup_alter_ne by done.
          exists r. split; [done|]. split; [done|]. split; [done|]. split; [done|].
          by left. }
      split; [done|]. left. by exists p.
    + destruct (slice_at (db_rows d) index) as [row|] eqn:Hrow; cbn; [|done].
      intros [= <-]. cbn.
      apply slice_at_Some in Hrow as [Hr Hrow].
      split; [by rewrite length_insert|].
      split; [intros i Hi; by rewrite list_lookup_insert_ne|].
      split.
      { intros q r Hq. exists r. split; [by apply lookup_app_l_Some|].
        split; [done|]. split; [done|]. split; [done|]. by left. }
      split; [intros a Ha; by rewrite lookup_insert_ne|].
      right. exists row. split; [done|].
      split.
      { unfold slice_at. destruct (Z.leb_spec 0 index); [|lia].
        destruct (Z.ltb_spec index (len (db_rows d))); [done|lia]. }
      split; [done|]. split.
      { apply list_lookup_insert_eq. unfold len in Hr. lia. }
      by rewrite lookup_insert_eq.
Qed.

Lemma AddNode_writes_one_bucket_witness :
  (exists k', AddNode twin_result twin_first = Some k')
  /\ AddNode_goroutine (Start_db no_records self_addr)
       (proximityBin twin_result (Addr twin_first)) twin_first <> None.
Proof.
  assert (Hwf : wf_table twin_result).
  { apply (bool_decide_unpack _). vm_compute. reflexivity. }
  destruct (AddNode_writes_one_bucket twin_result twin_first
              (Start_db no_records self_addr) Hwf)
    as ((k' & b & b' & HA & _) & Hpanic & _).
  split; [by exists k'|].
  intros Hn. apply Hpanic in Hn as [_ [Hnil|Hrows]]; [discriminate|].
  vm_compute in Hrows. by apply Hrows.
Defined.

(** *** The bucket [RemoveNode] writes *)

Lemma remove_loop_scan a todo : forall ns pre,
  (length ns <= todo)%nat ->
  remove_loop todo a (pre ++ ns) (length pre) = pre ++ remove_scan a ns.
Proof.
  induction todo as [|todo IH]; intros ns pre Hle.
  - destruct ns; [done|cbn in Hle; lia].
  - cbn [remove_loop]. destruct ns as [|x rest].
    + cbn [remove_scan]. rewrite !app_nil_r.
      by rewrite (lookup_ge_None_2 pre (length pre)) by lia.
    + rewrite lookup_app_r, Nat.sub_diag by lia. cbn [lookup list_lookup remove_scan].
      cbn in Hle. destruct (bool_decide (a = Addr x)).
      * rewrite take_app_length.
        rewrite (drop_app_ge pre (x :: rest) (S (length pre))) by lia.
        replace (S (length pre) - length pre)%nat with 1%nat by lia.
        cbn [drop]. rewrite drop_0. destruct rest as [|y rest'].
        -- cbv iota. rewrite !app_nil_r. destruct todo; [done|].
           cbn [remove_loop]. by rewrite (lookup_ge_None_2 pre) by lia.
        -- rewrite (cons_middle y pre rest'), app_assoc.
           replace (S (length pre)) with (length (pre ++ [y]))
             by (rewrite length_app; cbn; lia).
           rewrite IH by (cbn in Hle; lia). by rewrite <- app_assoc.
      * rewrite (cons_middle x pre rest), app_assoc.
        replace (S (length pre)) with (length (pre ++ [x]))
          by (rewrite length_app; cbn; lia).
        rewrite IH by lia. by rewrite <- app_assoc.
Qed.

Lemma remove_scan_absent a ns :
  a ∉ addresses ns -> remove_scan a ns = ns.
Proof.
  induction ns as [|x rest IH]; [done|]. cbn [addresses map remove_scan].
  intros [Hx Hrest]%not_elem_of_cons.
  rewrite bool_decide_eq_false_2 by done. f_equal. by apply IH.
Qed.

Lemma remove_scan_app a pre ns :
  a ∉ addresses pre -> remove_scan a (pre ++ ns) = pre ++ remove_scan a ns.
Proof.
  induction pre as [|x pre IH]; [done|]. cbn [addresses map app remove_scan].
  intros [Hx Hrest]%not_elem_of_cons.
  rewrite bool_decide_eq_false_2 by done. f_equal. by apply IH.
Qed.

Lemma filter_absent a ns :
  a ∉ addresses ns -> filter (fun x => Addr x <> a) ns = ns.
Proof.
  induction ns as [|x rest IH]; [done|]. cbn [addresses map].
  intros [Hx Hrest]%not_elem_of_cons.
  rewrite filter_cons_True by (intros H; by apply Hx). f_equal. by apply IH.
Qed.

Lemma remove_scan_filter a ns :
  NoDup (addresses ns) ->
  remove_scan a ns = filter (fun x => Addr x <> a) ns.
Proof.
  induction ns as [|x rest IH]; [done|]. cbn [addresses map].
  intros [Hx Hnd]%NoDup_cons. cbn [remove_scan].
  destruct (bool_decide_reflect (a = Addr x)) as [->|Hne].
  - rewrite filter_cons_False by (intros H; by apply H).
    rewrite filter_absent by done.
    destruct rest as [|y rest']; [done|].
    cbn [addresses map] in Hx. apply not_elem_of_cons in Hx as [Hy Hx].
    f_equal. by apply remove_scan_absent.
  - rewrite filter_cons_True by (intros H; by apply Hne). f_equal. by apply IH.
Qed.

(** X7.  [RemoveNode] on a well-formed table writes the bucket of the node's
    bin and no other.  From a bucket that holds no address twice it takes
    every node of the given address.  In general it passes over the entry
    that stands directly behind a removed one: of two neighbours with the
    address to remove, the second stays.  The error returned is nil only if
    the bucket is at its size afterwards, so every call that removes a node
    returns "insufficient nodes". *)
Theorem RemoveNode_writes_one_bucket k node :
  wf_table k ->
  exists k' err b ns,
    RemoveNode k node = Some (k', err)
    /\ slice_at (buckets k) (proximityBin k (Addr node)) = Some b
    /\ buckets k' = <[Z.to_nat (proximityBin k (Addr node)) := mkBucket (size b) ns]> (buckets k)
    /\ ns = remove_scan (Addr node) (nodes b)
    /\ (NoDup (addresses (nodes b)) ->
        ns = filter (fun x => Addr x <> Addr node) (nodes b))
    /\ (forall pre x y post,
          nodes b = pre ++ x :: y :: post ->
          Addr node ∉ addresses pre -> Addr x = Addr node ->
          ns = pre ++ y :: remove_scan (Addr node) post)
    /\ (err = None <-> len ns = size b).
Proof.
  intros Hwf.
  destruct (RemoveNode_ok k node Hwf) as (k' & err & HR & _ & _).
  pose proof HR as HR'.
  apply RemoveNode_frame in HR' as (b & l & s & Hb & Hk').
  exists k', err, b, (remove_scan (Addr node) (nodes b)).
  assert (Hscan : remove_loop (length (nodes b)) (Addr node) (nodes b) 0
                  = remove_scan (Addr node) (nodes b)).
  { exact (remove_loop_scan (Addr node) (length (nodes b)) (nodes b) [] (le_n _)). }
  split; [done|]. split; [done|].
  split; [rewrite Hk', Hscan; done|].
  split; [done|]. split; [apply remove_scan_filter|].
  split.
  { intros pre x y post E Hpre Hx. rewrite E, remove_scan_app by done.
    cbn [remove_scan]. by rewrite bool_decide_eq_true_2 by done. }
  assert (Hwb : wf_bucket b).
  { destruct Hwf as (_ & _ & _ & Hbs). apply slice_at_Some in Hb as [_ Hb].
    rewrite Forall_lookup in Hbs. by eapply Hbs. }
  pose proof (remove_loop_length (length (nodes b)) (Addr node) (nodes b) 0) as Hl.
  rewrite Hscan in Hl. destruct Hwb as [Hs Hlen]. unfold len in *.
  revert HR. unfold RemoveNode. rewrite Hb. cbn -[adjustProx remove_loop].
  rewrite Hscan. unfold len.
  destruct (Z.ltb_spec (Z.of_nat (length (remove_scan (Addr node) (nodes b)))) (size b));
    destruct (_ =? 0); try destruct (adjustProx _ _ _); cbn;
    intros [= _ <-] || intros [=]; split; (done || lia).
Qed.

Lemma RemoveNode_writes_one_bucket_witness :
  exists k' err b ns,
    RemoveNode twin_result twin_first = Some (k', err)
    /\ slice_at (buckets twin_result) (proximityBin twin_result (Addr twin_first)) = Some b
    /\ buckets k'
       = <[Z.to_nat (proximityBin twin_result (Addr twin_first)) := mkBucket (size b) ns]>
           (buckets twin_result)
    /\ ns = remove_scan (Addr twin_first) (nodes b)
    /\ (NoDup (addresses (nodes b)) ->
        ns = filter (fun x => Addr x <> Addr twin_first) (nodes b))
    /\ (forall pre x y post,
          nodes b = pre ++ x :: y :: post ->
          Addr twin_first ∉ addresses pre -> Addr x = Addr twin_first ->
          ns = pre ++ y :: remove_scan (Addr twin_first) post)
    /\ (err = None <-> len ns = size b).
Proof.
  apply (RemoveNode_writes_one_bucket twin_result twin_first).
  apply (bool_decide_unpack _). vm_compute. reflexivity.
Defined.

(** X8.  Adding a node to a bucket that is below its size and holds no node
    of that address, and removing it again, gives back the buckets and the
    count. *)
Theorem AddNode_RemoveNode_restores k node b :
  wf_table k ->
  slice_at (buckets k) (proximityBin k (Addr node)) = Some b ->
  len (nodes b) < size b ->
  Addr node ∉ addresses (nodes b) ->
  int_min <= Count k < int_max ->
  exists k1 k2 err,
    AddNode k node = Some k1
    /\ RemoveNode k1 node = Some (k2, err)
    /\ buckets k2 = buckets k
    /\ Count k2 = Count k.
Proof.
  intros Hwf Hb Hlt Hnew Hc.
  destruct (AddNode_ok k node Hwf) as (k1 & HA & Hwf1 & Hc1).
  destruct (RemoveNode_ok k1 node Hwf1) as (k2 & err & HR & _ & Hc2).
  exists k1, k2, err. split; [done|]. split; [done|].
  pose proof (AddNode_parameters k node k1 HA) as (Pa & PM & _).
  apply AddNode_frame in HA as (b0 & b' & l & s & Hb0 & Hi & Hk1).
  assert (b0 = b) as -> by congruence.
  assert (Hidx : proximityBin k1 (Addr node) = proximityBin k (Addr node)).
  { unfold proximityBin. by rewrite Pa, PM. }
  apply RemoveNode_frame in HR as (b1 & l' & s' & Hb1 & Hk2).
  rewrite Hidx in Hb1, Hk2.
  assert (Hwb : wf_bucket b).
  { destruct Hwf as (_ & _ & _ & Hbs). apply slice_at_Some in Hb as [_ Hb].
    rewrite Forall_lookup in Hbs. by eapply Hbs. }
  destruct (insert_wf b node Hwb) as (b2 & Hi2 & _ & Hsz & Happ & _).
  assert (b2 = b') as -> by congruence.
  specialize (Happ Hlt).
  apply slice_at_Some in Hb as [Hr Hb].
  assert (b1 = b') as ->.
  { apply slice_at_Some in Hb1 as [_ Hb1]. rewrite Hk1 in Hb1. cbn in Hb1.
    rewrite list_lookup_insert_eq in Hb1 by (by eapply lookup_lt_Some).
    congruence. }
  split.
  - assert (Hscan : remove_loop (length (nodes b')) (Addr node) (nodes b') 0
                    = remove_scan (Addr node) (nodes b')).
    { exact (remove_loop_scan (Addr node) (length (nodes b')) (nodes b') [] (le_n _)). }
    rewrite Hk2. cbn [buckets set_prox set_count set_buckets].
    rewrite Hk1. cbn [buckets set_prox set_count set_buckets].
    rewrite list_insert_insert_eq.
    apply list_insert_id. rewrite Hb. f_equal.
    rewrite Hscan, Happ, remove_scan_app by done. cbn [remove_scan].
    rewrite bool_decide_eq_true_2 by done. rewrite app_nil_r, Hsz.
    by destruct b.
  - rewrite Hc2, Hc1. unfold Count in *.
    rewrite (int_wrap_small (count k + 1)) by (unfold int_min, int_max in *; lia).
    replace (count k + 1 - 1) with (count k) by lia.
    apply int_wrap_small. unfold int_min, int_max in *. lia.
Qed.

Lemma AddNode_RemoveNode_restores_witness :
  exists k1 k2 err,
    AddNode twin_result newcomer = Some k1
    /\ RemoveNode k1 newcomer = Some (k2, err)
    /\ buckets k2 = buckets twin_result
    /\ Count k2 = Count twin_result.
Proof.
  apply (AddNode_RemoveNode_restores twin_result newcomer (mkBucket 20 [])).
  - apply (bool_decide_unpack _). vm_compute. reflexivity.
  - vm_compute. reflexivity.
  - vm_compute. reflexivity.
  - apply (bool_decide_unpack _). vm_compute. reflexivity.
  - vm_compute. split; congruence.
Defined.

(** *** Eviction from a full bucket *)

(** X9.  [insert] into a bucket that is at (or over) its size, none of whose
    nodes reports the zero time, overwrites the first of the nodes that were
    active least recently and leaves the others in place. *)
Theorem insert_evicts_least_recently_active b node :
  0 < size b -> size b <= len (nodes b) ->
  Forall reports_nonzero (nodes b) ->
  exists r w,
    insert b node = Some (mkBucket (size b) (<[r := node]> (nodes b)))
    /\ nodes b !! r = Some w
    /\ (forall x, x ∈ nodes b -> Before (LastActive x) (LastActive w) = false)
    /\ (forall j x, (j < r)%nat -> nodes b !! j = Some x ->
          Before (LastActive w) (LastActive x) = true).
Proof.
  intros Hs Hfull Hnz.
  assert (Hne : nodes b <> []).
  { intros E. rewrite E in Hfull. unfold len in Hfull. cbn in Hfull. lia. }
  destruct (worstNode_oldest b Hne Hnz) as (r & w & Hw & Hr & Hmin & Hfirst).
  exists r, w. split; [|done].
  unfold insert. rewrite Hw.
  destruct (Z.geb_spec (len (nodes b)) (size b)); [|lia].
  apply lookup_lt_Some in Hr. unfold len.
  destruct (Z.leb_spec 0 (Z.of_nat r)); [|lia].
  destruct (Z.ltb_spec (Z.of_nat r) (Z.of_nat (length (nodes b)))); [|lia].
  cbn. by rewrite Nat2Z.id.
Qed.

Lemma insert_evicts_least_recently_active_witness :
  exists r w,
    insert (mkBucket 2 [newcomer; active_at_5]) never_active
      = Some (mkBucket 2 (<[r := never_active]> [newcomer; active_at_5]))
    /\ [newcomer; active_at_5] !! r = Some w
    /\ (forall x, x ∈ [newcomer; active_at_5] ->
          Before (LastActive x) (LastActive w) = false)
    /\ (forall j x, (j < r)%nat -> [newcomer; active_at_5] !! j = Some x ->
          Before (LastActive w) (LastActive x) = true).
Proof.
  apply (insert_evicts_least_recently_active
           (mkBucket 2 [newcomer; active_at_5]) never_active).
  - reflexivity.
  - vm_compute. congruence.
  - repeat constructor.
Defined.

(** *** The bins *)

Lemma proximityBin_ge k a :
  0 <= MaxProx k -> proximityBin k a <= proximity (addr k) a.
Proof.
  intros HM. unfold proximityBin.
  pose proof (proximity_nonneg (addr k) a).
  destruct (Z.gtb_spec (proximity (addr k) a) (MaxProx k)); lia.
Qed.

Lemma proximityBin_exact k a :
  proximityBin k a < MaxProx k -> proximity (addr k) a = proximityBin k a.
Proof.
  unfold proximityBin.
  destruct (Z.gtb_spec (proximity (addr k) a) (MaxProx k)); lia.
Qed.

(** X21.  The bin of an address is the number of leading bits it shares
    with the table's own address, cut off at [MaxProx]: the address agrees
    with the own address on every bit before its bin and, if the bin is
    below [MaxProx], differs from it at the bit of that index.  The own
    address is in the last bin. *)
Theorem proximityBin_counts_shared_bits k a :
  wf_address (addr k) -> wf_address a -> 0 <= MaxProx k <= 256 ->
  0 <= proximityBin k a <= MaxProx k
  /\ (forall j, 0 <= j < proximityBin k a -> addr_bit (addr k) j = addr_bit a j)
  /\ (proximityBin k a < MaxProx k ->
      addr_bit (addr k) (proximityBin k a) <> addr_bit a (proximityBin k a))
  /\ proximityBin k (addr k) = MaxProx k.
Proof.
  intros Hs Ha HM.
  pose proof (KadExtFacts.proximity_range (addr k) a Hs Ha) as Hr.
  pose proof (proximityBin_range k a (proj1 HM)) as Hbin.
  pose proof (proximityBin_ge k a (proj1 HM)) as Hge.
  split; [done|]. split; [|split].
  - intros j Hj.
    apply (proj1 (KadExtFacts.proximity_ge_bits (addr k) a (proximity (addr k) a)
                    Hs Ha ltac:(lia)) ltac:(lia)). lia.
  - intros Hlt. rewrite <- (proximityBin_exact k a Hlt).
    apply KadExtFacts.proximity_bit_differs; try done.
    rewrite (proximityBin_exact k a Hlt). lia.
  - assert (H256 : 256 <= proximity (addr k) (addr k)).
    { by apply KadExtFacts.proximity_ge_bits. }
    pose proof (KadExtFacts.proximity_range (addr k) (addr k) Hs Hs).
    unfold proximityBin.
    destruct (Z.gtb_spec (proximity (addr k) (addr k)) (MaxProx k)); lia.
Qed.

Lemma proximityBin_counts_shared_bits_witness :
  0 <= proximityBin twin_result (Addr twin_first) <= MaxProx twin_result
  /\ proximityBin twin_result (addr twin_result) = MaxProx twin_result.
Proof.
  destruct (proximityBin_counts_shared_bits twin_result (Addr twin_first))
    as (H1 & _ & _ & H2).
  - apply (bool_decide_unpack _). vm_compute. reflexivity.
  - apply (bool_decide_unpack _). vm_compute. reflexivity.
  - vm_compute. split; congruence.
  - split; [exact H1|exact H2].
Defined.

(** *** Nodes stay in their bins *)

Lemma insert_elem b node b' x :
  insert b node = Some b' -> x ∈ nodes b' -> x = node \/ x ∈ nodes b.
Proof.
  unfold insert. destruct (_ >=? _).
  - destruct (_ && _); [|done]. intros [= <-]. cbn [nodes].
    intros (j & Hj)%list_elem_of_lookup_1.
    apply list_lookup_insert_Some in Hj as [(_ & -> & _)|[_ Hj]]; [by left|].
    right. by eapply list_elem_of_lookup_2.
  - intros [= <-]. cbn [nodes].
    intros [Hx|Hx]%elem_of_app; [by right|left].
    by apply list_elem_of_singleton in Hx.
Qed.

Lemma remove_scan_elem_bounded a n : forall ns x,
  (length ns <= n)%nat -> x ∈ remove_scan a ns -> x ∈ ns.
Proof.
  induction n as [|n IH]; intros [|y rest] x Hlen; cbn in Hlen; try done; [lia|].
  cbn [remove_scan]. destruct (bool_decide _).
  - destruct rest as [|z rest']; [by intros ?%elem_of_nil|].
    intros [->|Hx]%elem_of_cons; [right; by left|].
    right. right. apply IH; [cbn in Hlen; lia|done].
  - intros [->|Hx]%elem_of_cons; [by left|].
    right. apply IH; [lia|done].
Qed.

Lemma remove_scan_elem a ns x : x ∈ remove_scan a ns -> x ∈ ns.
Proof. by apply (remove_scan_elem_bounded a (length ns)). Qed.

Lemma binned_set_bucket k i b b' :
  binned k -> slice_at (buckets k) i = Some b ->
  (forall x, x ∈ nodes b' -> x ∈ nodes b \/ proximityBin k (Addr x) = i) ->
  forall c l s,
    binned (set_prox (set_count (set_buckets k (<[Z.to_nat i := b']> (buckets k))) c) l s).
Proof.
  intros Hbin [Hr Hb]%slice_at_Some Hnew c l s j bj x.
  cbn [buckets set_prox set_count set_buckets].
  unfold proximityBin. cbn [addr MaxProx set_prox set_count set_buckets].
  fold (proximityBin k (Addr x)).
  intros Hj Hx.
  apply list_lookup_insert_Some in Hj as [(<- & <- & _)|[Hne Hj]].
  - destruct (Hnew x Hx) as [Hold|Hi]; [|lia].
    rewrite (Hbin _ _ _ Hb Hold). lia.
  - by eapply Hbin.
Qed.

Lemma AddNode_binned k node k' :
  binned k -> AddNode k node = Some k' -> binned k'.
Proof.
  intros Hbin (b & b' & l & s & Hb & Hi & ->)%AddNode_frame.
  eapply binned_set_bucket; [done|done|].
  intros x [->|Hx]%(insert_elem b node b' x Hi); [by right|by left].
Qed.

Lemma RemoveNode_binned k node k' err :
  binned k -> RemoveNode k node = Some (k', err) -> binned k'.
Proof.
  intros Hbin (b & l & s & Hb & ->)%RemoveNode_frame.
  eapply binned_set_bucket; [done|done|].
  intros x Hx. left. cbn [nodes] in Hx.
  assert (Hscan : remove_loop (length (nodes b)) (Addr node) (nodes b) 0
                  = remove_scan (Addr node) (nodes b)).
  { exact (remove_loop_scan (Addr node) (length (nodes b)) (nodes b) [] (le_n _)). }
  rewrite Hscan in Hx. by eapply remove_scan_elem.
Qed.

Lemma run_binned ops : forall k k',
  binned k -> run k ops = Some k' -> binned k'.
Proof.
  induction ops as [|o ops IH]; intros k k' Hbin; cbn [run]; [by intros [= <-]|].
  destruct (apply_op k o) as [k1|] eqn:Ho; [|done]. cbn. apply IH.
  destruct o as [n|n]; cbn [apply_op] in Ho.
  - by eapply AddNode_binned.
  - destruct (RemoveNode k n) as [[k2 err]|] eqn:HR; [|done].
    injection Ho as <-. by eapply RemoveNode_binned.
Qed.

Lemma Start_binned k0 a k1 :
  started k0 = false -> Start k0 a = Some k1 -> binned k1.
Proof.
  unfold Start. intros ->. destruct (_ <? 0); [done|]. intros [= <-] i b x.
  cbn [buckets]. intros [-> _]%lookup_replicate. by intros ?%elem_of_nil.
Qed.

(** X22.  In a table that was started and has served any sequence of
    [AddNode] and [RemoveNode] calls, every node is held by the bucket of
    its proximity bin. *)
Theorem nodes_stay_in_their_bins k0 a ops k1 k :
  started k0 = false -> Start k0 a = Some k1 -> run k1 ops = Some k ->
  forall (i : nat) b x,
    buckets k !! i = Some b -> x ∈ nodes b -> proximityBin k (Addr x) = Z.of_nat i.
Proof.
  intros Hs HS Hr. eapply run_binned; [|done]. by eapply Start_binned.
Qed.

Lemma nodes_stay_in_their_bins_witness :
  proximityBin twin_result (Addr twin_second) = Z.of_nat 3.
Proof.
  apply (nodes_stay_in_their_bins New self_addr [OpAdd twin_first; OpAdd twin_second]
           (default New (Start New self_addr)) twin_result eq_refl eq_refl)
    with (b := mkBucket 20 [twin_first; twin_second]).
  - vm_compute. reflexivity.
  - vm_compute. reflexivity.
  - right. left.
Defined.

(** *** Which way [proxLimit] moves *)

Lemma adjustProx_up k r k' :
  wf_table k -> 0 <= r <= MaxProx k ->
  adjustProx k r 1 = Some k' -> proxLimit k <= proxLimit k' <= proxLimit k + 1 \/
                                 (r = proxLimit k /\ proxLimit k < proxLimit k').
Proof.
  intros (HM & Hlen & HP & Hb) Hr. unfold adjustProx.
  assert (Hw : forall z, 0 <= z <= MaxProx k + 1 -> int_wrap z = z).
  { intros z Hz. apply int_wrap_small. unfold int_min, int_max in *. lia. }
  change (1 >? 0) with true. cbn [andb].
  destruct (Z.eqb_spec r (proxLimit k)) as [Heq|Hne].
  - rewrite Hw by lia.
    destruct (advance_loop_ok (buckets k) (MaxProx k)
                (Z.to_nat (MaxProx k - (proxLimit k + 1)))
                (proxLimit k + 1) (proxSize k)) as (l & s & -> & H1 & H2);
      [done|lia|lia|].
    cbn. intros [= <-]. cbn. right. lia.
  - destruct (Z.gtb_spec r (proxLimit k)) as [Hgt|Hle]; cbn [andb].
    + destruct (int_wrap (proxSize k + 1) >? MaxProxBinSize k).
      * destruct (slice_at (buckets k) r); [|done]. cbn.
        rewrite Hw by lia. intros [= <-]. cbn. left. lia.
      * intros [= <-]. cbn. left. lia.
    + change (1 <? 0) with false. cbn [andb]. intros [= <-]. left. lia.
Qed.

Lemma adjustProx_down k r k' :
  adjustProx k r (-1) = Some k' ->
  proxLimit k' = proxLimit k
  \/ (proxLimit k' = r /\ r < proxLimit k
      /\ exists b, slice_at (buckets k) r = Some b /\ nodes b = []).
Proof.
  unfold adjustProx. change (-1 >? 0) with false. cbn [andb].
  change (-1 <? 0) with true. cbn [andb].
  destruct (Z.ltb_spec r (proxLimit k)) as [Hlt|Hge]; [|intros [= <-]; by left].
  destruct (slice_at (buckets k) r) as [b|] eqn:Hb; [|done]. cbn.
  destruct (Z.eqb_spec (len (nodes b)) 0) as [H0|H0]; [|intros [= <-]; by left].
  destruct (rollback_loop _ _ _ _ _) as [sz|]; [|done]. cbn.
  intros [= <-]. cbn. right. split; [done|]. split; [done|].
  exists b. split; [done|]. unfold len in H0. destruct (nodes b); [done|cbn in H0; lia].
Qed.

(** X24.  [AddNode] never lowers [proxLimit], and [RemoveNode] never raises
    it: [RemoveNode] lowers it only to the bin of the node removed, and
    only when that bin lay below [proxLimit] and its bucket is empty
    afterwards. *)
Theorem proxLimit_moves_one_way k node :
  wf_table k ->
  (forall k', AddNode k node = Some k' -> proxLimit k <= proxLimit k')
  /\ (forall k' err, RemoveNode k node = Some (k', err) ->
        proxLimit k' = proxLimit k
        \/ (proxLimit k' = proximityBin k (Addr node)
            /\ proximityBin k (Addr node) < proxLimit k
            /\ exists b, slice_at (buckets k') (proximityBin k (Addr node)) = Some b
                         /\ nodes b = [])).
Proof.
  intros Hwf. pose proof Hwf as (HM & Hlen & HP & Hbs).
  pose proof (proximityBin_range k (Addr node) (proj1 HM)) as Hidx.
  split.
  - intros k'. unfold AddNode.
    destruct (slice_at (buckets k) _) as [b|] eqn:Hb; [|done]. cbn.
    destruct (insert b node) as [b'|] eqn:Hi; [|done]. cbn.
    assert (Hwb : wf_bucket b).
    { apply slice_at_Some in Hb as [_ Hb].
      rewrite Forall_lookup in Hbs. by eapply Hbs. }
    destruct (insert_wf b node Hwb) as (b2 & Hi2 & Hwb' & _).
    assert (b2 = b') as -> by congruence.
    pose proof (wf_table_set_count _ (int_wrap (count k + 1))
                  (wf_table_set_bucket k _ b b' Hwf Hb Hwb')) as Hwf2.
    match goal with |- context [adjustProx ?k2 _ _] => set (k2' := k2) in * end.
    destruct (_ >=? _); [|intros [= <-]; cbn; lia].
    intros Ha. apply adjustProx_up in Ha; [|done|done].
    change (proxLimit k2') with (proxLimit k) in Ha. lia.
  - intros k' err. unfold RemoveNode.
    destruct (slice_at (buckets k) _) as [b|] eqn:Hb; [|done].
    cbn -[adjustProx remove_loop].
    match goal with |- context [adjustProx ?k2 _ _] => set (k2' := k2) in * end.
    destruct (_ =? 0); [|intros [= <- _]; by left].
    destruct (adjustProx k2' _ _) as [k3|] eqn:Ha; [|done].
    intros [= <- _]. pose proof Ha as Hframe.
    apply adjustProx_frame in Hframe as (l & s & ->).
    apply adjustProx_down in Ha as [Ha|(H1 & H2 & b0 & Hb0 & Hn0)]; [by left|].
    right. split; [done|]. split; [done|]. by exists b0.
Qed.

Lemma proxLimit_moves_one_way_witness :
  (forall k', AddNode twin_result newcomer = Some k' ->
     proxLimit twin_result <= proxLimit k')
  /\ (forall k' err, RemoveNode twin_result newcomer = Some (k', err) ->
        proxLimit k' = proxLimit twin_result
        \/ (proxLimit k' = proximityBin twin_result (Addr newcomer)
            /\ proximityBin twin_result (Addr newcomer) < proxLimit twin_result
            /\ exists b, slice_at (buckets k') (proximityBin twin_result (Addr newcomer))
                         = Some b /\ nodes b = [])).
Proof.
  apply (proxLimit_moves_one_way twin_result newcomer).
  apply (bool_decide_unpack _). vm_compute. reflexivity.
Defined.

End TableExtFacts.

Module LookupExtFacts.
Import Kad Table TableExt KadMetric TableFacts LookupFacts.

(** *** What [push] keeps *)

Lemma Search_loop_ge f todo : forall i j, i <= Search_loop todo f i j.
Proof.
  induction todo as [|todo IH]; intros i j; cbn [Search_loop]; [lia|].
  destruct (Z.ltb_spec i j) as [Hlt|]; [|lia]. cbn zeta.
  assert (Hh : i <= i + (j - i) / 2) by (Z.div_mod_to_equations; lia).
  destruct (negb _).
  - specialize (IH (i + (j - i) / 2 + 1) j). lia.
  - apply IH.
Qed.

(** [push] adds no node but the one it is given. *)
Lemma push_elem h node lim x :
  x ∈ nbd_nodes (push h node lim) -> x = node \/ x ∈ nbd_nodes h.
Proof.
  unfold push. cbn [nbd_nodes].
  set (ix := Search _ _).
  assert (Hix : 0 <= ix) by apply Search_loop_ge.
  clearbody ix.
  set (ns1 := if _ <? lim then _ else _).
  assert (H1 : forall y, y ∈ ns1 -> y = node \/ y ∈ nbd_nodes h).
  { intros y. unfold ns1. destruct (_ <? lim); [|by right].
    intros [Hy|Hy]%elem_of_app; [by right|left].
    by apply list_elem_of_singleton in Hy. }
  clearbody ns1. unfold len.
  destruct (Z.ltb_spec ix (Z.of_nat (length ns1))) as [Hlt|]; [|apply H1].
  rewrite shift_insert by lia.
  intros Hx%subseteq_take.
  apply elem_of_app in Hx as [Hx|Hx].
  - apply H1. by eapply subseteq_take.
  - apply elem_of_cons in Hx as [->|Hx]; [by left|].
    apply H1. by eapply subseteq_drop.
Qed.

Lemma push_bucket_elem bkt limit : forall r n x,
  x ∈ nbd_nodes (push_bucket bkt limit r n).1 -> x ∈ bkt \/ x ∈ nbd_nodes r.
Proof.
  induction bkt as [|node bkt IH]; intros r n x; cbn [push_bucket]; [by right|].
  intros [Hx|Hx]%IH; [left; by right|].
  apply push_elem in Hx as [->|Hx]; [left; by left|by right].
Qed.

Lemma all_nodes_elem k i b x :
  slice_at (buckets k) i = Some b -> x ∈ nodes b -> x ∈ all_nodes k.
Proof.
  intros [_ Hb]%slice_at_Some Hx. unfold all_nodes.
  apply list_elem_of_In, in_concat. exists (nodes b).
  split; [|by apply list_elem_of_In].
  apply in_map. apply list_elem_of_In. by eapply list_elem_of_lookup_2.
Qed.

Lemma getNodes_loop_elem k max limit index fuel : forall start down n r r',
  (forall x, x ∈ nbd_nodes r -> x ∈ all_nodes k) ->
  getNodes_loop fuel k max limit index start down n r = Returns r' ->
  forall x, x ∈ nbd_nodes r' -> x ∈ all_nodes k.
Proof.
  induction fuel as [|fuel IH]; intros start down n r r' Hr; cbn [getNodes_loop]; [done|].
  destruct (slice_at (buckets k) start) as [b|] eqn:Hb; [|done].
  pose proof (push_bucket_elem (nodes b) limit r n) as Hpb.
  destruct (push_bucket (nodes b) limit r n) as [r1 n1]. cbn [fst] in Hpb.
  assert (Hr1 : forall x, x ∈ nbd_nodes r1 -> x ∈ all_nodes k).
  { intros x [Hx|Hx]%Hpb; [by eapply all_nodes_elem|by apply Hr]. }
  destruct (getNodes_break _ _ _ _ _ _ _); [by intros [= <-]|].
  destruct down; [by apply IH|].
  destruct (start =? MaxProx k); [|by apply IH].
  destruct (index =? 0); [by intros [= <-]|by apply IH].
Qed.

(** X10.  For every [max] that is not negative [GetNodes] returns; it
    returns nodes of the table only; with [max = 0] it returns at most 1000
    of them, in order of non-decreasing distance to the target. *)
Theorem GetNodes_returns_nodes_of_the_table k target max :
  wf_table k -> nodes_wf k -> wf_address target -> 0 <= max ->
  exists res,
    GetNodes k target max = Returns res
    /\ (forall x, x ∈ res -> x ∈ all_nodes k)
    /\ (max = 0 -> len res <= 1000 /\ StronglySorted (dist_le target) res).
Proof.
  intros Hwf Hn Ht Hmax.
  destruct (getNodes_returns k target max Hwf Hn Ht Hmax) as (r & Hr & Hc).
  unfold GetNodes. rewrite Hr. exists (nbd_nodes r). split; [done|]. split.
  - revert Hr. unfold getNodes.
    destruct (_ >=? _); apply getNodes_loop_elem; by intros x Hx%elem_of_nil.
  - intros ->. cbn in Hc. by destruct Hc as (_ & _ & Hs & Hl).
Qed.

Lemma GetNodes_returns_nodes_of_the_table_witness :
  exists res,
    GetNodes twin_result (Addr newcomer) 0 = Returns res
    /\ (forall x, x ∈ res -> x ∈ all_nodes twin_result)
    /\ (0 = 0 -> len res <= 1000 /\ StronglySorted (dist_le (Addr newcomer)) res).
Proof.
  apply (GetNodes_returns_nodes_of_the_table twin_result (Addr newcomer) 0).
  - apply (bool_decide_unpack _). vm_compute. reflexivity.
  - apply (bool_decide_unpack _). vm_compute. reflexivity.
  - apply (bool_decide_unpack _). vm_compute. reflexivity.
  - lia.
Defined.

(** *** Looking up an address that is in the table *)

Section Found.

Variable target : Address.
Hypothesis target_wf : wf_address target.

Lemma node_distance_zero x :
  wf_node x -> (node_distance target x = 0 <-> Addr x = target).
Proof using target_wf.
  intros [Lx Bx]. destruct target_wf as [Lt Bt].
  unfold node_distance, distance. split.
  - apply xor_bytes_zero; congruence || done.
  - intros ->. apply xor_bytes_self.
Qed.

Lemma node_distance_nonneg x : wf_node x -> 0 <= node_distance target x.
Proof using target_wf.
  intros Hx. unfold node_distance.
  pose proof (distance_range (Addr x) target Hx target_wf). lia.
Qed.

(** Once a node of the target's address heads the list, or when such a node
    is pushed, a node of that address heads the list. *)
Lemma push_headed h node lim :
  0 < lim -> nbd_target h = target ->
  Forall wf_node (nbd_nodes h) -> wf_node node ->
  StronglySorted (dist_le target) (nbd_nodes h) ->
  Addr node = target \/ headed_by target h ->
  headed_by target (push h node lim).
Proof using target_wf.
  intros Hlim Ht Hwf Hn Hs Hc.
  destruct (push_spec target target_wf h node lim Ht Hwf Hn Hs)
    as (ix & Hix & Hlt & Hge & Heq & _).
  unfold headed_by in *. rewrite Heq. clear Heq.
  set (ns := nbd_nodes h) in *.
  assert (Hm : exists m, (if len ns <? lim then S (length ns) else length ns) = S m).
  { destruct (Z.ltb_spec (len ns) lim); [by eexists|].
    unfold len in *. destruct (length ns); [lia|by eexists]. }
  destruct Hm as [m ->].
  pose proof (node_distance_nonneg node Hn) as Hn0.
  destruct Hc as [Hnode|(y & Hy & Hya)].
  - destruct (take ix ns) as [|z zs] eqn:Htk; [by exists node|].
    exfalso. apply Forall_cons in Hlt as [Hz _].
    assert (Hwz : wf_node z).
    { rewrite Forall_forall in Hwf. apply Hwf.
      apply (subseteq_take ix ns). rewrite Htk. by left. }
    rewrite (proxCmp_key target target_wf) in Hz by done.
    apply (node_distance_zero node Hn) in Hnode.
    pose proof (node_distance_nonneg z Hwz).
    destruct (Z.compare_spec (node_distance target z) (node_distance target node)); lia.
  - destruct ns as [|y' ns0]; [done|]. cbn in Hy. injection Hy as ->.
    destruct ix as [|ix]; [|by exists y].
    exists node. split; [done|].
    apply Forall_cons in Hge as [Hyn _].
    apply Forall_cons in Hwf as [Hwy _].
    rewrite (proxCmp_key target target_wf) in Hyn by done.
    apply (node_distance_zero y Hwy) in Hya.
    apply (node_distance_zero node Hn).
    destruct (Z.compare_spec (node_distance target y) (node_distance target node)); lia.
Qed.

Lemma push_bucket_headed lim bkt : forall r n,
  0 < lim -> Forall wf_node bkt -> collected target lim r ->
  headed_by target r \/ (exists x, x ∈ bkt /\ Addr x = target) ->
  headed_by target (push_bucket bkt lim r n).1.
Proof using target_wf.
  induction bkt as [|node bkt IH]; intros r n Hlim Hb Hr Hc; cbn [push_bucket].
  { destruct Hc as [|(x & Hx & _)]; [done|by apply elem_of_nil in Hx]. }
  apply Forall_cons in Hb as [Hn Hb].
  destruct Hr as (Ht & Hwf & Hs & Hl).
  destruct (push_sorted target target_wf r node lim Ht Hwf Hn Hs)
    as (Hs' & Hwf' & Ht' & Hl').
  assert (Hr' : collected target lim (push r node lim)).
  { split; [done|]. split; [done|]. split; [done|]. apply Hl'; lia. }
  apply IH; try done.
  destruct Hc as [Hh|(x & Hx & Hxa)].
  - left. apply push_headed; try done. by right.
  - apply elem_of_cons in Hx as [->|Hx].
    + left. apply push_headed; try done. by left.
    + right. by exists x.
Qed.

Variable k : Kademlia.
Variables max index idx : Z.
Hypothesis k_wf : wf_table k.
Hypothesis k_nodes : nodes_wf k.
Hypothesis max_pos : 0 < max.
Hypothesis index_range : 0 <= index <= MaxProx k.
Hypothesis target_in_table :
  exists b x, slice_at (buckets k) idx = Some b /\ x ∈ nodes b /\ Addr x = target.

Lemma getNodes_loop_headed fuel : forall start down n r r',
  0 <= start <= MaxProx k ->
  collected target max r ->
  headed_by target r \/ on_the_way index idx start down ->
  getNodes_loop fuel k max max index start down n r = Returns r' ->
  headed_by target r'.
Proof using All.
  pose proof k_wf as (HM & Hlen & HP & Hbs).
  assert (Hw : forall z, 0 <= z <= MaxProx k -> int_wrap z = z).
  { intros z Hz. apply int_wrap_small. unfold int_min, int_max in *. lia. }
  induction fuel as [|fuel IH]; intros start down n r r' Hstart Hr Hc;
    cbn [getNodes_loop]; [done|].
  destruct (slice_at (buckets k) start) as [b|] eqn:Hb; [|done].
  assert (Hbw : Forall wf_node (nodes b)).
  { apply slice_at_Some in Hb as [_ Hb'].
    unfold nodes_wf in k_nodes. rewrite Forall_lookup in k_nodes. by eapply k_nodes. }
  pose proof (push_bucket_collected target max target_wf ltac:(lia) (nodes b) r n Hbw Hr)
    as Hr1.
  pose proof (push_bucket_headed max (nodes b) r n max_pos Hbw Hr) as Hh1.
  destruct (push_bucket (nodes b) max r n) as [r1 n1]. cbn [fst] in Hr1, Hh1.
  assert (Hcases : headed_by target r1
                   \/ (down = true /\ index <= idx < start)).
  { destruct Hc as [Hh|Hway]; [left; apply Hh1; by left|].
    destruct (Z.eq_dec start idx) as [->|Hne].
    - left. apply Hh1. right.
      destruct target_in_table as (b0 & x & Hb0 & Hx & Hxa).
      assert (b0 = b) as -> by congruence. by exists x.
    - right. unfold on_the_way in Hway. destruct down; [split; [done|lia]|lia]. }
  destruct (getNodes_break k max max index start down n1) eqn:Hbrk.
  { intros [= <-]. destruct Hcases as [|[-> Hlt]]; [done|].
    exfalso. unfold getNodes_break in Hbrk.
    destruct (Z.eqb_spec max 0); [lia|].
    destruct (Z.leb_spec start index); [lia|].
    cbn in Hbrk. by rewrite andb_false_r in Hbrk. }
  destruct down.
  - assert (start <> 0).
    { intros ->.
      by rewrite (getNodes_break_at_0 k max max index ltac:(lia) index_range) in Hbrk. }
    rewrite Hw by lia. apply IH; [lia|done|].
    destruct Hcases as [|[_ Hlt]]; [by left|right]. unfold on_the_way. lia.
  - destruct Hcases as [Hh|[? _]]; [|done].
    destruct (Z.eqb_spec start (MaxProx k)).
    + destruct (Z.eqb_spec index 0); [by intros [= <-]|].
      rewrite Hw by lia. apply IH; [lia|done|by left].
    + rewrite Hw by lia. apply IH; [lia|done|by left].
Qed.

End Found.

Lemma getNodes_headed k target max b x :
  wf_table k -> nodes_wf k -> wf_address target -> 0 < max ->
  slice_at (buckets k) (proximityBin k target) = Some b ->
  x ∈ nodes b -> Addr x = target ->
  forall r, getNodes k target max = Returns r -> headed_by target r.
Proof.
  intros Hwf Hn Ht Hmax Hb Hx Hxa r. pose proof Hwf as (HM & Hlen & HP & Hbs).
  unfold getNodes.
  pose proof (proximityBin_range k target (proj1 HM)) as Hbin.
  destruct (Z.eqb_spec max 0); [lia|].
  assert (Hc0 : collected target max (mkNodesByDistance [] target)).
  { split; [done|]. split; [constructor|]. split; [constructor|]. unfold len. cbn. lia. }
  assert (Hin : exists b x, slice_at (buckets k) (proximityBin k target) = Some b
                            /\ x ∈ nodes b /\ Addr x = target) by (by exists b, x).
  destruct (Z.geb_spec (proximityBin k target) (proxLimit k)) as [Hge|Hlt].
  - apply (getNodes_loop_headed target Ht k max (proxLimit k) (proximityBin k target));
      try done; try lia.
    right. unfold on_the_way. lia.
  - apply (getNodes_loop_headed target Ht k max (proximityBin k target)
             (proximityBin k target)); try done; try lia.
    by right.
Qed.

(** X11.  A node that has been added is found: after [AddNode(node)],
    [GetNodes(node.Addr(), max)] with [max > 0] returns a list whose first
    node has the address of [node]. *)
Theorem added_node_is_found k node max :
  wf_table k -> nodes_wf k -> wf_node node -> 0 < max ->
  exists k' first rest,
    AddNode k node = Some k'
    /\ GetNodes k' (Addr node) max = Returns (first :: rest)
    /\ Addr first = Addr node.
Proof.
  intros Hwf Hn Hnode Hmax.
  destruct (AddNode_ok k node Hwf) as (k' & HA & Hwf' & _).
  pose proof (AddNode_nodes_wf k node k' Hwf Hn Hnode HA) as Hn'.
  destruct (getNodes_returns k' (Addr node) max Hwf' Hn' Hnode ltac:(lia))
    as (r & Hr & _).
  pose proof (TableExtFacts.AddNode_parameters k node k' HA) as (Pa & PM & _).
  pose proof HA as HA'.
  apply TableFacts.AddNode_frame in HA' as (b & b' & l & s & Hb & Hi & Hk').
  assert (Hidx : proximityBin k' (Addr node) = proximityBin k (Addr node)).
  { unfold proximityBin. by rewrite Pa, PM. }
  assert (Hb' : slice_at (buckets k') (proximityBin k' (Addr node)) = Some b').
  { rewrite Hidx, Hk'. cbn [buckets set_prox set_count set_buckets].
    apply slice_at_Some in Hb as [Hr0 Hb].
    unfold slice_at, len. rewrite length_insert.
    unfold len in Hr0.
    destruct (Z.leb_spec 0 (proximityBin k (Addr node))); [|lia].
    destruct (Z.ltb_spec (proximityBin k (Addr node)) (Z.of_nat (length (buckets k))));
      [|lia].
    cbn. apply list_lookup_insert_eq. lia. }
  assert (Hin : node ∈ nodes b').
  { assert (Hwb : wf_bucket b).
    { destruct Hwf as (_ & _ & _ & Hbs). apply slice_at_Some in Hb as [_ Hb].
      rewrite Forall_lookup in Hbs. by eapply Hbs. }
    destruct (insert_wf b node Hwb) as (b2 & Hi2 & _ & _ & Hlt & Hge).
    assert (b2 = b') as -> by congruence.
    destruct (Z.lt_ge_cases (len (nodes b)) (size b)) as [H|H].
    - rewrite (Hlt H). apply elem_of_app. right. by apply list_elem_of_singleton.
    - rewrite (Hge ltac:(lia)).
      assert (nodes b <> []) as Hne.
      { intros E. rewrite E in H. destruct Hwb as [? _]. unfold len in H. cbn in H. lia. }
      pose proof (worstNode_range b Hne) as Hw.
      eapply list_elem_of_lookup_2 with (i := Z.to_nat (worstNode b)).
      apply list_lookup_insert_eq. unfold len in Hw. lia. }
  destruct (getNodes_headed k' (Addr node) max b' node Hwf' Hn' Hnode Hmax Hb' Hin
              eq_refl r Hr) as (y & Hy & Hya).
  destruct (nbd_nodes r) as [|first rest] eqn:Hns; [done|].
  cbn in Hy. injection Hy as ->.
  exists k', y, rest. split; [done|]. split; [|done].
  unfold GetNodes. by rewrite Hr, Hns.
Qed.

Lemma added_node_is_found_witness :
  exists k' first rest,
    AddNode twin_result newcomer = Some k'
    /\ GetNodes k' (Addr newcomer) 3 = Returns (first :: rest)
    /\ Addr first = Addr newcomer.
Proof.
  apply (added_node_is_found twin_result newcomer 3).
  - apply (bool_decide_unpack _). vm_compute. reflexivity.
  - apply (bool_decide_unpack _). vm_compute. reflexivity.
  - apply (bool_decide_unpack _). vm_compute. reflexivity.
  - lia.
Defined.

(** *** A negative [max] *)

Lemma push_negative target node lim :
  lim <= 0 ->
  push (mkNodesByDistance [] target) node lim = mkNodesByDistance [] target.
Proof.
  intros Hlim. unfold push, Search, len. cbn [nbd_nodes nbd_target length].
  change (Z.of_nat 0) with 0.
  destruct (Z.ltb_spec 0 lim); [lia|]. reflexivity.
Qed.

Lemma push_bucket_negative target lim bkt : forall n,
  lim <= 0 ->
  (push_bucket bkt lim (mkNodesByDistance [] target) n).1 = mkNodesByDistance [] target.
Proof.
  induction bkt as [|node bkt IH]; intros n Hlim; cbn [push_bucket]; [done|].
  rewrite push_negative by done. by apply IH.
Qed.

Lemma getNodes_break_negative k max limit index start down n :
  max < 0 -> getNodes_break k max limit index start down n = false.
Proof.
  intros Hmax. unfold getNodes_break.
  destruct (Z.eqb_spec max 0); [lia|]. destruct (Z.gtb_spec max 0); [lia|]. done.
Qed.

Section NegativeMax.

Variable k : Kademlia.
Variable target : Address.
Variables max index : Z.
Hypothesis k_wf : wf_table k.
Hypothesis max_neg : max < 0.

Lemma getNodes_loop_negative_down fuel : forall start n,
  -1 <= start <= MaxProx k -> start + 2 <= Z.of_nat fuel ->
  getNodes_loop fuel k max max index start true n (mkNodesByDistance [] target)
  = Panics.
Proof using All.
  pose proof k_wf as (HM & Hlen & HP & Hbs).
  induction fuel as [|fuel IH]; intros start n Hstart Hfuel; [lia|].
  cbn [getNodes_loop].
  destruct (Z.eq_dec start (-1)) as [->|Hne]; [done|].
  destruct (slice_at_is_Some (buckets k) start) as [b ->]; [lia|].
  pose proof (push_bucket_negative target max (nodes b) n ltac:(lia)) as Hr1.
  destruct (push_bucket (nodes b) max _ n) as [r1 n1]. cbn [fst] in Hr1. subst r1.
  rewrite getNodes_break_negative by done.
  rewrite int_wrap_small by (unfold int_min, int_max in *; lia).
  apply IH; lia.
Qed.

Lemma getNodes_loop_negative_up fuel : forall start n,
  0 <= start <= MaxProx k -> 0 <= index <= MaxProx k ->
  MaxProx k - start + index + 2 <= Z.of_nat fuel ->
  getNodes_loop fuel k max max index start false n (mkNodesByDistance [] target)
  = if index =? 0 then Returns (mkNodesByDistance [] target) else Panics.
Proof using All.
  pose proof k_wf as (HM & Hlen & HP & Hbs).
  induction fuel as [|fuel IH]; intros start n Hstart Hindex Hfuel; [lia|].
  cbn [getNodes_loop].
  destruct (slice_at_is_Some (buckets k) start) as [b ->]; [lia|].
  pose proof (push_bucket_negative target max (nodes b) n ltac:(lia)) as Hr1.
  destruct (push_bucket (nodes b) max _ n) as [r1 n1]. cbn [fst] in Hr1. subst r1.
  rewrite getNodes_break_negative by done.
  destruct (Z.eqb_spec start (MaxProx k)) as [Heq|Hne].
  - destruct (Z.eqb_spec index 0); [done|].
    rewrite int_wrap_small by (unfold int_min, int_max in *; lia).
    apply getNodes_loop_negative_down; lia.
  - rewrite int_wrap_small by (unfold int_min, int_max in *; lia).
    apply IH; lia.
Qed.

End NegativeMax.

(** X12.  With a negative [max] no round of [getNodes] meets the test that
    ends the loop, and nothing is collected.  The walk down the buckets
    runs into [self.buckets[-1]], a run-time panic; only a target of bin 0,
    with [proxLimit > 0], lets the walk up end at [MaxProx] with an empty
    result. *)
Theorem GetNodes_negative_max k target max :
  wf_table k -> max < 0 ->
  GetNodes k target max =
    if (proximityBin k target <? proxLimit k) && (proximityBin k target =? 0)
    then Returns [] else Panics.
Proof.
  intros Hwf Hmax. pose proof Hwf as (HM & Hlen & HP & Hbs).
  pose proof (proximityBin_range k target (proj1 HM)) as Hbin.
  unfold GetNodes, getNodes.
  destruct (Z.eqb_spec max 0); [lia|].
  rewrite Z.geb_leb.
  destruct (Z.leb_spec (proxLimit k) (proximityBin k target)) as [Hle|Hlt].
  - destruct (Z.ltb_spec (proximityBin k target) (proxLimit k)); [lia|]. cbn [andb].
    rewrite (getNodes_loop_negative_down k target max (proxLimit k) Hwf Hmax);
      [done|lia|unfold getNodes_fuel; lia].
  - destruct (Z.ltb_spec (proximityBin k target) (proxLimit k)); [|lia]. cbn [andb].
    rewrite (getNodes_loop_negative_up k target max (proximityBin k target) Hwf Hmax);
      [|lia|lia|unfold getNodes_fuel; lia].
    by destruct (_ =? 0).
Qed.

Lemma GetNodes_negative_max_witness :
  GetNodes twin_result (Addr twin_first) (-1) = Panics.
Proof.
  apply (GetNodes_negative_max twin_result (Addr twin_first) (-1)).
  - apply (bool_decide_unpack _). vm_compute. reflexivity.
  - lia.
Defined.

(** *** [sortedByDistanceTo] *)

Lemma proxCmp_nonneg_dist_le target x y :
  wf_address target -> wf_node x -> wf_node y ->
  (proxCmp target (Addr x) (Addr y) <? 0) = false <-> dist_le target y x.
Proof.
  intros Ht Hx Hy. rewrite Z.ltb_ge.
  rewrite (dist_le_key target Ht) by done.
  rewrite (proxCmp_key target Ht) by done.
  destruct (Z.compare_spec (node_distance target x) (node_distance target y)); lia.
Qed.

Lemma dist_le_trans target x y z :
  wf_address target -> wf_node x -> wf_node y -> wf_node z ->
  dist_le target x y -> dist_le target y z -> dist_le target x z.
Proof.
  intros Ht Hx Hy Hz. rewrite !(dist_le_key target Ht) by done. lia.
Qed.

Lemma sortedByDistanceTo_loop_true target l : forall i prev,
  wf_address target -> wf_node prev -> Forall wf_node l -> 0 < i ->
  sortedByDistanceTo_loop target l i (Addr prev) = true ->
  StronglySorted (dist_le target) (prev :: l).
Proof.
  induction l as [|x l IH]; intros i prev Ht Hp Hwf Hi; cbn [sortedByDistanceTo_loop].
  { intros _. repeat constructor. }
  apply Forall_cons in Hwf as [Hx Hwf].
  destruct (Z.gtb_spec i 0); [|lia]. cbn [andb].
  destruct (proxCmp target (Addr x) (Addr prev) <? 0) eqn:Hcmp; [done|].
  apply proxCmp_nonneg_dist_le in Hcmp; [|done..].
  intros Hrest. apply (IH (i + 1) x Ht Hx Hwf ltac:(lia)) in Hrest.
  constructor; [done|]. constructor; [done|].
  apply StronglySorted_cons in Hrest as [Hxl _].
  rewrite Forall_forall in Hxl, Hwf. apply Forall_forall. intros y Hy.
  eapply (dist_le_trans target prev x y); try done; [by apply Hwf|by apply Hxl].
Qed.

(** X13.  [sortedByDistanceTo], which compares each node with the one
    before it, accepts exactly the lists in which no node is farther from
    the target than any later one. *)
Theorem sortedByDistanceTo_iff_sorted target l :
  wf_address target -> Forall wf_node l ->
  sortedByDistanceTo target l = true <-> StronglySorted (dist_le target) l.
Proof.
  intros Ht Hwf. split; [|by apply sortedByDistanceTo_sorted].
  unfold sortedByDistanceTo. destruct l as [|x l]; [constructor|].
  apply Forall_cons in Hwf as [Hx Hwf].
  cbn [sortedByDistanceTo_loop]. change (0 >? 0) with false. cbn [andb].
  by apply sortedByDistanceTo_loop_true.
Qed.

Lemma sortedByDistanceTo_iff_sorted_witness :
  sortedByDistanceTo self_addr [newcomer; never_active] = true
  <-> StronglySorted (dist_le self_addr) [newcomer; never_active].
Proof.
  apply (sortedByDistanceTo_iff_sorted self_addr [newcomer; never_active]).
  - apply (bool_decide_unpack _). vm_compute. reflexivity.
  - repeat constructor; apply (bool_decide_unpack _); vm_compute; reflexivity.
Defined.

(** *** The nodes returned are the nearest *)

Lemma proximity_lt_distance t a b :
  wf_address t -> wf_address a -> wf_address b ->
  proximity t a < proximity t b -> distance b t < distance a t.
Proof.
  intros Ht Ha Hb. rewrite !proximity_leading_zeros by done.
  assert (Ea : distance t a = distance a t) by (unfold distance; by rewrite xor_bytes_comm).
  assert (Eb : distance t b = distance b t) by (unfold distance; by rewrite xor_bytes_comm).
  rewrite Ea, Eb. intros Hlt.
  pose proof (distance_range a t Ha Ht) as Ra.
  pose proof (distance_range b t Hb Ht) as Rb.
  destruct (Z.lt_ge_cases (distance b t) (distance a t)) as [|Hge]; [done|].
  pose proof (leading_zeros_antimono 256 (distance a t) (distance b t)
                ltac:(lia) ltac:(lia)). lia.
Qed.

(** Seen from a target of bin [idx], the nodes of a bucket above [j] are
    nearer than those of bucket [j] when [j] is below [idx], and the nodes
    of bucket [idx] are nearer than those of every bucket above it. *)
Lemma bins_closer k t a b :
  wf_address (addr k) -> wf_address t -> wf_address a -> wf_address b ->
  0 <= MaxProx k ->
  (proximityBin k a < proximityBin k b /\ proximityBin k a < proximityBin k t)
  \/ (proximityBin k b = proximityBin k t /\ proximityBin k t < proximityBin k a) ->
  distance b t < distance a t.
Proof.
  intros Hs Ht Ha Hb HM Hcase.
  apply proximity_lt_distance; try done.
  pose proof (proximityBin_range k a HM) as Rja.
  pose proof (proximityBin_range k b HM) as Rib.
  pose proof (proximityBin_range k t HM) as Rt.
  pose proof (TableExtFacts.proximityBin_ge k a HM) as Ga.
  pose proof (TableExtFacts.proximityBin_ge k b HM) as Gb.
  pose proof (TableExtFacts.proximityBin_ge k t HM) as Gt.
  pose proof (KadExtFacts.proximity_sym t (addr k) Ht Hs) as Sts.
  destruct Hcase as [[Hji Hjt]|[Hit Htj]].
  - pose proof (TableExtFacts.proximityBin_exact k a ltac:(lia)) as Ea.
    pose proof (KadExtFacts.proximity_min (addr k) t b Hs Ht Hb) as M1.
    pose proof (KadExtFacts.proximity_min t (addr k) a Ht Hs Ha) as M2.
    lia.
  - pose proof (TableExtFacts.proximityBin_exact k b ltac:(lia)) as Eb.
    pose proof (TableExtFacts.proximityBin_exact k t ltac:(lia)) as Et.
    pose proof (KadExtFacts.proximity_range (addr k) a Hs Ha) as Ra.
    pose proof (KadExtFacts.proximity_same_bin (addr k) t b Hs Ht Hb
                  ltac:(lia) ltac:(lia)) as Hbin.
    pose proof (KadExtFacts.proximity_min a (addr k) t Ha Hs Ht) as M2.
    pose proof (KadExtFacts.proximity_sym a (addr k) Ha Hs) as Sas.
    pose proof (KadExtFacts.proximity_sym a t Ha Ht) as Sat.
    lia.
Qed.

Lemma all_nodes_inv k x :
  x ∈ all_nodes k ->
  exists i b, slice_at (buckets k) i = Some b /\ x ∈ nodes b.
Proof.
  unfold all_nodes. intros Hx.
  apply list_elem_of_In, in_concat in Hx as (l & Hl & Hx).
  apply in_map_iff in Hl as (b & <- & Hb).
  apply list_elem_of_In, list_elem_of_lookup_1 in Hb as (n & Hn).
  exists (Z.of_nat n), b. split; [|by apply list_elem_of_In].
  unfold slice_at, len. pose proof (lookup_lt_Some _ _ _ Hn).
  destruct (Z.leb_spec 0 (Z.of_nat n)); [|lia].
  destruct (Z.ltb_spec (Z.of_nat n) (Z.of_nat (length (buckets k)))); [|lia].
  cbn. by rewrite Nat2Z.id.
Qed.

Section Nearest.

Variable target : Address.
Hypothesis target_wf : wf_address target.

Lemma dist_le_refl x : wf_node x -> dist_le target x x.
Proof using target_wf. intros Hx. apply dist_le_key; [done..|lia]. Qed.

Lemma sorted_last ns z :
  StronglySorted (dist_le target) (ns ++ [z]) ->
  forall y, y ∈ ns -> dist_le target y z.
Proof.
  intros (H & _ & _)%StronglySorted_app y Hy. apply H; [done|by left].
Qed.

(** [push] keeps the nearest: what it leaves out of a full collection is
    not nearer than anything it keeps. *)
Lemma push_covered h node lim x :
  0 < lim -> collected target lim h -> wf_node node -> wf_node x ->
  x = node \/ covered target lim h x ->
  covered target lim (push h node lim) x.
Proof using target_wf.
  intros Hlim (Ht & Hwf & Hs & Hl) Hn Hx Hc.
  destruct (push_spec target target_wf h node lim Ht Hwf Hn Hs)
    as (ix & Hix & Hlt & Hge & Heq & _).
  unfold covered in *. rewrite Heq. clear Heq.
  set (ns := nbd_nodes h) in *.
  destruct (Z.ltb_spec (len ns) lim) as [Hroom|Hfull].
  - rewrite take_ge
      by (rewrite length_app, length_take; cbn [length]; rewrite length_drop; lia).
    left. destruct Hc as [->|[Hin|[Hfull _]]]; [| |lia].
    + apply elem_of_app. right. by left.
    + rewrite <- (take_drop ix ns) in Hin.
      apply elem_of_app in Hin as [Hin|Hin]; apply elem_of_app; [by left|].
      right. by right.
  - assert (Hlen : len ns = lim) by lia.
    remember (drop ix ns) as dr eqn:Hdr.
    destruct dr as [|z d _] using rev_ind.
    + assert (Hixl : ix = length ns).
      { assert (length (drop ix ns) = 0%nat) as Hd by (by rewrite <- Hdr).
        rewrite length_drop in Hd. lia. }
      subst ix. rewrite firstn_all in *. rewrite take_app_length.
      destruct Hc as [->|Hc]; [|done].
      right. split; [lia|]. intros y Hy.
      rewrite Forall_forall in Hlt. specialize (Hlt y Hy). unfold dist_le. lia.
    + assert (Ens : ns = (take ix ns ++ d) ++ [z]).
      { rewrite <- app_assoc, Hdr. by rewrite take_drop. }
      assert (Hwz : wf_node z).
      { rewrite Forall_forall in Hwf. apply Hwf. rewrite Ens.
        apply elem_of_app. right. by left. }
      assert (Hnz : dist_le target node z).
      { apply proxCmp_nonneg_dist_le; try done.
        rewrite Forall_forall in Hge.
        assert (Hzin : z ∈ d ++ [z]) by (apply elem_of_app; right; by left).
        specialize (Hge z Hzin). apply Z.ltb_ge. lia. }
      assert (Hnsz : forall y, y ∈ ns -> dist_le target y z).
      { intros y Hy. rewrite Ens in Hy, Hs.
        apply elem_of_app in Hy as [Hy|Hy]; [by eapply sorted_last|].
        apply list_elem_of_singleton in Hy as ->. by apply dist_le_refl. }
      assert (Hd : (length d + 1 = length ns - ix)%nat).
      { rewrite <- (length_drop ns ix), <- Hdr, length_app. cbn [length]. lia. }
      assert (Hlk : length (take ix ns ++ node :: d) = length ns).
      { rewrite length_app, length_take. cbn [length]. lia. }
      assert (Hkeep : take (length ns) (take ix ns ++ node :: d ++ [z])
                      = take ix ns ++ node :: d).
      { change (node :: d ++ [z]) with ((node :: d) ++ [z]). rewrite app_assoc.
        by apply take_app_length'. }
      rewrite Hkeep.
      assert (Hl' : len (take ix ns ++ node :: d) = lim).
      { rewrite <- Hlen. unfold len. by rewrite Hlk. }
      assert (Hsub : forall y, y ∈ take ix ns ++ node :: d -> y = node \/ y ∈ ns).
      { intros y [Hy|Hy]%elem_of_app.
        - right. by eapply subseteq_take.
        - apply elem_of_cons in Hy as [->|Hy]; [by left|].
          right. rewrite Ens. apply elem_of_app. left. apply elem_of_app. by right. }
      destruct Hc as [->|[Hin|[_ Hbeat]]].
      * left. apply elem_of_app. right. by left.
      * rewrite Ens in Hin.
        apply elem_of_app in Hin as [Hin|Hin].
        -- left. apply elem_of_app in Hin as [Hin|Hin]; apply elem_of_app;
             [by left|right; by right].
        -- apply list_elem_of_singleton in Hin as ->.
           right. split; [lia|]. intros y [->|Hy]%Hsub; [done|by apply Hnsz].
      * right. split; [lia|]. intros y [->|Hy]%Hsub; [|by apply Hbeat].
        eapply (dist_le_trans target node z x); try done.
        apply Hbeat. rewrite Ens. apply elem_of_app. right. by left.
Qed.

Lemma push_bucket_covered lim bkt : forall r n x,
  0 < lim -> Forall wf_node bkt -> collected target lim r -> wf_node x ->
  x ∈ bkt \/ covered target lim r x ->
  covered target lim (push_bucket bkt lim r n).1 x.
Proof using target_wf.
  induction bkt as [|node bkt IH]; intros r n x Hlim Hb Hr Hx Hc; cbn [push_bucket].
  { destruct Hc as [Hin|]; [by apply elem_of_nil in Hin|done]. }
  apply Forall_cons in Hb as [Hn Hb].
  pose proof Hr as (Ht & Hwf & Hs & Hl).
  destruct (push_sorted target target_wf r node lim Ht Hwf Hn Hs)
    as (Hs' & Hwf' & Ht' & Hl').
  assert (Hr' : collected target lim (push r node lim)).
  { split; [done|]. split; [done|]. split; [done|]. apply Hl'; lia. }
  apply IH; try done.
  destruct Hc as [Hin|Hc].
  - apply elem_of_cons in Hin as [->|Hin]; [|by left].
    right. apply push_covered; try done. by left.
  - right. apply push_covered; try done. by right.
Qed.

Variable k : Kademlia.
Variables max lim index : Z.
Hypothesis k_wf : wf_table k.
Hypothesis k_nodes : nodes_wf k.
Hypothesis k_binned : binned k.
Hypothesis self_wf : wf_address (addr k).
Hypothesis max_nonneg : 0 <= max.
Hypothesis lim_pos : 0 < lim.
Hypothesis index_range : 0 <= index <= proximityBin k target.

Lemma bucket_node_wf i b x :
  slice_at (buckets k) i = Some b -> x ∈ nodes b -> wf_node x.
Proof using k_nodes.
  intros [_ Hb]%slice_at_Some Hx.
  unfold nodes_wf in k_nodes. rewrite Forall_lookup in k_nodes.
  specialize (k_nodes _ _ Hb). rewrite Forall_forall in k_nodes. by apply k_nodes.
Qed.

Lemma bucket_node_bin i b x :
  slice_at (buckets k) i = Some b -> x ∈ nodes b -> proximityBin k (Addr x) = i.
Proof using k_binned.
  intros [Hr Hb]%slice_at_Some Hx. rewrite (k_binned _ _ _ Hb Hx). lia.
Qed.

(** With the buckets [V] pushed, the collected nodes are the nearest of the
    table if every bucket outside [V] lies, seen from the target, behind
    the buckets of [V]. *)
Lemma nearest_from_visited (V : Z -> Prop) r :
  (forall j, V j \/ ~ V j) ->
  (forall y, y ∈ nbd_nodes r ->
     exists i b, V i /\ slice_at (buckets k) i = Some b /\ y ∈ nodes b) ->
  (forall i b x, V i -> slice_at (buckets k) i = Some b -> x ∈ nodes b ->
     covered target lim r x) ->
  (forall j i, 0 <= j <= MaxProx k -> 0 <= i <= MaxProx k -> ~ V j -> V i ->
     (j < i /\ j < proximityBin k target)
     \/ (i = proximityBin k target /\ proximityBin k target < j)) ->
  nearest_of k target (nbd_nodes r).
Proof using k_wf k_nodes k_binned self_wf target_wf.
  intros Hdec Hfrom Hcov Hout x Hx.
  pose proof k_wf as (HM & Hlen & _).
  apply all_nodes_inv in Hx as (j & bj & Hbj & Hxj).
  destruct (Hdec j) as [HV|HnV].
  - destruct (Hcov j bj x HV Hbj Hxj) as [Hin|[_ Hbeat]]; [by left|by right].
  - right. intros y Hy.
    destruct (Hfrom y Hy) as (i & bi & HVi & Hbi & Hyi).
    pose proof (bucket_node_wf _ _ _ Hbj Hxj) as Hwx.
    pose proof (bucket_node_wf _ _ _ Hbi Hyi) as Hwy.
    pose proof (bucket_node_bin _ _ _ Hbj Hxj) as Hjx.
    pose proof (bucket_node_bin _ _ _ Hbi Hyi) as Hiy.
    apply slice_at_Some in Hbj as [Rj _]. apply slice_at_Some in Hbi as [Ri _].
    apply dist_le_key; try done. unfold node_distance.
    apply Z.lt_le_incl.
    apply (bins_closer k target (Addr x) (Addr y)); try done; [lia|].
    rewrite Hjx, Hiy. apply Hout; try done; lia.
Qed.

Lemma getNodes_break_start start down n1 :
  getNodes_break k max lim index start down n1 = true ->
  start <= index /\ (down = false -> max = 0).
Proof.
  unfold getNodes_break.
  intros [H|H]%orb_true_iff.
  - apply andb_true_iff in H as [H _]. apply andb_true_iff in H as [H1 H2].
    apply Z.eqb_eq in H1. apply Z.leb_le in H2. done.
  - apply andb_true_iff in H as [H _]. apply andb_true_iff in H as [H H2].
    apply andb_true_iff in H as [_ Hd]. apply Z.leb_le in H2.
    split; [done|]. intros ->. done.
Qed.

Lemma getNodes_loop_nearest fuel : forall start down n r r',
  0 <= start <= MaxProx k ->
  (down = false -> index = proximityBin k target /\ index <= start) ->
  collected target lim r ->
  (forall y, y ∈ nbd_nodes r ->
     exists i b, visited k index start down i
                 /\ slice_at (buckets k) i = Some b /\ y ∈ nodes b) ->
  (forall i b x, visited k index start down i ->
     slice_at (buckets k) i = Some b -> x ∈ nodes b -> covered target lim r x) ->
  getNodes_loop fuel k max lim index start down n r = Returns r' ->
  nearest_of k target (nbd_nodes r').
Proof using All.
  pose proof k_wf as (HM & Hlen & HP & Hbs).
  assert (Hw : forall z, 0 <= z <= MaxProx k -> int_wrap z = z).
  { intros z Hz. apply int_wrap_small. unfold int_min, int_max in *. lia. }
  induction fuel as [|fuel IH]; intros start down n r r' Hstart Hup Hr Hfrom Hcov;
    cbn [getNodes_loop]; [done|].
  destruct (slice_at (buckets k) start) as [b|] eqn:Hb; [|done].
  assert (Hbw : Forall wf_node (nodes b)).
  { apply Forall_forall. intros x Hx. by eapply bucket_node_wf. }
  pose proof (push_bucket_collected target lim target_wf ltac:(lia) (nodes b) r n Hbw Hr)
    as Hr1.
  pose proof (push_bucket_elem (nodes b) lim r n) as Helem.
  pose proof (push_bucket_covered lim (nodes b) r n) as Hpc.
  destruct (push_bucket (nodes b) lim r n) as [r1 n1]. cbn [fst] in Hr1, Helem, Hpc.
  assert (Hfrom1 : forall y, y ∈ nbd_nodes r1 ->
            exists i b', (visited k index start down i \/ i = start)
                         /\ slice_at (buckets k) i = Some b' /\ y ∈ nodes b').
  { intros y [Hy|Hy]%Helem.
    - exists start, b. split; [by right|done].
    - destruct (Hfrom y Hy) as (i & b' & Hv & Hb' & Hyb). exists i, b'.
      split; [by left|done]. }
  assert (Hcov1 : forall i b' x, visited k index start down i \/ i = start ->
            slice_at (buckets k) i = Some b' -> x ∈ nodes b' ->
            covered target lim r1 x).
  { intros i b' x Hv Hb' Hx.
    apply Hpc; try done; [by eapply bucket_node_wf|].
    destruct Hv as [Hv| ->]; [right; by eapply Hcov|].
    left. by replace b with b' by congruence. }
  unfold visited in *.
  destruct (getNodes_break k max lim index start down n1) eqn:Hbrk.
  { intros [= <-]. apply getNodes_break_start in Hbrk as [Hsi Hmax0].
    destruct down.
    - apply (nearest_from_visited (fun i => start <= i <= MaxProx k)).
      + intros j. lia.
      + intros y Hy. destruct (Hfrom1 y Hy) as (i & b' & Hv & Hb' & Hyb).
        exists i, b'. split; [lia|done].
      + intros i b' x Hv. apply Hcov1. lia.
      + intros j i Hj Hi HnV HV. left. lia.
    - destruct (Hup eq_refl) as [Hidx Hle].
      apply (nearest_from_visited (fun i => i = proximityBin k target)).
      + intros j. lia.
      + intros y Hy. destruct (Hfrom1 y Hy) as (i & b' & Hv & Hb' & Hyb).
        exists i, b'. split; [lia|done].
      + intros i b' x Hv. apply Hcov1. lia.
      + intros j i Hj Hi HnV HV. lia. }
  destruct down.
  - assert (start <> 0).
    { intros ->.
      by rewrite (getNodes_break_at_0 k max lim index max_nonneg ltac:(
        pose proof (proximityBin_range k target (proj1 HM)); lia)) in Hbrk. }
    rewrite Hw by lia. apply IH; try done; [lia| |].
    + intros y Hy. destruct (Hfrom1 y Hy) as (i & b' & Hv & Hb' & Hyb).
      exists i, b'. split; [lia|done].
    + intros i b' x Hv. apply Hcov1. lia.
  - destruct (Hup eq_refl) as [Hidx Hle].
    destruct (Z.eqb_spec start (MaxProx k)) as [Heq|Hne].
    + destruct (Z.eqb_spec index 0) as [H0|H0].
      * intros [= <-].
        apply (nearest_from_visited (fun i => 0 <= i <= MaxProx k)).
        -- intros j. lia.
        -- intros y Hy. destruct (Hfrom1 y Hy) as (i & b' & Hv & Hb' & Hyb).
           exists i, b'. split; [|done]. apply slice_at_Some in Hb' as [? _]. lia.
        -- intros i b' x Hv. apply Hcov1. lia.
        -- intros j i Hj Hi HnV HV. lia.
      * rewrite Hw by lia. apply IH; try done; [lia| |].
        -- intros y Hy. destruct (Hfrom1 y Hy) as (i & b' & Hv & Hb' & Hyb).
           exists i, b'. split; [lia|done].
        -- intros i b' x Hv. apply Hcov1. lia.
    + rewrite Hw by lia. apply IH; try done; [lia| | |].
      * intros _. lia.
      * intros y Hy. destruct (Hfrom1 y Hy) as (i & b' & Hv & Hb' & Hyb).
        exists i, b'. split; [lia|done].
      * intros i b' x Hv. apply Hcov1. lia.
Qed.

End Nearest.

(** *** [GetNodes] with [max = 0]: the bin of the target *)

Lemma zone_suffix k i j :
  0 <= i <= j -> exists pre, zone k i = pre ++ zone k j.
Proof.
  intros Hij. unfold zone.
  exists (concat (map nodes (take (Z.to_nat j - Z.to_nat i)
                               (drop (Z.to_nat i) (buckets k))))).
  rewrite <- concat_app, <- map_app. do 2 f_equal.
  rewrite <- (take_drop (Z.to_nat j - Z.to_nat i) (drop (Z.to_nat i) (buckets k))) at 1.
  f_equal. rewrite drop_drop. f_equal. lia.
Qed.

Lemma zone_step k i b :
  slice_at (buckets k) i = Some b -> zone k i = nodes b ++ zone k (i + 1).
Proof.
  intros [Hr Hb]%slice_at_Some. unfold zone.
  rewrite (drop_S _ _ _ Hb). cbn [map concat].
  by replace (Z.to_nat (i + 1)) with (S (Z.to_nat i)) by lia.
Qed.

Lemma zone_end k j : len (buckets k) <= j -> zone k j = [].
Proof.
  intros Hj. unfold zone, len in *. by rewrite drop_ge by lia.
Qed.

Section Bin.

Variable target : Address.
Hypothesis target_wf : wf_address target.

Lemma push_perm h node lim :
  collected target lim h -> wf_node node -> len (nbd_nodes h) < lim ->
  nbd_nodes (push h node lim) ≡ₚ node :: nbd_nodes h.
Proof using target_wf.
  intros (Ht & Hwf & Hs & Hl) Hn Hroom.
  destruct (push_spec target target_wf h node lim Ht Hwf Hn Hs)
    as (ix & Hix & _ & _ & -> & _).
  destruct (Z.ltb_spec (len (nbd_nodes h)) lim); [|lia].
  rewrite take_ge
    by (rewrite length_app, length_take; cbn [length]; rewrite length_drop; lia).
  rewrite <- Permutation_middle. by rewrite take_drop.
Qed.

Lemma push_bucket_perm lim bkt : forall r n,
  Forall wf_node bkt -> collected target lim r ->
  len (nbd_nodes r) + len bkt <= lim -> 0 <= n -> n + len bkt <= int_max ->
  nbd_nodes (push_bucket bkt lim r n).1 ≡ₚ bkt ++ nbd_nodes r
  /\ (push_bucket bkt lim r n).2 = n + len bkt.
Proof using target_wf.
  unfold len.
  induction bkt as [|node bkt IH]; intros r n Hb Hr Hroom Hn Hmax; cbn [push_bucket].
  { cbn. split; [done|lia]. }
  apply Forall_cons in Hb as [Hnode Hb]. cbn [length] in *.
  pose proof Hr as (Ht & Hwf & Hs & Hl).
  destruct (push_sorted target target_wf r node lim Ht Hwf Hnode Hs)
    as (Hs' & Hwf' & Ht' & Hl').
  assert (Hr' : collected target lim (push r node lim)).
  { split; [done|]. split; [done|]. split; [done|]. apply Hl'; unfold len; lia. }
  pose proof (push_perm r node lim Hr Hnode ltac:(unfold len; lia)) as Hp.
  assert (Hlen' : length (nbd_nodes (push r node lim)) = S (length (nbd_nodes r))).
  { by rewrite Hp. }
  rewrite (int_wrap_small (n + 1)) by (unfold int_min, int_max in *; lia).
  destruct (IH (push r node lim) (n + 1)) as [Hperm Hcount]; try done; try lia.
  split; [|lia].
  rewrite Hperm, Hp. cbn [app]. by rewrite <- Permutation_middle.
Qed.

Variable k : Kademlia.
Variable index : Z.
Hypothesis k_wf : wf_table k.
Hypothesis k_nodes : nodes_wf k.
Hypothesis zone_fits : len (zone k index) <= 1000.
Hypothesis zone_nonempty : zone k index <> [].

(** The walk down from [MaxProx] collects bucket after bucket and ends at
    [index]. *)
Lemma getNodes_loop_zone fuel : forall start n r,
  0 <= index <= start -> start <= MaxProx k ->
  start - index + 1 <= Z.of_nat fuel ->
  collected target 1000 r ->
  nbd_nodes r ≡ₚ zone k (start + 1) ->
  n = len (zone k (start + 1)) ->
  exists r',
    getNodes_loop fuel k 0 1000 index start true n r = Returns r'
    /\ nbd_nodes r' ≡ₚ zone k index
    /\ collected target 1000 r'.
Proof using All.
  pose proof k_wf as (HM & Hlen & HP & Hbs).
  induction fuel as [|fuel IH]; intros start n r Hstart Hmax Hfuel Hr Hperm Hn; [lia|].
  cbn [getNodes_loop].
  destruct (slice_at_is_Some (buckets k) start) as [b Hb]; [lia|].
  rewrite Hb.
  assert (Hbw : Forall wf_node (nodes b)).
  { apply slice_at_Some in Hb as [_ Hb'].
    unfold nodes_wf in k_nodes. rewrite Forall_lookup in k_nodes. by eapply k_nodes. }
  destruct (zone_suffix k index start ltac:(lia)) as [pre Hpre].
  pose proof (zone_step k start b Hb) as Hstep.
  assert (Hroom : len (zone k (start + 1)) + len (nodes b) <= 1000).
  { pose proof zone_fits as Hz. unfold len in *.
    rewrite Hpre, Hstep, !length_app in Hz. lia. }
  assert (Hfit : len (nbd_nodes r) + len (nodes b) <= 1000).
  { unfold len in *. by rewrite Hperm. }
  pose proof (push_bucket_collected target 1000 target_wf ltac:(lia) (nodes b) r n Hbw Hr)
    as Hr1.
  destruct (push_bucket_perm 1000 (nodes b) r n Hbw Hr Hfit)
    as [Hperm1 Hn1];
    [unfold len in *; lia|unfold len, int_max in *; lia|].
  destruct (push_bucket (nodes b) 1000 r n) as [r1 n1]. cbn [fst snd] in *.
  assert (Hzone1 : nbd_nodes r1 ≡ₚ zone k start).
  { by rewrite Hperm1, Hperm, Hstep. }
  assert (Hn1' : n1 = len (zone k start)).
  { rewrite Hn1, Hn, Hstep. unfold len. rewrite length_app. lia. }
  unfold getNodes_break. change (0 =? 0) with true. change (0 >? 0) with false.
  cbn [andb orb]. rewrite orb_false_r.
  destruct (Z.leb_spec start index) as [Hle|Hgt]; cbn [andb].
  - assert (start = index) as -> by lia.
    assert (Hpos : (n1 >? 0) = true).
    { apply Z.gtb_lt. rewrite Hn1'. unfold len.
      destruct (zone k index); [done|cbn; lia]. }
    rewrite Hpos. cbn [orb]. by exists r1.
  - rewrite int_wrap_small by (unfold int_min, int_max in *; lia).
    apply IH; try done; try lia.
    + by replace (start - 1 + 1) with start by lia.
    + by replace (start - 1 + 1) with start by lia.
Qed.

End Bin.

(** X30.  [GetNodes(target, 0)] returns the bin of the target, in order of
    distance to the target: the nodes of the bucket of the target's bin when
    that bin is below [proxLimit], and the nodes of all the buckets from
    [proxLimit] on otherwise, provided there are between 1 and 1000 of
    them. *)
Theorem GetNodes_zero_returns_the_bin k target :
  wf_table k -> nodes_wf k -> wf_address target ->
  target_bin k target <> [] -> len (target_bin k target) <= 1000 ->
  exists res,
    GetNodes k target 0 = Returns res
    /\ res ≡ₚ target_bin k target
    /\ StronglySorted (dist_le target) res.
Proof.
  intros Hwf Hn Ht Hne Hfit. pose proof Hwf as (HM & Hlen & HP & Hbs).
  pose proof (proximityBin_range k target (proj1 HM)) as Hbin.
  assert (Hc0 : collected target 1000 (mkNodesByDistance [] target)).
  { split; [done|]. split; [constructor|]. split; [constructor|]. unfold len. cbn. lia. }
  unfold GetNodes, getNodes, target_bin in *. change (0 =? 0) with true. cbv iota.
  destruct (Z.geb_spec (proximityBin k target) (proxLimit k)) as [Hge|Hlt].
  - destruct (getNodes_loop_zone target Ht k (proxLimit k) Hwf Hn Hfit Hne
                (getNodes_fuel k) (MaxProx k) 0 (mkNodesByDistance [] target))
      as (r' & -> & Hperm & Hc); try done; try lia.
    + unfold getNodes_fuel. lia.
    + by rewrite zone_end by lia.
    + by rewrite zone_end by lia.
    + exists (nbd_nodes r'). split; [done|]. split; [done|]. apply Hc.
  - destruct (slice_at_is_Some (buckets k) (proximityBin k target)) as [b Hb]; [lia|].
    rewrite Hb in Hne, Hfit. cbn in Hne, Hfit.
    unfold getNodes_fuel.
    destruct (Z.to_nat (2 * MaxProx k + 3)) as [|fuel] eqn:Hfuel; [lia|].
    cbn [getNodes_loop]. rewrite Hb.
    assert (Hbw : Forall wf_node (nodes b)).
    { apply slice_at_Some in Hb as [_ Hb'].
      unfold nodes_wf in Hn. rewrite Forall_lookup in Hn. by eapply Hn. }
    pose proof (push_bucket_collected target 1000 Ht ltac:(lia) (nodes b)
                  (mkNodesByDistance [] target) 0 Hbw Hc0) as Hr1.
    destruct (push_bucket_perm target Ht 1000 (nodes b) (mkNodesByDistance [] target) 0
                Hbw Hc0) as [Hperm1 Hn1];
      [unfold len in *; cbn; lia|lia|unfold len, int_max in *; lia|].
    destruct (push_bucket (nodes b) 1000 _ 0) as [r1 n1]. cbn [fst snd] in *.
    assert (Hbrk : getNodes_break k 0 1000 (proximityBin k target)
                     (proximityBin k target) false n1 = true).
    { unfold getNodes_break. change (0 =? 0) with true.
      rewrite Z.leb_refl. cbn [andb].
      assert (Hpos : (n1 >? 0) = true).
      { apply Z.gtb_lt. rewrite Hn1. unfold len.
        destruct (nodes b); [done|cbn; lia]. }
      by rewrite Hpos. }
    rewrite Hbrk. exists (nbd_nodes r1). split; [done|].
    split; [by rewrite Hperm1, app_nil_r|apply Hr1].
Qed.

Lemma GetNodes_zero_returns_the_bin_witness :
  exists res,
    GetNodes twin_result (Addr twin_first) 0 = Returns res
    /\ res ≡ₚ target_bin twin_result (Addr twin_first)
    /\ StronglySorted (dist_le (Addr twin_first)) res.
Proof.
  apply (GetNodes_zero_returns_the_bin twin_result (Addr twin_first)).
  - apply (bool_decide_unpack _). vm_compute. reflexivity.
  - apply (bool_decide_unpack _). vm_compute. reflexivity.
  - apply (bool_decide_unpack _). vm_compute. reflexivity.
  - vm_compute. congruence.
  - vm_compute. congruence.
Defined.

(** *** How many nodes [GetNodes] returns *)

Lemma zone_len_step k i b :
  slice_at (buckets k) i = Some b ->
  len (zone k i) = len (nodes b) + len (zone k (i + 1)).
Proof.
  intros H. rewrite (zone_step k i b H). unfold len. rewrite length_app. lia.
Qed.

Lemma zone_len_le k i j : 0 <= i <= j -> len (zone k j) <= len (zone k i).
Proof.
  intros H. destruct (zone_suffix k i j H) as [pre ->].
  unfold len. rewrite length_app. lia.
Qed.

Lemma zone_elem k j x :
  0 <= j -> x ∈ zone k j ->
  exists i b, j <= i /\ slice_at (buckets k) i = Some b /\ x ∈ nodes b.
Proof.
  intros Hj Hx. unfold zone in Hx.
  apply list_elem_of_In, in_concat in Hx as (l & Hl & Hx).
  apply in_map_iff in Hl as (b & <- & Hb).
  apply list_elem_of_In, list_elem_of_lookup_1 in Hb as (n & Hn).
  rewrite lookup_drop in Hn.
  exists (Z.of_nat (Z.to_nat j + n)), b. split; [lia|].
  split; [|by apply list_elem_of_In].
  unfold slice_at, len. pose proof (lookup_lt_Some _ _ _ Hn).
  destruct (Z.leb_spec 0 (Z.of_nat (Z.to_nat j + n))); [|lia].
  destruct (Z.ltb_spec (Z.of_nat (Z.to_nat j + n)) (Z.of_nat (length (buckets k))));
    [|lia].
  cbn. by rewrite Nat2Z.id.
Qed.

Lemma zone_whole k j x :
  0 <= j -> len (zone k j) = len (all_nodes k) -> x ∈ all_nodes k -> x ∈ zone k j.
Proof.
  intros Hj Hlen Hx. change (all_nodes k) with (zone k 0) in *.
  destruct (zone_suffix k 0 j ltac:(lia)) as [pre Hpre].
  rewrite Hpre in Hlen, Hx. unfold len in Hlen. rewrite length_app in Hlen.
  destruct pre; [done|]. cbn in Hlen. lia.
Qed.

Section Count.

Variable target : Address.
Hypothesis target_wf : wf_address target.

Lemma push_length h node lim :
  collected target lim h -> wf_node node ->
  len (nbd_nodes (push h node lim)) = Z.min lim (len (nbd_nodes h) + 1).
Proof using target_wf.
  intros (Ht & Hwf & Hs & Hl) Hn.
  destruct (push_spec target target_wf h node lim Ht Hwf Hn Hs)
    as (ix & Hix & _ & _ & -> & _).
  unfold len in *.
  rewrite length_take, length_app, length_take. cbn [length]. rewrite length_drop.
  destruct (Z.ltb_spec (Z.of_nat (length (nbd_nodes h))) lim); lia.
Qed.

(** The counter [n] is the number of nodes pushed, and the collection holds
    that many of them, up to its limit. *)
Lemma push_bucket_count lim bkt : forall r n,
  0 < lim -> Forall wf_node bkt -> collected target lim r ->
  len (nbd_nodes r) = Z.min lim n -> 0 <= n -> n + len bkt <= int_max ->
  (push_bucket bkt lim r n).2 = n + len bkt
  /\ len (nbd_nodes (push_bucket bkt lim r n).1) = Z.min lim (n + len bkt).
Proof using target_wf.
  unfold len.
  induction bkt as [|node bkt IH]; intros r n Hlim Hb Hr Hlen Hn Hmax;
    cbn [push_bucket].
  { cbn. split; [lia|]. rewrite Z.add_0_r. exact Hlen. }
  apply Forall_cons in Hb as [Hnode Hb]. cbn [length] in *.
  pose proof Hr as (Ht & Hwf & Hs & Hl).
  destruct (push_sorted target target_wf r node lim Ht Hwf Hnode Hs)
    as (Hs' & Hwf' & Ht' & Hl').
  assert (Hr' : collected target lim (push r node lim)).
  { split; [done|]. split; [done|]. split; [done|]. apply Hl'; unfold len; lia. }
  pose proof (push_length r node lim Hr Hnode) as Hp. unfold len in Hp.
  rewrite (int_wrap_small (n + 1)) by (unfold int_min, int_max in *; lia).
  destruct (IH (push r node lim) (n + 1)) as [Hcount Hlen'];
    [done|done|done|lia|lia|lia|].
  split; [lia|]. rewrite Hlen'. f_equal. lia.
Qed.

Variable k : Kademlia.
Variables max index : Z.
Hypothesis k_wf : wf_table k.
Hypothesis k_nodes : nodes_wf k.
Hypothesis max_pos : 0 < max.
Hypothesis index_range : 0 <= index <= MaxProx k.
Hypothesis total_fits : len (all_nodes k) <= int_max.

(** With [max > 0] the walk ends when it has pushed [max] nodes or
    [Count()] nodes, or when it has been at every bucket. *)
Lemma getNodes_loop_count fuel : forall start down n r r',
  0 <= start <= MaxProx k ->
  (down = false -> index <= start) ->
  collected target max r ->
  n = pushed k index start down ->
  len (nbd_nodes r) = Z.min max n ->
  (forall i b x, visited k index start down i ->
     slice_at (buckets k) i = Some b -> x ∈ nodes b -> covered target max r x) ->
  getNodes_loop fuel k max max index start down n r = Returns r' ->
  exists m,
    len (nbd_nodes r') = Z.min max m
    /\ 0 <= m <= len (all_nodes k)
    /\ (max <= m \/ m = Count k \/ m = len (all_nodes k))
    /\ (m < max -> len (all_nodes k) <= Count k ->
        forall x, x ∈ all_nodes k -> x ∈ nbd_nodes r').
Proof using All.
  pose proof k_wf as (HM & Hlen & HP & Hbs).
  assert (Hw : forall z, 0 <= z <= MaxProx k -> int_wrap z = z).
  { intros z Hz. apply int_wrap_small. unfold int_min, int_max in *. lia. }
  assert (Hall0 : zone k 0 = all_nodes k) by reflexivity.
  assert (Hend : len (zone k (MaxProx k + 1)) = 0).
  { rewrite zone_end by lia. reflexivity. }
  induction fuel as [|fuel IH]; intros start down n r r' Hstart Hup Hr Hn Hlenr Hcov;
    cbn [getNodes_loop]; [done|].
  destruct (slice_at (buckets k) start) as [b|] eqn:Hb; [|done].
  assert (Hbw : Forall wf_node (nodes b)).
  { apply slice_at_Some in Hb as [_ Hb'].
    unfold nodes_wf in k_nodes. rewrite Forall_lookup in k_nodes. by eapply k_nodes. }
  pose proof (zone_len_step k start b Hb) as Hzs.
  pose proof (zone_len_le k 0 start ltac:(lia)) as Hz0s.
  pose proof (zone_len_le k 0 index ltac:(lia)) as Hz0i.
  pose proof (zone_len_le k start (start + 1) ltac:(lia)) as Hzss.
  assert (Hnb : 0 <= n /\ n + len (nodes b) <= len (all_nodes k)).
  { rewrite <- Hall0. unfold pushed in Hn.
    destruct down.
    - subst n. unfold len in *. lia.
    - specialize (Hup eq_refl).
      pose proof (zone_len_le k index start ltac:(lia)). subst n. unfold len in *. lia. }
  destruct Hnb as (Hn0 & Hnmax).
  pose proof (push_bucket_collected target max target_wf ltac:(lia) (nodes b) r n Hbw Hr)
    as Hr1.
  pose proof (push_bucket_covered target target_wf max (nodes b) r n) as Hpc.
  destruct (push_bucket_count max (nodes b) r n max_pos Hbw Hr Hlenr Hn0 ltac:(lia))
    as [Hcnt Hlen1].
  destruct (push_bucket (nodes b) max r n) as [r1 n1]. cbn [fst snd] in *.
  rewrite <- Hcnt in Hlen1.
  assert (Hcov1 : forall i b' x, visited k index start down i \/ i = start ->
            slice_at (buckets k) i = Some b' -> x ∈ nodes b' ->
            covered target max r1 x).
  { intros i b' x Hv Hb' Hx.
    assert (Hwx : wf_node x).
    { apply slice_at_Some in Hb' as [_ Hb''].
      unfold nodes_wf in k_nodes. rewrite Forall_lookup in k_nodes.
      specialize (k_nodes _ _ Hb''). rewrite Forall_forall in k_nodes. by apply k_nodes. }
    apply Hpc; try done.
    destruct Hv as [Hv| ->]; [right; by eapply Hcov|].
    left. by replace b with b' by congruence. }
  (* every node is in the collection once the buckets from [lo] on hold all
     nodes and have been pushed into a collection with room left *)
  assert (Hwhole : forall lo, 0 <= lo ->
            len (zone k lo) = len (all_nodes k) ->
            (forall i, lo <= i <= MaxProx k -> visited k index start down i \/ i = start) ->
            n1 < max -> forall x, x ∈ all_nodes k -> x ∈ nbd_nodes r1).
  { intros lo Hlo Hfull Hvis Hroom x Hx.
    apply (zone_whole k lo x Hlo Hfull) in Hx.
    apply zone_elem in Hx as (i & b' & Hi & Hb' & Hxb); [|done].
    pose proof (slice_at_Some _ _ _ Hb') as [Hri _].
    destruct (Hcov1 i b' x (Hvis i ltac:(lia)) Hb' Hxb) as [Hin|[Hfullr _]]; [done|].
    lia. }
  unfold visited in *.
  destruct (getNodes_break k max max index start down n1) eqn:Hbrk.
  { intros [= <-]. unfold getNodes_break in Hbrk.
    destruct (Z.eqb_spec max 0) as [|_]; [lia|]. cbn [andb orb] in Hbrk.
    destruct (Z.gtb_spec max 0) as [_|]; [|lia]. cbn [andb] in Hbrk.
    destruct down; [|done]. cbn [andb] in Hbrk.
    apply andb_true_iff in Hbrk as [Hsi Hstop]. apply Z.leb_le in Hsi.
    assert (Hn1 : n1 = len (zone k start)).
    { rewrite Hcnt, Hn. unfold pushed. lia. }
    exists n1. split; [done|]. split; [rewrite <- Hall0; lia|].
    split.
    - apply orb_true_iff in Hstop as [Hstop|Hstop];
        [apply orb_true_iff in Hstop as [Hstop|Hstop]|].
      + left. destruct (Z.geb_spec n1 max); [lia|done].
      + right. left. by apply Z.eqb_eq in Hstop.
      + right. right. apply Z.eqb_eq in Hstop. subst start. by rewrite Hn1, Hall0.
    - intros Hroom Hcount.
      assert (Hfull : len (zone k start) = len (all_nodes k)).
      { apply orb_true_iff in Hstop as [Hstop|Hstop];
          [apply orb_true_iff in Hstop as [Hstop|Hstop]|].
        - destruct (Z.geb_spec n1 max); [lia|done].
        - apply Z.eqb_eq in Hstop. rewrite <- Hall0 in *. lia.
        - apply Z.eqb_eq in Hstop. subst start. by rewrite Hall0. }
      apply (Hwhole start); try done; [lia|]. intros i Hi. lia. }
  destruct down.
  - assert (start <> 0).
    { intros ->.
      by rewrite (getNodes_break_at_0 k max max index ltac:(lia) index_range) in Hbrk. }
    rewrite Hw by lia. apply IH; try done; try lia.
    + unfold pushed. replace (start - 1 + 1) with start by lia.
      rewrite Hcnt, Hn. unfold pushed. lia.
    + intros i b' x Hv. apply Hcov1. lia.
  - specialize (Hup eq_refl).
    pose proof (zone_len_le k index start ltac:(lia)) as Hzis.
    assert (Hn1 : n1 = len (zone k index) - len (zone k (start + 1))).
    { rewrite Hcnt, Hn. unfold pushed. lia. }
    destruct (Z.eqb_spec start (MaxProx k)) as [Heq|Hne].
    + subst start. rewrite Hend in Hn1.
      destruct (Z.eqb_spec index 0) as [H0|H0].
      * intros [= <-]. subst index. exists n1.
        split; [done|]. split; [rewrite <- Hall0; lia|].
        split; [right; right; rewrite <- Hall0; lia|].
        intros Hroom Hcount. apply (Hwhole 0); try done. intros i Hi. lia.
      * rewrite Hw by lia. apply IH; try done; try lia.
        -- unfold pushed. replace (index - 1 + 1) with index by lia. lia.
        -- intros i b' x Hv. apply Hcov1. lia.
    + rewrite Hw by lia. apply IH; try done; try lia.
      intros i b' x Hv. apply Hcov1. lia.
Qed.

End Count.

(** X23.  What [GetNodes] returns are the nearest nodes: in a table whose
    nodes are in the buckets of their bins, no node that is left out of
    the result is nearer to the target than a node of the result.  With
    [max > 0] the walk over the buckets ends when [max] nodes or [Count()]
    nodes have been pushed, or at bucket 0: the result has at least
    [min(max, Count(), number of nodes held)] and at most
    [min(max, number of nodes held)] nodes, and when [Count()] is not below
    the number of nodes held, a result of fewer than [max] nodes holds every
    node of the table. *)
Theorem GetNodes_returns_the_nearest k target max :
  wf_table k -> nodes_wf k -> binned k ->
  wf_address (addr k) -> wf_address target -> 0 <= max ->
  exists res,
    GetNodes k target max = Returns res
    /\ nearest_of k target res
    /\ (0 < max -> len (all_nodes k) <= int_max ->
        Z.min max (Z.min (Count k) (len (all_nodes k))) <= len res
        /\ len res <= Z.min max (len (all_nodes k))
        /\ (len res < max -> len (all_nodes k) <= Count k ->
            forall x, x ∈ all_nodes k -> x ∈ res)).
Proof.
  intros Hwf Hn Hbin Hs Ht Hmax. pose proof Hwf as (HM & Hlen & HP & Hbs).
  destruct (getNodes_returns k target max Hwf Hn Ht Hmax) as (r & Hr & _).
  unfold GetNodes. rewrite Hr. exists (nbd_nodes r). split; [done|].
  pose proof (proximityBin_range k target (proj1 HM)) as Hrange.
  split.
  - revert Hr. unfold getNodes.
    set (lim := if max =? 0 then 1000 else max).
    assert (Hlim : 0 < lim) by (unfold lim; destruct (Z.eqb_spec max 0); lia).
    assert (Hc0 : collected target lim (mkNodesByDistance [] target)).
    { split; [done|]. split; [constructor|]. split; [constructor|]. unfold len. cbn. lia. }
    destruct (Z.geb_spec (proximityBin k target) (proxLimit k)) as [Hge|Hlt].
    + apply (getNodes_loop_nearest target Ht k max lim (proxLimit k)); try done; try lia.
      * intros y Hy. by apply elem_of_nil in Hy.
      * unfold visited. intros i b x Hv. lia.
    + apply (getNodes_loop_nearest target Ht k max lim (proximityBin k target));
        try done; try lia.
      * intros y Hy. by apply elem_of_nil in Hy.
      * unfold visited. intros i b x Hv. lia.
  - intros Hpos Hfits. revert Hr. unfold getNodes.
    destruct (Z.eqb_spec max 0) as [|_]; [lia|].
    assert (Hc0 : collected target max (mkNodesByDistance [] target)).
    { split; [done|]. split; [constructor|]. split; [constructor|]. unfold len. cbn. lia. }
    assert (Hend : len (zone k (MaxProx k + 1)) = 0).
    { rewrite zone_end by lia. reflexivity. }
    assert (Hfin : forall index start down,
              0 <= index <= MaxProx k -> 0 <= start <= MaxProx k ->
              (down = false -> index <= start) ->
              0 = pushed k index start down ->
              (forall i, ~ visited k index start down i) ->
              getNodes_loop (getNodes_fuel k) k max max index start down 0
                (mkNodesByDistance [] target) = Returns r ->
              Z.min max (Z.min (Count k) (len (all_nodes k))) <= len (nbd_nodes r)
              /\ len (nbd_nodes r) <= Z.min max (len (all_nodes k))
              /\ (len (nbd_nodes r) < max -> len (all_nodes k) <= Count k ->
                  forall x, x ∈ all_nodes k -> x ∈ nbd_nodes r)).
    { intros index start down Hi Hst Hup Hp0 Hnv Hr.
      destruct (getNodes_loop_count target Ht k max index Hwf Hn Hpos Hi Hfits
                  (getNodes_fuel k) start down 0 (mkNodesByDistance [] target) r)
        as (m & Hlenr & Hm & Hstop & Hwhole); try done.
      - unfold len. cbn. lia.
      - intros i b x Hv. by destruct (Hnv i).
      - split; [lia|]. split; [lia|]. intros Hshort. apply Hwhole. lia. }
    destruct (Z.geb_spec (proximityBin k target) (proxLimit k)) as [Hge|Hlt].
    + apply Hfin; try done; try lia; [unfold pushed; lia..|].
      unfold visited. intros i. lia.
    + apply Hfin; try done; try lia; [unfold pushed; lia..|].
      unfold visited. intros i. lia.
Qed.

Lemma GetNodes_returns_the_nearest_witness :
  exists res,
    GetNodes twin_result (Addr newcomer) 1 = Returns res
    /\ nearest_of twin_result (Addr newcomer) res
    /\ (0 < 1 -> len (all_nodes twin_result) <= int_max ->
        Z.min 1 (Z.min (Count twin_result) (len (all_nodes twin_result))) <= len res
        /\ len res <= Z.min 1 (len (all_nodes twin_result))
        /\ (len res < 1 -> len (all_nodes twin_result) <= Count twin_result ->
            forall x, x ∈ all_nodes twin_result -> x ∈ res)).
Proof.
  apply (GetNodes_returns_the_nearest twin_result (Addr newcomer) 1).
  - apply (bool_decide_unpack _). vm_compute. reflexivity.
  - apply (bool_decide_unpack _). vm_compute. reflexivity.
  - apply (TableExtFacts.run_binned [OpAdd twin_first; OpAdd twin_second]
             (default New (Start New self_addr)) twin_result).
    + by apply (TableExtFacts.Start_binned New self_addr).
    + vm_compute. reflexivity.
  - apply (bool_decide_unpack _). vm_compute. reflexivity.
  - apply (bool_decide_unpack _). vm_compute. reflexivity.
  - lia.
Defined.

End LookupExtFacts.

Module BzzExtFacts.
Import Bzz BzzExt.

(** *** What [handle] does with one message *)

(** Splits the tests of [handle] found in the goal or in [H]. *)
Ltac handle_cases H :=
  repeat match type of H with
         | context [if ?c then _ else _] => destruct c eqn:?
         | context [match ?o with Some _ => _ | None => _ end] => destruct o eqn:?
         end.

Lemma handle_effect env w err w1 :
  handle env w = Some (err, w1) ->
  exists m rest,
    reads w = m :: rest
    /\ match err with
       | None => exists ev, is_registration ev = true /\ w1 = log (set_reads w rest) ev
       | Some e => w1 = set_reads w rest
       end.
Proof.
  unfold handle, bind, ReadMsg, protoError, ret, emit.
  destruct (reads w) as [|m rest] eqn:Hr; [done|].
  intros H. exists m, rest. split; [done|].
  destruct m as [msg|e]; [|by simplify_eq].
  handle_cases H; simplify_eq; try done;
    (eexists; split; [|reflexivity]; reflexivity).
Qed.

(** [handle] reads the session only through the message it takes off the
    transport. *)
Lemma handle_frame env m w rest err w0 :
  handle env (empty_world [m]) = Some (err, w0) ->
  reads w = m :: rest ->
  handle env w =
    Some (err, mkWorld rest (sends w) (trace w ++ trace w0)
                 (node w) (requestDb w) (quit w)).
Proof.
  unfold handle, bind, ReadMsg, protoError, ret, emit, empty_world.
  cbn [reads]. intros H Hr. rewrite Hr.
  destruct m as [msg|e].
  - handle_cases H; simplify_eq; cbn [trace log set_reads];
      rewrite ?app_nil_r; reflexivity.
  - simplify_eq. cbn [trace set_reads]. by rewrite app_nil_r.
Qed.

Lemma handle_registers env w msg rest ev :
  registration env msg = Some ev -> reads w = inl msg :: rest ->
  handle env w = Some (None, log (set_reads w rest) ev).
Proof.
  unfold registration. intros H Hr.
  destruct (handle env (empty_world [inl msg])) as [[[e|] w0]|] eqn:Hh; try done.
  rewrite (handle_frame env (inl msg) w rest None w0 Hh Hr).
  apply handle_effect in Hh as (m & rest0 & Hr0 & ev0 & _ & ->).
  cbn in Hr0. simplify_eq. cbn in H. by simplify_eq.
Qed.

Lemma handle_rejects env w m rest e :
  rejection env m = Some e -> reads w = m :: rest ->
  handle env w = Some (Some e, set_reads w rest).
Proof.
  unfold rejection. intros H Hr.
  destruct (handle env (empty_world [m])) as [[[e0|] w0]|] eqn:Hh; try done.
  simplify_eq.
  rewrite (handle_frame env m w rest (Some e) w0 Hh Hr).
  apply handle_effect in Hh as (m0 & rest0 & Hr0 & ->).
  cbn [trace set_reads empty_world]. by rewrite app_nil_r.
Qed.

(** Settles what is left at one outcome of [handle]. *)
Ltac handle_leaf :=
  repeat split; intros; try done; try lia;
  try (match goal with
       | H : _ /\ (_ \/ _ \/ _) |- _ =>
           destruct H as (_ & [[? [? ?]]|[[? (? & ? & [? ?])]|[? [? ?]]]])
       end; simplify_eq; done || lia).

(** X14.  [handle] takes one message off the transport and writes nothing
    of the session but the trace of its calls.  It returns nil exactly for
    a message of at most 10 MiB that is a store request, a retrieve request
    with a key, or a peers message, and that decodes; it then passes the
    request on with one call, and with none when it returns an error.  A
    code other than the four of the protocol gives [ErrInvalidMsgCode]. *)
Theorem handle_accepts_requests_only env w msg rest :
  reads w = inl msg :: rest ->
  exists err evs,
    handle env w =
      Some (err, mkWorld rest (sends w) (trace w ++ evs)
                   (node w) (requestDb w) (quit w))
    /\ (err = None <->
          Size msg <= ProtocolMaxMsgSize
          /\ ((Code msg = storeRequestMsg
               /\ is_Some (decode_store env (Payload msg)))
              \/ (Code msg = retrieveRequestMsg
                  /\ exists req, decode_retrieve env (Payload msg) = Some req
                                 /\ is_Some (rr_Key req))
              \/ (Code msg = peersMsg
                  /\ is_Some (decode_peers env (Payload msg)))))
    /\ (err = None -> exists e, evs = [e] /\ is_registration e = true)
    /\ (err <> None -> evs = [])
    /\ (Size msg > ProtocolMaxMsgSize -> err = Some (ProtoError ErrMsgTooLarge))
    /\ (Size msg <= ProtocolMaxMsgSize ->
        Code msg < statusMsg \/ Code msg > peersMsg ->
        err = Some (ProtoError ErrInvalidMsgCode)).
Proof.
  intros Hr.
  unfold handle, bind, ReadMsg, protoError, ret, emit. rewrite Hr.
  unfold statusMsg, storeRequestMsg, retrieveRequestMsg, peersMsg.
  destruct (Z.gtb_spec (Size msg) ProtocolMaxMsgSize) as [Hsz|Hsz].
  { exists (Some (ProtoError ErrMsgTooLarge)), []. rewrite app_nil_r.
    split; [done|]. handle_leaf. }
  destruct (Z.eqb_spec (Code msg) 0) as [Hc0|Hc0].
  { exists (Some (ProtoError ErrExtraStatusMsg)), []. rewrite app_nil_r.
    split; [done|]. handle_leaf. }
  destruct (Z.eqb_spec (Code msg) 1) as [Hc1|Hc1].
  { destruct (decode_store env (Payload msg)) as [req|] eqn:Hd.
    - exists None, [EvAddStoreRequest req]. split; [done|].
      split; [|handle_leaf; by eexists].
      split; [intros _|done]. split; [lia|]. left. split; [done|by eexists].
    - exists (Some (ProtoError ErrDecode)), []. rewrite app_nil_r.
      split; [done|]. handle_leaf. }
  destruct (Z.eqb_spec (Code msg) 2) as [Hc2|Hc2].
  { destruct (decode_retrieve env (Payload msg)) as [req|] eqn:Hd.
    - destruct (rr_Key req) as [key|] eqn:Hk.
      + exists None, [EvAddRetrieveRequest req]. split; [done|].
        split; [|handle_leaf; by eexists].
        split; [intros _|done]. split; [lia|]. right. left. split; [done|].
        exists req. split; [done|]. by rewrite Hk.
      + exists (Some (ProtoError ErrDecode)), []. rewrite app_nil_r.
        split; [done|]. handle_leaf.
    - exists (Some (ProtoError ErrDecode)), []. rewrite app_nil_r.
      split; [done|]. handle_leaf. }
  destruct (Z.eqb_spec (Code msg) 3) as [Hc3|Hc3].
  { destruct (decode_peers env (Payload msg)) as [req|] eqn:Hd.
    - exists None, [EvAddPeerEntries req]. split; [done|].
      split; [|handle_leaf; by eexists].
      split; [intros _|done]. split; [lia|]. right. right. split; [done|by eexists].
    - exists (Some (ProtoError ErrDecode)), []. rewrite app_nil_r.
      split; [done|]. handle_leaf. }
  exists (Some (ProtoError ErrInvalidMsgCode)), []. rewrite app_nil_r.
  split; [done|]. handle_leaf.
Qed.

Lemma handle_accepts_requests_only_witness :
  exists err evs,
    handle sample_env (empty_world [inl (mkMsg 7 1 [])]) =
      Some (err, mkWorld [] [] ([] ++ evs) None ∅ false)
    /\ err = Some (ProtoError ErrInvalidMsgCode).
Proof.
  destruct (handle_accepts_requests_only sample_env
              (empty_world [inl (mkMsg 7 1 [])]) (mkMsg 7 1 []) [] eq_refl)
    as (err & evs & Hh & _ & _ & _ & _ & Hcode).
  exists err, evs. split; [exact Hh|].
  apply Hcode; [vm_compute; congruence|right; vm_compute; reflexivity].
Defined.

(** *** The message loop *)

(** X15.  The message loop passes on the requests it receives, in the
    order in which they come in, up to the first message that [handle]
    turns down (or the first error of the transport); it then calls
    [hive.removePeer] and exits with that error.  What the transport holds
    behind that message is not read, and nothing is sent. *)
Theorem message_loop_serves_until_first_error env goods : forall w evs bad e rest todo,
  reads w = map inl goods ++ bad :: rest ->
  Forall2 (fun msg ev => registration env msg = Some ev) goods evs ->
  rejection env bad = Some e ->
  (length goods < todo)%nat ->
  message_loop todo env w =
    Some (e, mkWorld rest (sends w) (trace w ++ evs ++ [EvRemovePeer])
               (node w) (requestDb w) (quit w)).
Proof.
  induction goods as [|msg goods IH]; intros w evs bad e rest todo Hr Hreg Hrej Htodo.
  - apply Forall2_nil_inv_l in Hreg as ->. cbn in Hr.
    destruct todo as [|todo]; [cbn in Htodo; lia|].
    cbn [message_loop]. unfold bind.
    rewrite (handle_rejects env w bad rest e Hrej Hr). reflexivity.
  - apply Forall2_cons_inv_l in Hreg as (ev & evs' & Hev & Hreg & ->).
    cbn in Hr.
    destruct todo as [|todo]; [cbn in Htodo; lia|].
    cbn [message_loop]. unfold bind.
    rewrite (handle_registers env w msg _ ev Hev Hr).
    rewrite (IH (log (set_reads w (map inl goods ++ bad :: rest)) ev)
               evs' bad e rest todo); try done; [|cbn in Htodo; lia].
    cbn [sends trace node requestDb quit log set_reads].
    by rewrite <- app_assoc.
Qed.

Lemma message_loop_serves_until_first_error_witness :
  message_loop 5 sample_env
    (empty_world [inl good_status; inl (mkMsg storeRequestMsg 1 [])]) =
  Some (ProtoError ErrExtraStatusMsg,
        mkWorld [inl (mkMsg storeRequestMsg 1 [])] [] ([] ++ [] ++ [EvRemovePeer])
          None ∅ false).
Proof.
  apply (message_loop_serves_until_first_error sample_env []
           (empty_world [inl good_status; inl (mkMsg storeRequestMsg 1 [])])
           [] (inl good_status) (ProtoError ErrExtraStatusMsg)
           [inl (mkMsg storeRequestMsg 1 [])] 5%nat).
  - reflexivity.
  - constructor.
  - reflexivity.
  - cbn. lia.
Defined.

(** *** A whole session *)

Lemma handleStatus_effect env w err w1 :
  handleStatus env w = Some (err, w1) ->
  requestDb w1 = requestDb w /\ quit w1 = quit w
  /\ match err with
     | None =>
         exists a, trace w1 = trace w ++ [EvSend statusMsg (handshake env); EvAddPeer a]
                   /\ node w1 = Some a
     | Some e =>
         trace w1 = trace w ++ [EvSend statusMsg (handshake env)]
         /\ node w1 = node w
     end.
Proof.
  unfold handleStatus, bind, Send, Send_outcome, ReadMsg, protoError, ret, emit.
  destruct (sends w) as [|[e0|] srest] eqn:Hs.
  - cbn [reads log]. destruct (reads w) as [|m rest] eqn:Hr; [done|].
    intros H. destruct m as [msg|e]; handle_cases H; simplify_eq;
      cbn [trace log set_reads set_node requestDb quit node];
      rewrite <- ?app_assoc; try done.
    split; [done|]. split; [done|]. by eexists.
  - intros [= <- <-]. done.
  - cbn [reads log set_sends]. destruct (reads w) as [|m rest] eqn:Hr; [done|].
    intros H. destruct m as [msg|e]; handle_cases H; simplify_eq;
      cbn [trace log set_reads set_node set_sends requestDb quit node];
      rewrite <- ?app_assoc; try done.
    split; [done|]. split; [done|]. by eexists.
Qed.

Lemma message_loop_effect env todo : forall w e w',
  message_loop todo env w = Some (e, w') ->
  exists evs,
    trace w' = trace w ++ evs ++ [EvRemovePeer]
    /\ forallb is_registration evs = true
    /\ requestDb w' = requestDb w /\ quit w' = quit w /\ node w' = node w
    /\ sends w' = sends w.
Proof.
  induction todo as [|todo IH]; intros w e w'; cbn [message_loop]; [done|].
  unfold bind. destruct (handle env w) as [[[e0|] w1]|] eqn:Hh; [| |done].
  - apply handle_effect in Hh as (m & rest & Hr & ->).
    unfold emit, ret. intros [= <- <-]. by exists [].
  - apply handle_effect in Hh as (m & rest & Hr & ev & Hev & ->).
    intros (evs & Ht & Hregs & Hdb & Hq & Hn & Hs)%IH.
    exists (ev :: evs). cbn [forallb]. rewrite Hev, Hregs.
    cbn [trace log set_reads requestDb quit node sends] in *.
    rewrite Ht, <- app_assoc. done.
Qed.

(** *** The goroutine of [runBzzProtocol], step by step *)

Lemma Send_outcome_effect_reads code body w :
  reads (Send_outcome code body w).2 = reads w.
Proof. unfold Send_outcome. by destruct (sends w). Qed.

Lemma handle_dispatch env w r rest :
  reads w = r :: rest ->
  handle env w =
    Some (match dispatch env r with
          | inl ev => (None, log (set_reads w rest) ev)
          | inr e => (Some e, set_reads w rest)
          end).
Proof.
  intros Hr. unfold handle, dispatch, bind, ReadMsg, protoError, ret, emit.
  rewrite Hr. destruct r as [msg|e]; [|done].
  repeat match goal with
         | |- context [if ?c then _ else _] => destruct c
         | |- context [match ?o with Some _ => _ | None => _ end] => destruct o
         end; reflexivity.
Qed.

Lemma handleStatus_check env w :
  handleStatus env w =
    let s := Send_outcome statusMsg (handshake env) w in
    match s.1 with
    | Some e => Some (Some e, s.2)
    | None =>
        match reads s.2 with
        | [] => None
        | r :: rest =>
            Some (match check_status env r with
                  | inl a => (None, log (set_node (set_reads s.2 rest) a) (EvAddPeer a))
                  | inr e => (Some e, set_reads s.2 rest)
                  end)
        end
    end.
Proof.
  unfold handleStatus, check_status, bind, Send, ReadMsg, protoError, ret, emit.
  cbn zeta.
  destruct (Send_outcome statusMsg (handshake env) w) as [[e|] w1]; cbn [fst snd];
    [done|].
  destruct (reads w1) as [|r rest]; [done|].
  destruct r as [msg|e]; [|done].
  repeat match goal with
         | |- context [if ?c then _ else _] => destruct c
         | |- context [match ?o with Some _ => _ | None => _ end] => destruct o
         end; reflexivity.
Qed.

(** From [AtHandle] on, the steps are the message loop and what follows
    it. *)
Lemma main_run_message_loop env todo : forall w,
  (length (reads w) <= todo)%nat ->
  main_run (2 * todo + 3) env AtHandle w =
    match message_loop (S todo) env w with
    | Some (e, w') => Some (Some e, set_quit (log w' EvCloseQuit))
    | None => None
    end.
Proof.
  induction todo as [|todo IH]; intros w Hlen.
  - destruct (reads w) as [|r rest] eqn:Hr; [|cbn in Hlen; lia].
    cbn. unfold bind, handle, bind, ReadMsg. by rewrite Hr.
  - destruct (reads w) as [|r rest] eqn:Hr.
    + replace (2 * S todo + 3)%nat with (S (2 * todo + 4)) by lia.
      cbn [main_run main_step]. rewrite Hr.
      cbn [message_loop]. unfold bind at 1.
      unfold handle, bind, ReadMsg. by rewrite Hr.
    + replace (2 * S todo + 3)%nat with (S (S (2 * todo + 3))) by lia.
      cbn [main_run main_step]. rewrite Hr.
      change (message_loop (S (S todo)) env w)
        with ((do err <- handle env;
               match err with
               | Some e => exec emit EvRemovePeer; ret e
               | None => message_loop (S todo) env
               end) w).
      unfold bind at 1. rewrite (handle_dispatch env w r rest Hr).
      destruct (dispatch env r) as [ev|e].
      * cbn [main_run main_step]. apply IH.
        cbn [reads log set_reads]. cbn in Hlen. lia.
      * cbn [main_run main_step]. unfold bind, emit, ret.
        destruct (2 * todo + 3)%nat as [|f] eqn:Hf; [lia|].
        cbn [main_run main_step]. by destruct f.
Qed.

(** Scheduled on its own, the goroutine does what [runBzzProtocol] does. *)
Lemma main_run_runBzzProtocol env w :
  main_run (2 * length (reads w) + 6) env AtSendStatus w = runBzzProtocol env w.
Proof.
  unfold runBzzProtocol, bind. rewrite handleStatus_check. cbn zeta.
  replace (2 * length (reads w) + 6)%nat with (S (S (S (2 * length (reads w) + 3))))
    by lia.
  cbn [main_run main_step].
  pose proof (Send_outcome_effect_reads statusMsg (handshake env) w) as Hreads.
  destruct (Send_outcome statusMsg (handshake env) w) as [[e|] w1]; cbn [fst snd] in *;
    [done|].
  cbn [main_run main_step]. rewrite Hreads.
  destruct (reads w) as [|r rest] eqn:Hr; [done|].
  destruct (check_status env r) as [a|e]; [|done].
  cbn [main_run main_step].
  rewrite (main_run_message_loop env (length (r :: rest))).
  2:{ cbn [reads log set_node set_reads length]. lia. }
  unfold ret, emit.
  by destruct (message_loop _ env _) as [[e w2]|].
Qed.

(** *** Store requests that wait for a peer *)

Lemma copy_length {A} (dst src : list A) : length (copy dst src) = length dst.
Proof. unfold copy. rewrite length_app, length_take, length_drop. lia. Qed.

Lemma peerKey_length addrKey key : length (peerKey addrKey key) = 64%nat.
Proof.
  unfold peerKey. cbn zeta.
  rewrite length_app, length_take, !copy_length, length_drop, copy_length.
  rewrite length_replicate. lia.
Qed.

Lemma peerKey_prefix addrKey key :
  length addrKey = 32%nat -> take 32 (peerKey addrKey key) = addrKey.
Proof.
  intros Ha. unfold peerKey, copy. cbn zeta.
  rewrite length_replicate, Ha.
  rewrite (take_ge addrKey 64) by lia.
  rewrite take_app_length' by (rewrite length_take, length_app, Ha; cbn; lia).
  by rewrite take_app_length' by done.
Qed.

Lemma peerKey_app addrKey key :
  length addrKey = 32%nat -> length key = 32%nat ->
  peerKey addrKey key = addrKey ++ key.
Proof.
  intros Ha Hk. unfold peerKey, copy. cbn zeta.
  rewrite length_replicate, Ha.
  rewrite (take_ge addrKey 64) by lia.
  rewrite take_app_length' by done.
  rewrite drop_app_length' by done.
  rewrite Hk. f_equal.
  rewrite take_ge by (rewrite length_drop, length_replicate; lia).
  rewrite (drop_ge (drop 32 _)) by (rewrite !length_drop, length_replicate; lia).
  apply app_nil_r.
Qed.

Lemma init_start addrKey :
  length addrKey = 32%nat ->
  storeRequestLoop_init addrKey
  = mkLoopState (addrKey ++ replicate 32 0) (addrKey ++ replicate 32 0) 0 [].
Proof.
  intros Ha. unfold storeRequestLoop_init. cbn zeta.
  assert (E : take 64 (addrKey ++ replicate 64 0) = addrKey ++ replicate 32 0).
  { rewrite take_app_ge by lia. rewrite Ha. done. }
  by rewrite E.
Qed.

(** X17.  A key entered with [storeRequest] is served by the next round of
    the pending-store loop: if it is the one key the iterator finds from
    the peer's start key on and its chunk is in the DB store, the round
    sends the chunk to the peer, deletes the entry and is back in the state
    in which the loop began (it ends the loop when [quitC] is closed). *)
Theorem stored_request_is_served env addrKey key chunk w :
  length addrKey = 32%nat -> length key = 32%nat ->
  dbStore_Get env key = Some chunk ->
  seek env (<[addrKey ++ key := [0]]> (requestDb w)) (addrKey ++ replicate 32 0)
    = [addrKey ++ key] ->
  let req := mkStoreRequest (chunk_Key chunk) (chunk_SData chunk) (generateId env) in
  let w' := mkWorld (reads w) (tail (sends w))
              (trace w ++ [EvSend storeRequestMsg (BStore req);
                           EvDbDelete (addrKey ++ key)])
              (node w) (delete (addrKey ++ key) (requestDb w)) (quit w) in
  storeRequestLoop_round env addrKey (storeRequestLoop_init addrKey)
    (storeRequest addrKey key w)
  = (if quit w then Break else Continue) (storeRequestLoop_init addrKey) w'.
Proof.
  intros Ha Hk Hget Hseek req w'.
  rewrite init_start by done.
  unfold storeRequest. rewrite peerKey_app by done.
  unfold storeRequestLoop_round, reseek.
  cbn [ls_n ls_key ls_start ls_it requestDb set_requestDb].
  change (0 =? 0) with true. cbv iota.
  match goal with
  | |- context [seek env ?db ?k] =>
      assert (Hseek' : seek env db k = [addrKey ++ key]) by exact Hseek;
      rewrite Hseek'
  end.
  cbn [ls_n ls_key ls_start ls_it].
  assert (Hlen : (len (addrKey ++ key) <? 32) = false).
  { apply Z.ltb_ge. unfold len. rewrite length_app. lia. }
  rewrite Hlen.
  rewrite take_app_length' by done.
  rewrite bool_decide_eq_true_2 by done. cbn [negb].
  rewrite drop_app_length' by done. rewrite Hget.
  fold req. cbn [tail it_Key]. change (len [] =? 0) with true. cbv iota.
  change (int_wrap (100 - 1) =? 0) with false. cbv iota.
  unfold Send_outcome. cbn [sends set_requestDb].
  unfold w'.
  destruct (sends w) as [|r srest] eqn:Hs;
    unfold log, set_requestDb, set_sends;
    cbn [snd quit requestDb trace reads sends node tail];
    rewrite ?Hs, delete_insert_eq, <- app_assoc; cbn [app];
    by destruct (quit w).
Qed.

Lemma stored_request_is_served_witness :
  storeRequestLoop_round sample_env sample_addrKey
    (storeRequestLoop_init sample_addrKey)
    (storeRequest sample_addrKey (replicate 32 2) (empty_world []))
  = Continue (storeRequestLoop_init sample_addrKey)
      (mkWorld [] []
         ([] ++ [EvSend storeRequestMsg
                   (BStore (mkStoreRequest (replicate 32 2) [1; 2; 3] 7));
                 EvDbDelete (sample_addrKey ++ replicate 32 2)])
         None (delete (sample_addrKey ++ replicate 32 2) ∅) false).
Proof.
  apply (stored_request_is_served sample_env sample_addrKey (replicate 32 2)
           (mkChunk (replicate 32 2) [1; 2; 3]) (empty_world [])).
  - reflexivity.
  - reflexivity.
  - reflexivity.
  - vm_compute. reflexivity.
Defined.

(** *** What a round of the loop can write *)

Lemma sent_app t1 t2 : sent (t1 ++ t2) = sent t1 ++ sent t2.
Proof. apply filter_app. Qed.

Lemma sent_send code body : sent [EvSend code body] = [EvSend code body].
Proof. unfold sent. rewrite filter_cons_True by exact I. reflexivity. Qed.

Lemma sent_other e : is_send e = false -> sent [e] = [].
Proof.
  intros H. unfold sent. rewrite filter_cons_False; [reflexivity|].
  rewrite H. exact id.
Qed.

Lemma Send_outcome_effect code body w :
  let w1 := (Send_outcome code body w).2 in
  trace w1 = trace w ++ [EvSend code body]
  /\ requestDb w1 = requestDb w /\ reads w1 = reads w
  /\ node w1 = node w /\ quit w1 = quit w.
Proof. unfold Send_outcome. by destruct (sends w). Qed.

(** X18.  A round of the pending-store loop that does not panic leaves the
    transport's incoming side, the session's peer and [quitC] alone; it
    sends at most one message; of the request db it deletes at most one
    key, and only a key that begins with the peer's address key: the
    entries of other peers are never touched.  It ends the loop only when
    [quitC] is closed. *)
Theorem round_writes_own_keys_only env addrKey st w st' w' :
  storeRequestLoop_round env addrKey st w = Continue st' w'
  \/ storeRequestLoop_round env addrKey st w = Break st' w' ->
  reads w' = reads w /\ node w' = node w /\ quit w' = quit w
  /\ (requestDb w' = requestDb w
      \/ exists key, take 32 key = addrKey
                     /\ requestDb w' = delete key (requestDb w))
  /\ (forall k, take 32 k <> addrKey -> requestDb w' !! k = requestDb w !! k)
  /\ (length (sent (trace w')) <= S (length (sent (trace w))))%nat
  /\ (storeRequestLoop_round env addrKey st w = Break st' w' -> quit w = true).
Proof.
  unfold storeRequestLoop_round.
  destruct (reseek env st w) as [[st0 w0]|st1] eqn:Hseek.
  { unfold reseek in Hseek.
    destruct (ls_n st =? 0); [|done].
    destruct (seek env (requestDb w) (ls_key st)); [|done].
    injection Hseek as <- <-.
    intros [[= <- <-]|[=]]. unfold log. cbn [reads node quit requestDb trace].
    repeat split; try done; [by left|].
    rewrite sent_app, sent_other, app_nil_r by done. lia. }
  destruct (len (ls_key st1) <? 32).
  { destruct (short_key_prefix env (ls_key st1)) as [pre|]; [|by intros [|]].
    destruct (bool_decide (pre = addrKey)); cbn [negb]; [by intros [|]|].
    intros [[= <- <-]|[=]]. repeat split; try done; [by left|lia]. }
  destruct (bool_decide_reflect (take 32 (ls_key st1) = addrKey)) as [Hpre|Hpre];
    cbn [negb].
  2:{ intros [[= <- <-]|[=]]. repeat split; try done; [by left|lia]. }
  destruct (dbStore_Get env (drop 32 (ls_key st1))) as [chunk|].
  2:{ intros [[= <- <-]|[=]]. unfold log, set_requestDb.
      cbn [reads node quit requestDb trace].
      repeat split; try done.
      - right. by exists (ls_key st1).
      - intros k Hk. apply lookup_delete_ne. congruence.
      - rewrite sent_app, sent_other, app_nil_r by done. lia. }
  set (req := mkStoreRequest _ _ _).
  destruct (Send_outcome_effect storeRequestMsg (BStore req) w)
    as (Ht & Hdb & Hr & Hn & Hq).
  set (w1 := (Send_outcome storeRequestMsg (BStore req) w).2) in *.
  clearbody w1.
  assert (Hcommon : forall w3 : World,
            (w3 = log (set_requestDb w1 (delete (ls_key st1) (requestDb w1)))
                   (EvDbDelete (ls_key st1))
             \/ w3 = log (log (set_requestDb w1 (delete (ls_key st1) (requestDb w1)))
                            (EvDbDelete (ls_key st1))) EvSleep) ->
            reads w3 = reads w /\ node w3 = node w /\ quit w3 = quit w
            /\ (requestDb w3 = requestDb w
                \/ exists key, take 32 key = addrKey
                               /\ requestDb w3 = delete key (requestDb w))
            /\ (forall k, take 32 k <> addrKey -> requestDb w3 !! k = requestDb w !! k)
            /\ (length (sent (trace w3)) <= S (length (sent (trace w))))%nat).
  { intros w3 [->| ->]; unfold log, set_requestDb;
      cbn [reads node quit requestDb trace]; rewrite Hdb, Ht;
      (split; [done|]); (split; [done|]); (split; [done|]).
    - split; [right; by exists (ls_key st1)|]. split.
      + intros k Hk. apply lookup_delete_ne. congruence.
      + rewrite !sent_app, sent_send, sent_other, app_nil_r by done.
        rewrite length_app. cbn. lia.
    - split; [right; by exists (ls_key st1)|]. split.
      + intros k Hk. apply lookup_delete_ne. congruence.
      + rewrite !sent_app, sent_send, !sent_other, !app_nil_r by done.
        rewrite length_app. cbn. lia. }
  destruct (len (it_Key (tail (ls_it st1))) =? 0).
  - destruct (int_wrap (ls_n st1 - 1) =? 0).
    + specialize (Hcommon _ (or_intror eq_refl)).
      destruct (quit (log (log _ _) _)) eqn:Hquit;
        intros [[= <- <-]|[= <- <-]];
        destruct Hcommon as (? & ? & Hq3 & ? & ? & ?);
        repeat split; try done; congruence.
    + specialize (Hcommon _ (or_introl eq_refl)).
      destruct (quit (log _ _)) eqn:Hquit;
        intros [[= <- <-]|[= <- <-]];
        destruct Hcommon as (? & ? & Hq3 & ? & ? & ?);
        repeat split; try done; congruence.
  - specialize (Hcommon _ (or_introl eq_refl)).
    destruct (quit (log _ _)) eqn:Hquit;
      intros [[= <- <-]|[= <- <-]];
      destruct Hcommon as (? & ? & Hq3 & ? & ? & ?);
      repeat split; try done; congruence.
Qed.

Lemma round_writes_own_keys_only_witness :
  exists st' w',
    storeRequestLoop_round sample_env sample_addrKey
      (storeRequestLoop_init sample_addrKey) pending_world = Continue st' w'
    /\ reads w' = reads pending_world
    /\ (length (sent (trace w')) <= S (length (sent (trace pending_world))))%nat.
Proof.
  eexists _, _.
  assert (H : storeRequestLoop_round sample_env sample_addrKey
                (storeRequestLoop_init sample_addrKey) pending_world
              = Continue (storeRequestLoop_init sample_addrKey)
                  (mkWorld [] []
                     [EvSend storeRequestMsg
                        (BStore (mkStoreRequest (replicate 32 2) [1; 2; 3] 7));
                      EvDbDelete pending_key]
                     None (delete pending_key (requestDb pending_world)) false))
    by (vm_compute; reflexivity).
  split; [exact H|].
  destruct (round_writes_own_keys_only sample_env sample_addrKey _ _ _ _ (or_introl H))
    as (Hr & _ & _ & _ & _ & Hs & _).
  split; [exact Hr|exact Hs].
Defined.

(** *** A pending key whose chunk is not in the store *)

Lemma reseek_settled env st w st1 :
  reseek env st w = inr st1 ->
  forall w1, reseek env st1 w1 = inr st1.
Proof.
  unfold reseek. destruct (Z.eqb_spec (ls_n st) 0) as [H0|H0].
  - destruct (seek env (requestDb w) (ls_key st)); [done|].
    intros [= <-] w1. done.
  - intros [= <-] w1. by destruct (Z.eqb_spec (ls_n st) 0).
Qed.

Lemma round_failed_lookup env addrKey st w st1 :
  reseek env st w = inr st1 ->
  32 <= len (ls_key st1) ->
  take 32 (ls_key st1) = addrKey ->
  dbStore_Get env (drop 32 (ls_key st1)) = None ->
  storeRequestLoop_round env addrKey st w
  = Continue st1 (log (set_requestDb w (delete (ls_key st1) (requestDb w)))
                    (EvDbDelete (ls_key st1))).
Proof.
  intros Hseek Hlen Hpre Hget. unfold storeRequestLoop_round. rewrite Hseek.
  destruct (Z.ltb_spec (len (ls_key st1)) 32); [lia|].
  rewrite bool_decide_eq_true_2 by done. cbn [negb]. by rewrite Hget.
Qed.

Lemma rounds_failed_lookup env addrKey st1 m : forall w,
  (forall w1, reseek env st1 w1 = inr st1) ->
  32 <= len (ls_key st1) ->
  take 32 (ls_key st1) = addrKey ->
  dbStore_Get env (drop 32 (ls_key st1)) = None ->
  exists w',
    storeRequestLoop_rounds m env addrKey st1 w = Continue st1 w'
    /\ trace w' = trace w ++ replicate m (EvDbDelete (ls_key st1))
    /\ (requestDb w' = requestDb w
        \/ requestDb w' = delete (ls_key st1) (requestDb w))
    /\ reads w' = reads w /\ sends w' = sends w
    /\ node w' = node w /\ quit w' = quit w.
Proof.
  induction m as [|m IH]; intros w Hfix Hlen Hpre Hget; cbn [storeRequestLoop_rounds].
  { exists w. rewrite app_nil_r. repeat split; try done. by left. }
  rewrite (round_failed_lookup env addrKey st1 w st1 (Hfix w) Hlen Hpre Hget).
  destruct (IH (log (set_requestDb w (delete (ls_key st1) (requestDb w)))
                  (EvDbDelete (ls_key st1))) Hfix Hlen Hpre Hget)
    as (w' & Hrun & Ht & Hdb & Hr & Hs & Hn & Hq).
  exists w'. split; [done|].
  unfold log, set_requestDb in *. cbn [trace requestDb reads sends node quit] in *.
  split; [by rewrite Ht, <- app_assoc|].
  split; [|done].
  right. destruct Hdb as [->| ->]; [done|apply delete_delete_eq].
Qed.

(** X19.  When the chunk of a pending key of the peer is not in the DB
    store, the round deletes the key and goes on without moving the
    iterator or the round counter: every later round looks the same key up
    again and deletes it again.  The loop stays in that state for any
    number of rounds, sends nothing, never sleeps, and does not look at
    [quitC]: it goes on even when [quitC] is closed. *)
Theorem failed_lookup_is_retried_for_ever env addrKey st w st1 m :
  reseek env st w = inr st1 ->
  32 <= len (ls_key st1) ->
  take 32 (ls_key st1) = addrKey ->
  dbStore_Get env (drop 32 (ls_key st1)) = None ->
  exists w',
    storeRequestLoop_rounds (S m) env addrKey st w = Continue st1 w'
    /\ trace w' = trace w ++ replicate (S m) (EvDbDelete (ls_key st1))
    /\ requestDb w' = delete (ls_key st1) (requestDb w)
    /\ reads w' = reads w /\ sends w' = sends w
    /\ node w' = node w /\ quit w' = quit w.
Proof.
  intros Hseek Hlen Hpre Hget. cbn [storeRequestLoop_rounds].
  rewrite (round_failed_lookup env addrKey st w st1 Hseek Hlen Hpre Hget).
  destruct (rounds_failed_lookup env addrKey st1 m
              (log (set_requestDb w (delete (ls_key st1) (requestDb w)))
                 (EvDbDelete (ls_key st1)))
              (reseek_settled env st w st1 Hseek) Hlen Hpre Hget)
    as (w' & Hrun & Ht & Hdb & Hr & Hs & Hn & Hq).
  exists w'. split; [done|].
  unfold log, set_requestDb in *. cbn [trace requestDb reads sends node quit] in *.
  split; [by rewrite Ht, <- app_assoc|].
  split; [|done].
  destruct Hdb as [->| ->]; [done|apply delete_delete_eq].
Qed.

Lemma failed_lookup_is_retried_for_ever_witness :
  exists w',
    storeRequestLoop_rounds 3
      (mkEnv (fun _ => None) (fun _ => None) (fun _ => None) (fun _ => None)
             [] [] 0 (fun _ => None) ldb_seek 7 (fun _ => None))
      sample_addrKey (storeRequestLoop_init sample_addrKey)
      (mkWorld [] [] [] None {[ pending_key := [0] ]} true)
    = Continue (mkLoopState (sample_addrKey ++ replicate 32 0) pending_key 100
                  [pending_key]) w'
    /\ trace w' = [] ++ replicate 3 (EvDbDelete pending_key)
    /\ quit w' = true.
Proof.
  destruct (failed_lookup_is_retried_for_ever
              (mkEnv (fun _ => None) (fun _ => None) (fun _ => None) (fun _ => None)
                     [] [] 0 (fun _ => None) ldb_seek 7 (fun _ => None))
              sample_addrKey (storeRequestLoop_init sample_addrKey)
              (mkWorld [] [] [] None {[ pending_key := [0] ]} true)
              (mkLoopState (sample_addrKey ++ replicate 32 0) pending_key 100
                 [pending_key]) 2%nat)
    as (w' & Hrun & Ht & _ & _ & _ & _ & Hq).
  - vm_compute. reflexivity.
  - vm_compute. congruence.
  - reflexivity.
  - reflexivity.
  - exists w'. split; [exact Hrun|]. split; [exact Ht|exact Hq].
Defined.

(** *** Behind the peer's range of keys *)

Lemma bytes_le_refl a : bytes_le a a = true.
Proof.
  induction a as [|x a IH]; [done|]. cbn [bytes_le].
  rewrite Z.eqb_refl, IH. by rewrite orb_true_r.
Qed.

Lemma bytes_le_cons x a y b :
  bytes_le (x :: a) (y :: b) = true <-> x < y \/ (x = y /\ bytes_le a b = true).
Proof.
  cbn [bytes_le]. rewrite orb_true_iff, andb_true_iff, Z.ltb_lt, Z.eqb_eq. tauto.
Qed.

Lemma bytes_le_trans a : forall b c,
  bytes_le a b = true -> bytes_le b c = true -> bytes_le a c = true.
Proof.
  induction a as [|x a IH]; intros [|y b] [|z c]; try done.
  rewrite !bytes_le_cons. intros [H1|[-> H1]] [H2|[-> H2]]; try (left; lia).
  right. split; [done|]. by eapply IH.
Qed.

Lemma bytes_le_antisym a : forall b,
  bytes_le a b = true -> bytes_le b a = true -> a = b.
Proof.
  induction a as [|x a IH]; intros [|y b]; try done.
  rewrite !bytes_le_cons. intros [H1|[-> H1]] [H2|[E H2]]; try lia.
  f_equal. by apply IH.
Qed.

Lemma bytes_le_take n : forall a b,
  bytes_le a b = true -> bytes_le (take n a) (take n b) = true.
Proof.
  induction n as [|n IH]; intros [|x a] [|y b]; try done.
  cbn [take]. rewrite !bytes_le_cons. intros [H|[-> H]]; [by left|].
  right. split; [done|]. by apply IH.
Qed.

(** A key at or behind a key of a later range is of a later range. *)
Lemma later_range addrKey k k' :
  bytes_le (take 32 k) addrKey = false ->
  key_le k k' ->
  bytes_le (take 32 k') addrKey = false /\ take 32 k' <> addrKey.
Proof.
  intros Hk Hle. apply (bytes_le_take 32) in Hle.
  assert (H : bytes_le (take 32 k') addrKey = false).
  { destruct (bytes_le (take 32 k') addrKey) eqn:E; [|done].
    by rewrite (bytes_le_trans _ _ _ Hle E) in Hk. }
  split; [done|]. intros E. rewrite E, bytes_le_refl in H. done.
Qed.

Lemma keys_64_insert db addrKey key :
  keys_64 db -> keys_64 (<[peerKey addrKey key := [0]]> db).
Proof.
  intros Hdb k v. rewrite lookup_insert_Some.
  intros [[<- _]|[_ H]]; [apply peerKey_length|by eapply Hdb].
Qed.

Section PastRange.

Variable env : Env.
Variable addrKey : Key.
Hypothesis addrKey_length : length addrKey = 32%nat.
(* the iterator yields keys of the db that are not below the key sought *)
Hypothesis seek_from : forall db k k',
  k' ∈ seek env db k -> key_le k k' /\ is_Some (db !! k').

Lemma round_past_range st w :
  past_range addrKey st -> keys_64 (requestDb w) ->
  exists st' sleeps,
    storeRequestLoop_round env addrKey st w
    = Continue st' (mkWorld (reads w) (sends w) (trace w ++ sleeps)
                      (node w) (requestDb w) (quit w))
    /\ past_range addrKey st'
    /\ (sleeps = [] \/ sleeps = [EvSleep]).
Proof using All.
  intros [Hn Hkey] Hdb. unfold storeRequestLoop_round, reseek. rewrite Hn.
  change (0 =? 0) with true. cbv iota.
  destruct (seek env (requestDb w) (ls_key st)) as [|k rest] eqn:Hseek.
  { eexists _, [EvSleep]. split; [reflexivity|]. split; [by split|by right]. }
  cbn [ls_key ls_start ls_it ls_n].
  destruct (seek_from (requestDb w) (ls_key st) k) as [Hle [v Hv]].
  { rewrite Hseek. by left. }
  destruct (later_range addrKey (ls_key st) k Hkey Hle) as [Hk' Hne].
  assert (Hlen : (len k <? 32) = false).
  { apply Z.ltb_ge. unfold len. rewrite (Hdb k v Hv). lia. }
  rewrite Hlen. rewrite bool_decide_eq_false_2 by done. cbn [negb].
  eexists _, []. rewrite app_nil_r. split; [by destruct w|].
  split; [by split|by left].
Qed.

Lemma schedule_past_range acts : forall st w,
  past_range addrKey st -> keys_64 (requestDb w) ->
  exists st' w',
    run_schedule acts env addrKey st w = Continue st' w'
    /\ past_range addrKey st'
    /\ sent (trace w') = sent (trace w)
    /\ (forall k, is_Some (requestDb w !! k) -> is_Some (requestDb w' !! k))
    /\ (forall key, ActStore key ∈ acts ->
          is_Some (requestDb w' !! peerKey addrKey key)).
Proof using All.
  induction acts as [|[|key] acts IH]; intros st w Hst Hdb; cbn [run_schedule].
  - exists st, w. split; [done|]. split; [done|]. split; [done|].
    split; [done|]. by intros key Hin%elem_of_nil.
  - destruct (round_past_range st w Hst Hdb) as (st1 & sleeps & -> & Hst1 & Hsl).
    destruct (IH st1 (mkWorld (reads w) (sends w) (trace w ++ sleeps)
                        (node w) (requestDb w) (quit w)) Hst1 Hdb)
      as (st' & w' & -> & Hst' & Hsent & Hkeep & Hnew).
    exists st', w'. split; [done|]. split; [done|].
    cbn [trace requestDb] in *.
    split; [|split; [done|]].
    + rewrite Hsent, sent_app.
      destruct Hsl as [->| ->]; [by rewrite app_nil_r|].
      by rewrite sent_other, app_nil_r.
    + intros key' [Hin|Hin]%elem_of_cons; [done|by apply Hnew].
  - destruct (IH st (storeRequest addrKey key w) Hst
                (keys_64_insert _ addrKey key Hdb))
      as (st' & w' & -> & Hst' & Hsent & Hkeep & Hnew).
    exists st', w'. split; [done|]. split; [done|].
    unfold storeRequest, set_requestDb in *. cbn [trace requestDb] in *.
    split; [done|]. split.
    + intros k [v Hk]. apply Hkeep.
      destruct (decide (peerKey addrKey key = k)) as [<-|Hne].
      * rewrite lookup_insert_eq. by eexists.
      * rewrite lookup_insert_ne by done. by eexists.
    + intros key' [[= ->]|Hin]%elem_of_cons; [|by apply Hnew].
      apply Hkeep. rewrite lookup_insert_eq. by eexists.
Qed.

End PastRange.

Lemma ldb_seek_from db k k' :
  k' ∈ ldb_seek db k -> key_le k k' /\ is_Some (db !! k').
Proof.
  unfold ldb_seek. rewrite merge_sort_Permutation.
  intros [Hle Hin]%list_elem_of_filter. split; [done|].
  apply list_elem_of_In, in_map_iff in Hin as ([k0 v] & <- & Hin).
  apply list_elem_of_In, elem_of_map_to_list in Hin. by exists v.
Qed.

(** X20.  Once the loop has come to a key behind the range of its peer (it
    does so in its first round when the first key it finds from the peer's
    start key on belongs to a later peer), it never leaves that state: it
    seeks from that key again in every round and never goes back to the
    start key.  Whatever [storeRequest] enters for the peer from then on
    stays in the request db: under every schedule of rounds and
    [storeRequest] calls nothing is sent and nothing is deleted. *)
Theorem loop_never_returns_to_its_range env addrKey w k rest acts :
  length addrKey = 32%nat ->
  (forall db k0 k', k' ∈ seek env db k0 -> key_le k0 k' /\ is_Some (db !! k')) ->
  keys_64 (requestDb w) ->
  seek env (requestDb w) (addrKey ++ replicate 32 0) = k :: rest ->
  take 32 k <> addrKey ->
  exists st1 st' w',
    storeRequestLoop_round env addrKey (storeRequestLoop_init addrKey) w
      = Continue st1 w
    /\ past_range addrKey st1
    /\ run_schedule acts env addrKey st1 w = Continue st' w'
    /\ past_range addrKey st'
    /\ sent (trace w') = sent (trace w)
    /\ (forall k0, is_Some (requestDb w !! k0) -> is_Some (requestDb w' !! k0))
    /\ (forall key, ActStore key ∈ acts ->
          is_Some (requestDb w' !! peerKey addrKey key)).
Proof.
  intros Ha Hfrom Hdb Hseek Hne.
  destruct (Hfrom (requestDb w) (addrKey ++ replicate 32 0) k) as [Hle [v Hv]].
  { rewrite Hseek. by left. }
  assert (Hlen : (len k <? 32) = false).
  { apply Z.ltb_ge. unfold len. rewrite (Hdb k v Hv). lia. }
  assert (Hpast : bytes_le (take 32 k) addrKey = false).
  { destruct (bytes_le (take 32 k) addrKey) eqn:E; [|done]. exfalso. apply Hne.
    apply bytes_le_antisym; [done|].
    apply (bytes_le_take 32) in Hle.
    by rewrite take_app_length' in Hle by done. }
  set (st1 := mkLoopState (addrKey ++ replicate 32 0) k 0 (k :: rest)).
  assert (Hst1 : past_range addrKey st1) by (by split).
  destruct (schedule_past_range env addrKey Ha Hfrom acts st1 w Hst1 Hdb)
    as (st' & w' & Hrun & Hst' & Hsent & Hkeep & Hnew).
  exists st1, st', w'.
  split; [|split; [exact Hst1|split; [exact Hrun|split; [exact Hst'|
    split; [exact Hsent|split; [exact Hkeep|exact Hnew]]]]]].
  rewrite init_start by done.
  unfold storeRequestLoop_round, reseek. cbn [ls_n ls_key ls_start ls_it].
  change (0 =? 0) with true. cbv iota. rewrite Hseek.
  cbn [ls_n ls_key ls_start ls_it]. rewrite Hlen.
  by rewrite bool_decide_eq_false_2 by done.
Qed.

Lemma loop_never_returns_to_its_range_witness :
  let w := mkWorld [] [] [] None {[ replicate 64 9 := [0] ]} false in
  exists st1 st' w',
    storeRequestLoop_round sample_env sample_addrKey
      (storeRequestLoop_init sample_addrKey) w = Continue st1 w
    /\ run_schedule [ActStore (replicate 32 2); ActRound; ActRound]
         sample_env sample_addrKey st1 w = Continue st' w'
    /\ sent (trace w') = sent (trace w)
    /\ is_Some (requestDb w' !! peerKey sample_addrKey (replicate 32 2)).
Proof.
  intros w.
  destruct (loop_never_returns_to_its_range sample_env sample_addrKey w
              (replicate 64 9) []
              [ActStore (replicate 32 2); ActRound; ActRound])
    as (st1 & st' & w' & H1 & _ & H2 & _ & H3 & _ & H4).
  - reflexivity.
  - exact ldb_seek_from.
  - intros k0 v. unfold w. cbn [requestDb].
    intros [<- _]%lookup_singleton_Some. reflexivity.
  - vm_compute. reflexivity.
  - vm_compute. congruence.
  - exists st1, st', w'. split; [exact H1|]. split; [exact H2|].
    split; [exact H3|]. apply H4. by left.
Defined.

(** *** The session and its loop, side by side *)

(** Scheduled on its own, the goroutine of [storeRequestLoop] does a round
    as [storeRequestLoop_round] has it. *)
Lemma loop_round_storeRequestLoop_round env addrKey st w :
  loop_round 5 env addrKey (AtTop st) w = storeRequestLoop_round env addrKey st w.
Proof.
  unfold storeRequestLoop_round, reseek.
  assert (Hroute : forall st1,
            match route env addrKey st1 with
            | AtTop st' => Continue st' w
            | Exited st' => Break st' w
            | Panicked => RoundPanics
            | _ => loop_round 4 env addrKey (route env addrKey st1) w
            end
            = (let key := ls_key st1 in
               if len key <? 32 then
                 match short_key_prefix env key with
                 | None => RoundPanics
                 | Some pre =>
                     if negb (bool_decide (pre = addrKey))
                     then Continue (mkLoopState (ls_start st1) key 0 (ls_it st1)) w
                     else RoundPanics
                 end
               else if negb (bool_decide (take 32 key = addrKey)) then
                 Continue (mkLoopState (ls_start st1) key 0 (ls_it st1)) w
               else
                 match dbStore_Get env (drop 32 key) with
                 | None =>
                     Continue st1
                       (log (set_requestDb w (delete key (requestDb w)))
                          (EvDbDelete key))
                 | Some chunk =>
                     let req := mkStoreRequest (chunk_Key chunk) (chunk_SData chunk)
                                  (generateId env) in
                     let w1 := (Send_outcome storeRequestMsg (BStore req) w).2 in
                     let n1 := int_wrap (ls_n st1 - 1) in
                     let w2 := log (set_requestDb w1 (delete key (requestDb w1)))
                                 (EvDbDelete key) in
                     let it1 := tail (ls_it st1) in
                     let key1 := it_Key it1 in
                     let '(key2, n2, w3) :=
                       if len key1 =? 0
                       then (ls_start st1, 0, if n1 =? 0 then log w2 EvSleep else w2)
                       else (key1, n1, w2) in
                     let st2 := mkLoopState (ls_start st1) key2 n2 it1 in
                     if quit w3 then Break st2 w3 else Continue st2 w3
                 end)).
  { intros st1. unfold route. cbn zeta.
    destruct (len (ls_key st1) <? 32).
    { destruct (short_key_prefix env (ls_key st1)) as [pre|]; [|done].
      by destruct (bool_decide (pre = addrKey)). }
    destruct (bool_decide (take 32 (ls_key st1) = addrKey)); cbn [negb]; [|done].
    destruct (dbStore_Get env (drop 32 (ls_key st1))) as [chunk|]; [|done].
    cbn [loop_round loop_step].
    destruct (len (it_Key (tail (ls_it st1))) =? 0).
    - destruct (int_wrap (ls_n st1 - 1) =? 0); cbn [loop_round loop_step];
        by destruct (quit _).
    - cbn [loop_round loop_step]. by destruct (quit _). }
  change (loop_round 5 env addrKey (AtTop st) w)
    with (match loop_step env addrKey (AtTop st) w with
          | Some (AtTop st', w') => Continue st' w'
          | Some (Exited st', w') => Break st' w'
          | Some (Panicked, _) => RoundPanics
          | Some (pc', w') => loop_round 4 env addrKey pc' w'
          | None => RoundPanics
          end).
  cbn [loop_step].
  destruct (ls_n st =? 0).
  - destruct (seek env (requestDb w) (ls_key st)) as [|k rest]; [reflexivity|].
    exact (Hroute (mkLoopState (ls_start st) k 100 (k :: rest))).
  - exact (Hroute st).
Qed.

Lemma main_calls_app t1 t2 : main_calls (t1 ++ t2) = main_calls t1 ++ main_calls t2.
Proof. apply filter_app. Qed.

Lemma loop_calls_app t1 t2 : loop_calls (t1 ++ t2) = loop_calls t1 ++ loop_calls t2.
Proof. apply filter_app. Qed.

Lemma calls_of_main e :
  by_loop e = false -> main_calls [e] = [e] /\ loop_calls [e] = [].
Proof.
  intros H. unfold main_calls, loop_calls, by_main. split.
  - rewrite filter_cons_True; [done|]. rewrite H. exact I.
  - rewrite filter_cons_False; [done|]. rewrite H. exact id.
Qed.

Lemma calls_of_loop e :
  by_loop e = true -> main_calls [e] = [] /\ loop_calls [e] = [e].
Proof.
  intros H. unfold main_calls, loop_calls, by_main. split.
  - rewrite filter_cons_False; [done|]. rewrite H. exact id.
  - rewrite filter_cons_True; [done|]. rewrite H. exact I.
Qed.

Lemma dispatch_registration env r ev :
  dispatch env r = inl ev -> is_registration ev = true.
Proof.
  unfold dispatch. destruct r as [msg|e]; [|done]. intros H.
  repeat match type of H with
         | context [if ?c then _ else _] => destruct c
         | context [match ?o with Some _ => _ | None => _ end] => destruct o
         end; by simplify_eq.
Qed.

Lemma registration_by_main ev : is_registration ev = true -> by_loop ev = false.
Proof. by destruct ev. Qed.

(** One more call [e] of the goroutine of [runBzzProtocol]. *)
Lemma session_ok_main_call env addrKey w0 mpc lpc w calls mpc' w' e :
  session_ok env addrKey w0 (mkSession mpc lpc w) calls ->
  by_loop e = false -> e <> EvCloseQuit ->
  trace w' = trace w ++ [e] -> quit w' = quit w ->
  main_called env mpc' (node w0) (node w') (main_calls calls ++ [e]) ->
  (quit w = true -> exists e', mpc' = Returned (Some e')) ->
  session_ok env addrKey w0 (mkSession mpc' lpc w') (calls ++ [e]).
Proof.
  intros (Ht & Hm & Hl & Hat & Hq & Hqr & Hex) He Hne Ht' Hq' Hm' Hqr'.
  unfold session_ok. cbn [world main_pc loop_pc] in *.
  destruct (calls_of_main e He) as [Em El].
  split; [by rewrite Ht', Ht, <- app_assoc|].
  split; [by rewrite main_calls_app, Em|].
  split; [by rewrite loop_calls_app, El, app_nil_r|].
  split; [done|].
  split.
  { rewrite Hq', Hq, elem_of_app, list_elem_of_singleton.
    split; [by left|]. intros [?|Heq]; [done|]. by destruct Hne. }
  split; [by rewrite Hq'|]. intros st Hst. rewrite Hq'. by eapply Hex.
Qed.

(** A step of the goroutine of [runBzzProtocol] that calls nothing. *)
Lemma session_ok_main_quiet env addrKey w0 mpc lpc w calls mpc' w' :
  session_ok env addrKey w0 (mkSession mpc lpc w) calls ->
  trace w' = trace w -> quit w' = quit w ->
  main_called env mpc' (node w0) (node w') (main_calls calls) ->
  (quit w = true -> exists e', mpc' = Returned (Some e')) ->
  session_ok env addrKey w0 (mkSession mpc' lpc w') calls.
Proof.
  intros (Ht & Hm & Hl & Hat & Hq & Hqr & Hex) Ht' Hq' Hm' Hqr'.
  unfold session_ok. cbn [world main_pc loop_pc] in *.
  split; [by rewrite Ht'|]. split; [done|]. split; [done|]. split; [done|].
  split; [by rewrite Hq'|]. split; [by rewrite Hq'|].
  intros st Hst. rewrite Hq'. by eapply Hex.
Qed.

Lemma main_step_ok env addrKey w0 mpc lpc w calls mpc' w' :
  session_ok env addrKey w0 (mkSession mpc lpc w) calls ->
  main_step env mpc w = Some (mpc', w') ->
  exists calls', session_ok env addrKey w0 (mkSession mpc' lpc w') calls'.
Proof.
  intros Hok Hstep. pose proof Hok as (Ht & Hm & Hl & Hat & Hq & Hqr & Hex).
  cbn [world main_pc loop_pc] in *.
  assert (Hopen : forall pc, mpc = pc -> (forall e', pc <> Returned (Some e')) ->
                    quit w = true -> exists e' : error, mpc' = Returned (Some e')).
  { intros pc <- Hpc Hquit. destruct (Hqr Hquit) as [e' ->]. by destruct (Hpc e'). }
  destruct mpc as [| |a| |ev|e|e|err]; cbn [main_step main_called] in *.
  - (* Send of the status message *)
    injection Hstep as <- <-. destruct Hm as [Hc Hn].
    destruct (Send_outcome_effect statusMsg (handshake env) w)
      as (Ht1 & _ & _ & Hn1 & Hq1).
    exists (calls ++ [EvSend statusMsg (handshake env)]).
    eapply session_ok_main_call; try done.
    + rewrite Hc. destruct (Send_outcome _ _ w).1; cbn [main_called app].
      * left. split; [done|congruence].
      * split; [done|congruence].
    + by apply (Hopen AtSendStatus).
  - (* the first message *)
    destruct (reads w) as [|r rest]; [done|]. destruct Hm as [Hc Hn].
    destruct (check_status env r) as [a|e]; injection Hstep as <- <-;
      exists calls; eapply session_ok_main_quiet; try done;
      try (by apply (Hopen AtReadStatus)).
    left. done.
  - (* hive.addPeer *)
    injection Hstep as <- <-. destruct Hm as [Hc Hn].
    exists (calls ++ [EvAddPeer a]).
    eapply session_ok_main_call; try done; [|by apply (Hopen (AtAddPeer a))].
    rewrite Hc. cbn [main_called]. exists a, []. done.
  - (* a message of the loop *)
    destruct (reads w) as [|r rest]; [done|].
    destruct (dispatch env r) as [ev|e] eqn:Hd; injection Hstep as <- <-;
      exists calls; eapply session_ok_main_quiet; try done;
      try (by apply (Hopen AtHandle)).
    split; [done|]. by eapply dispatch_registration.
  - (* the request is passed on *)
    injection Hstep as <- <-. destruct Hm as [(a & regs & Hc & Hregs & Hn) Hev].
    exists (calls ++ [ev]).
    eapply session_ok_main_call; try done.
    + by apply registration_by_main.
    + intros ->. done.
    + rewrite Hc. cbn [main_called]. exists a, (regs ++ [ev]).
      rewrite forallb_app, Hregs. cbn [forallb]. rewrite Hev.
      rewrite !app_nil_r, <- !app_assoc. done.
    + by apply (Hopen (AtRegister ev)).
  - (* hive.removePeer *)
    injection Hstep as <- <-. destruct Hm as (a & regs & Hc & Hregs & Hn).
    exists (calls ++ [EvRemovePeer]).
    eapply session_ok_main_call; try done; [|by apply (Hopen (AtRemovePeer e))].
    rewrite Hc. cbn [main_called]. exists a, regs.
    rewrite !app_nil_r, <- !app_assoc. done.
  - (* close(quitC) *)
    injection Hstep as <- <-. destruct Hm as (a & regs & Hc & Hregs & Hn).
    exists (calls ++ [EvCloseQuit]).
    destruct (calls_of_main EvCloseQuit eq_refl) as [Em El].
    unfold session_ok, log, set_quit.
    cbn [world main_pc loop_pc trace quit node].
    split; [by rewrite Ht, <- app_assoc|].
    split.
    { rewrite main_calls_app, Em, Hc. cbn [main_called]. right. exists a, regs.
      rewrite <- !app_assoc. done. }
    split; [by rewrite loop_calls_app, El, app_nil_r|].
    split; [done|].
    split; [split; [intros _; apply elem_of_app; right; by left|done]|].
    split; [intros _; by exists e|done].
  - done.
Qed.

(** A step of the loop: the calls it adds are calls of the loop. *)
Lemma session_ok_loop_calls env addrKey w0 mpc lpc w calls lpc' w' more :
  session_ok env addrKey w0 (mkSession mpc lpc w) calls ->
  trace w' = trace w ++ more -> quit w' = quit w -> node w' = node w ->
  Forall (fun e => by_loop e = true /\ loop_call env addrKey e) more ->
  loop_at env addrKey lpc' ->
  (forall st, lpc' = Exited st -> quit w = true) ->
  session_ok env addrKey w0 (mkSession mpc lpc' w') (calls ++ more).
Proof.
  intros (Ht & Hm & Hl & Hat & Hq & Hqr & Hex) Ht' Hq' Hn' Hmore Hat' Hex'.
  unfold session_ok. cbn [world main_pc loop_pc] in *.
  assert (Hcalls : main_calls more = [] /\ loop_calls more = more
                   /\ EvCloseQuit ∉ more).
  { clear -Hmore. induction Hmore as [|e more [He _] _ (IH1 & IH2 & IH3)].
    - split; [done|]. split; [done|]. by intros ?%elem_of_nil.
    - destruct (calls_of_loop e He) as [Em El].
      change (e :: more) with ([e] ++ more).
      rewrite main_calls_app, loop_calls_app, Em, El, IH1, IH2.
      split; [done|]. split; [done|].
      intros [Heq%list_elem_of_singleton|?]%elem_of_app; [by subst e|done]. }
  destruct Hcalls as (Em & El & Hnc).
  split; [by rewrite Ht', Ht, <- app_assoc|].
  split; [by rewrite main_calls_app, Em, app_nil_r, Hn'|].
  split.
  { rewrite loop_calls_app, El. apply Forall_app. split; [done|].
    eapply Forall_impl; [done|]. by intros e [_ ?]. }
  split; [done|].
  split.
  { rewrite Hq', Hq, elem_of_app.
    split; [by left|]. intros [?|?]; [done|]. by destruct Hnc. }
  split; [by rewrite Hq'|]. intros st Hst. rewrite Hq'. by eapply Hex'.
Qed.

Lemma route_at env addrKey st : loop_at env addrKey (route env addrKey st).
Proof.
  unfold route. cbn zeta.
  destruct (Z.ltb_spec (len (ls_key st)) 32) as [|Hlen].
  { destruct (short_key_prefix env (ls_key st)) as [pre|]; [|done].
    by destruct (bool_decide (pre = addrKey)). }
  destruct (bool_decide_reflect (take 32 (ls_key st) = addrKey)) as [Hpre|];
    cbn [negb]; [|done].
  destruct (dbStore_Get env (drop 32 (ls_key st))) as [chunk|] eqn:Hget; cbn; done.
Qed.

Lemma route_not_exited env addrKey st st' : route env addrKey st <> Exited st'.
Proof.
  unfold route. cbn zeta.
  repeat match goal with
         | |- context [if ?c then _ else _] => destruct c
         | |- context [match ?o with Some _ => _ | None => _ end] => destruct o
         end; done.
Qed.

Lemma loop_step_ok env addrKey w0 mpc lpc w calls lpc' w' :
  session_ok env addrKey w0 (mkSession mpc lpc w) calls ->
  loop_step env addrKey lpc w = Some (lpc', w') ->
  exists calls', session_ok env addrKey w0 (mkSession mpc lpc' w') calls'.
Proof.
  intros Hok Hstep. pose proof Hok as (Ht & Hm & Hl & Hat & Hq & Hqr & Hex).
  cbn [world main_pc loop_pc] in *.
  destruct lpc as [st|st|st|st chunk|st|st|st|st|]; cbn [loop_step loop_at] in *.
  - (* the head of the loop *)
    exists (calls ++ []).
    assert (Hr : exists st1, lpc' = route env addrKey st1 /\ w' = w
                 \/ exists st1, lpc' = AtSleepInvalid st1 /\ w' = w).
    { destruct (ls_n st =? 0).
      - destruct (seek env (requestDb w) (ls_key st)) as [|k rest];
          injection Hstep as <- <-; [exists st; right; by eexists|].
        eexists. by left.
      - injection Hstep as <- <-. exists st. by left. }
    destruct Hr as [st1 [[-> ->]|(st2 & -> & ->)]].
    + eapply session_ok_loop_calls; try done; [by rewrite app_nil_r|apply route_at|].
      intros st' Hst'. by destruct (route_not_exited env addrKey st1 st').
    + eapply session_ok_loop_calls; try done. by rewrite app_nil_r.
  - injection Hstep as <- <-. exists (calls ++ [EvSleep]).
    eapply session_ok_loop_calls; try done. constructor; [done|constructor].
  - injection Hstep as <- <-. exists (calls ++ [EvDbDelete (ls_key st)]).
    eapply session_ok_loop_calls; try done. constructor; [done|constructor].
  - injection Hstep as <- <-.
    set (req := mkStoreRequest _ _ _).
    destruct (Send_outcome_effect storeRequestMsg (BStore req) w)
      as (Ht1 & _ & _ & Hn1 & Hq1).
    exists (calls ++ [EvSend storeRequestMsg (BStore req)]).
    destruct Hat as (Hlen & Hpre & Hget).
    eapply session_ok_loop_calls; try done.
    constructor; [|constructor]. split; [done|]. split; [done|].
    by exists (drop 32 (ls_key st)), chunk.
  - exists (calls ++ [EvDbDelete (ls_key st)]).
    assert (Hr : exists lpc1,
              lpc' = lpc1
              /\ w' = log (set_requestDb w (delete (ls_key st) (requestDb w)))
                        (EvDbDelete (ls_key st))
              /\ loop_at env addrKey lpc1 /\ forall st', lpc1 <> Exited st').
    { destruct (len (it_Key (tail (ls_it st))) =? 0).
      - destruct (int_wrap (ls_n st - 1) =? 0); injection Hstep as <- <-;
          eexists; split; [done| |done|]; done.
      - injection Hstep as <- <-. eexists. done. }
    destruct Hr as (lpc1 & -> & -> & Hat1 & Hne).
    eapply session_ok_loop_calls; try done; [constructor; [done|constructor]|].
    intros st' Hst'. by destruct (Hne st').
  - injection Hstep as <- <-. exists (calls ++ [EvSleep]).
    eapply session_ok_loop_calls; try done. constructor; [done|constructor].
  - injection Hstep as <- <-. exists (calls ++ []).
    eapply session_ok_loop_calls; try done; [by rewrite app_nil_r|by destruct (quit w)|].
    intros st'. by destruct (quit w).
  - done.
  - done.
Qed.

Lemma turn_ok env addrKey w0 s calls t :
  session_ok env addrKey w0 s calls ->
  exists calls', session_ok env addrKey w0 (turn env addrKey s t) calls'.
Proof.
  intros Hok. destruct s as [mpc lpc w]. unfold turn. cbn [loop_pc main_pc world].
  assert (Hgo : exists calls',
            session_ok env addrKey w0
              match t with
              | TurnMain =>
                  match main_step env mpc w with
                  | Some (pc', w') => mkSession pc' lpc w'
                  | None => mkSession mpc lpc w
                  end
              | TurnLoop =>
                  match loop_step env addrKey lpc w with
                  | Some (pc', w') => mkSession mpc pc' w'
                  | None => mkSession mpc lpc w
                  end
              | TurnOthers db => mkSession mpc lpc (set_requestDb w db)
              end calls').
  { destruct t as [| |db].
    - destruct (main_step env mpc w) as [[pc' w']|] eqn:Hs; [|by exists calls].
      by eapply main_step_ok.
    - destruct (loop_step env addrKey lpc w) as [[pc' w']|] eqn:Hs; [|by exists calls].
      by eapply loop_step_ok.
    - exists calls. exact Hok. }
  destruct lpc; try exact Hgo. by exists calls.
Qed.

Lemma turns_ok env addrKey w0 ts : forall s calls,
  session_ok env addrKey w0 s calls ->
  exists calls', session_ok env addrKey w0 (turns env addrKey s ts) calls'.
Proof.
  induction ts as [|t ts IH]; intros s calls Hok; [by exists calls|].
  destruct (turn_ok env addrKey w0 s calls t Hok) as [calls1 Hok1].
  exact (IH _ _ Hok1).
Qed.

(** X16.  [runBzzProtocol] never returns a nil error, and what its own
    goroutine calls is, in this order: [Send] of the status message; if the
    handshake is accepted, [hive.addPeer], one call per request it passes
    on, [hive.removePeer] and [close(quitC)].  The pending-store loop it
    has started before the handshake runs beside it under every schedule:
    its calls ([Send] of store requests on the same transport, [Delete] of
    keys of its peer, [Sleep]) may stand anywhere between those of the
    session, before the status message too.  Nothing but [close(quitC)]
    ends the loop: when the handshake is turned down [quitC] stays open and
    the loop goes on for ever.  Each goroutine scheduled on its own does
    what [runBzzProtocol] and a round of [storeRequestLoop] do. *)
Theorem runBzzProtocol_never_returns_nil env addrKey w ts :
  quit w = false ->
  let s := turns env addrKey (session_start addrKey w) ts in
  (exists calls,
     trace (world s) = trace w ++ calls
     /\ main_called env (main_pc s) (node w) (node (world s)) (main_calls calls)
     /\ Forall (loop_call env addrKey) (loop_calls calls)
     /\ (main_calls calls = [EvSend statusMsg (handshake env)] ->
         quit (world s) = false))
  /\ main_pc s <> Returned None
  /\ (forall st, loop_pc s = Exited st ->
        quit (world s) = true /\ exists e, main_pc s = Returned (Some e))
  /\ main_run (2 * length (reads w) + 6) env AtSendStatus w = runBzzProtocol env w
  /\ (forall st w1,
        loop_round 5 env addrKey (AtTop st) w1
        = storeRequestLoop_round env addrKey st w1).
Proof.
  intros Hquit s.
  assert (Hok0 : session_ok env addrKey w (session_start addrKey w) []).
  { unfold session_ok, session_start. cbn [world main_pc loop_pc main_called loop_at].
    split; [by rewrite app_nil_r|]. split; [done|]. split; [constructor|].
    split; [done|]. rewrite Hquit.
    split; [split; [done|by intros ?%elem_of_nil]|]. done. }
  destruct (turns_ok env addrKey w ts _ _ Hok0)
    as (calls & Ht & Hm & Hl & Hat & Hq & Hqr & Hex).
  fold s in Ht, Hm, Hl, Hat, Hq, Hqr, Hex.
  split; [|split; [|split; [|split]]].
  - exists calls. split; [done|]. split; [done|]. split; [done|].
    intros Hc. destruct (quit (world s)) eqn:Hqs; [|done].
    assert (Hin : EvCloseQuit ∈ main_calls calls).
    { apply list_elem_of_filter. split; [exact I|]. by apply Hq. }
    rewrite Hc in Hin. by apply list_elem_of_singleton in Hin.
  - intros Hpc. rewrite Hpc in Hm. exact Hm.
  - intros st Hst. split; [by eapply Hex|]. apply Hqr. by eapply Hex.
  - apply main_run_runBzzProtocol.
  - intros st w1. apply loop_round_storeRequestLoop_round.
Qed.

Lemma runBzzProtocol_never_returns_nil_witness :
  let s := turns sample_env sample_addrKey
             (session_start sample_addrKey unwelcome_world)
             [TurnLoop; TurnLoop; TurnMain; TurnMain; TurnLoop; TurnLoop; TurnLoop] in
  main_pc s = Returned (Some (ProtoError ErrNoStatusMsg))
  /\ trace (world s)
     = [EvSend storeRequestMsg (BStore (mkStoreRequest (replicate 32 2) [1; 2; 3] 7));
        EvSend statusMsg (handshake sample_env);
        EvDbDelete pending_key]
  /\ quit (world s) = false
  /\ (exists st, loop_pc s = AtSleepInvalid st).
Proof.
  intros s.
  assert (Hpc : main_pc s = Returned (Some (ProtoError ErrNoStatusMsg)))
    by (vm_compute; reflexivity).
  assert (Htr : trace (world s)
                = [EvSend storeRequestMsg
                     (BStore (mkStoreRequest (replicate 32 2) [1; 2; 3] 7));
                   EvSend statusMsg (handshake sample_env);
                   EvDbDelete pending_key])
    by (vm_compute; reflexivity).
  split; [exact Hpc|]. split; [exact Htr|].
  split; [|eexists; vm_compute; reflexivity].
  destruct (runBzzProtocol_never_returns_nil sample_env sample_addrKey unwelcome_world
              [TurnLoop; TurnLoop; TurnMain; TurnMain; TurnLoop; TurnLoop; TurnLoop]
              eq_refl) as ((calls & Ht & _ & _ & Hopen) & _).
  fold s in Ht, Hopen. apply Hopen.
  rewrite Htr in Ht. cbn [trace unwelcome_world app] in Ht. subst calls.
  vm_compute. reflexivity.
Defined.

End BzzExtFacts.

Module RecordFacts.
Import Kad Table TableExt TableFacts.

(** *** Filing the records of known nodes *)








(** X26.  The rows of [nodeDB] are one short for a table with
    [MaxProx >= 256]: [Start] makes [8 * len(addr) = 256] rows, and a record
    of the table's own address, which the index does not have yet, is of
    bin 256: [AddNodeRecords] panics at [self.nodeDB[index]]. *)
Theorem AddNodeRecords_own_address_panics k index nr rest :
  wf_address (addr k) -> 256 <= MaxProx k -> len (nodeDB k) = 256 ->
  index !! addr k = None -> nr_Address nr = addr k ->
  AddNodeRecords (k, index) (Some nr :: rest) = None.
Proof.
  intros Hs HM Hlen Hidx Ha. cbn [AddNodeRecords]. unfold addNodeRecord.
  cbn [fst snd]. rewrite Ha, Hidx.
  assert (Hbin : proximityBin k (addr k) = 256).
  { unfold proximityBin.
    assert (H256 : 256 <= proximity (addr k) (addr k))
      by (by apply KadExtFacts.proximity_ge_bits).
    pose proof (KadExtFacts.proximity_range (addr k) (addr k) Hs Hs).
    destruct (Z.gtb_spec (proximity (addr k) (addr k)) (MaxProx k)); lia. }
  rewrite Hbin. unfold slice_at. rewrite Hlen. done.
Qed.

Lemma AddNodeRecords_own_address_panics_witness :
  AddNodeRecords
    (default New (Start (mkKademlia [] 256 0 0 0 [] 0 0 0 [] false) self_addr), ∅)
    [Some (mkNodeRecord self_addr EmptyString 0 None)] = None.
Proof.
  apply (AddNodeRecords_own_address_panics
           (default New (Start (mkKademlia [] 256 0 0 0 [] 0 0 0 [] false) self_addr))
           ∅ (mkNodeRecord self_addr EmptyString 0 None) []).
  - apply (bool_decide_unpack _). vm_compute. reflexivity.
  - vm_compute. congruence.
  - vm_compute. reflexivity.
  - apply lookup_empty.
  - reflexivity.
Defined.

End RecordFacts.

Module PersistFacts.
Import Kad Table TableExt TableFacts.

(** *** Stopping and starting again *)

Lemma Stop_effect {Data} (d : Disk Data) k path files :
  started k = true ->
  exists db,
    (Stop d k path files).1.1 = set_nodeDB (set_started k false) db.
Proof.
  intros Hs. unfold Stop, Save. rewrite Hs. cbn [negb].
  destruct (String.length path =? 0)%nat.
  - exists (nodeDB k). by destruct k.
  - cbn zeta. eexists.
    destruct (MarshalIndent d _); [destruct (write_error d path)|]; reflexivity.
Qed.

(** X27.  [Stop] followed by [Start] makes new, empty buckets, but leaves
    [count], [proxLimit] and [proxSize] as they were: the restarted table
    holds no node while [Count()] and [proxLimit] still tell of the nodes it
    held; with [proxLimit > 0] the bins below [proxLimit] are empty.  [Stop]
    on a table that is not started does nothing. *)
Theorem restart_keeps_count_and_proxLimit {Data} (d : Disk Data) k path files a :
  wf_table k -> started k = true ->
  exists k2,
    Start (Stop d k path files).1.1 a = Some k2
    /\ addr k2 = a /\ started k2 = true
    /\ Forall (fun b => nodes b = []) (buckets k2)
    /\ Count k2 = Count k /\ proxLimit k2 = proxLimit k /\ proxSize k2 = proxSize k
    /\ (0 < proxLimit k -> ~ low_bins_nonempty k2)
    /\ Stop d (Stop d k path files).1.1 path files
       = ((Stop d k path files).1.1, files, None).
Proof.
  intros (HM & Hlen & HP & Hbs) Hs.
  destruct (Stop_effect d k path files Hs) as (db & ->).
  unfold Start. cbn [started set_started set_nodeDB MaxProx BucketSize MaxProxBinSize
                     currentMaxBucketSize proxLimit proxSize count].
  set (M := if MaxProx k =? 0 then maxProx else MaxProx k).
  assert (HM' : 0 <= M < int_max).
  { unfold M, maxProx, int_max in *. destruct (MaxProx k =? 0); lia. }
  rewrite (int_wrap_small (M + 1)) by (unfold int_min, int_max in *; lia).
  destruct (Z.ltb_spec (M + 1) 0); [lia|].
  eexists. split; [done|]. cbn [addr started buckets Count count proxLimit proxSize].
  split; [done|]. split; [done|].
  split; [by apply Forall_replicate|].
  split; [done|]. split; [done|]. split; [done|]. split.
  - intros Hpos Hlow. destruct (Hlow 0) as (b & Hb & Hne).
    { cbn [proxLimit]. lia. }
    apply slice_at_Some in Hb as [_ Hb]. cbn [buckets] in Hb.
    apply lookup_replicate in Hb as [-> _]. by apply Hne.
  - reflexivity.
Qed.

Lemma restart_keeps_count_and_proxLimit_witness :
  exists k2,
    Start (Stop sample_disk spread_result "kad.json"%string ∅).1.1 self_addr = Some k2
    /\ Forall (fun b => nodes b = []) (buckets k2)
    /\ Count k2 = Count spread_result
    /\ proxLimit k2 = proxLimit spread_result.
Proof.
  destruct (restart_keeps_count_and_proxLimit sample_disk spread_result "kad.json"%string ∅
              self_addr)
    as (k2 & HS & _ & _ & Hempty & Hc & Hp & _).
  - apply (bool_decide_unpack _). vm_compute. reflexivity.
  - reflexivity.
  - exists k2. split; [exact HS|]. split; [exact Hempty|]. split; [exact Hc|exact Hp].
Defined.

(** *** Saving and loading the records *)

(** X28.  [Load] puts the rows of the file in place of the table's rows
    before it compares the addresses: when the file is of another address
    it returns the mismatch error and the table holds that file's records.
    It writes nothing but the rows.  A file that cannot be read or decoded
    leaves the table as it is.  After [Save], [Load] of the same path gives
    back the rows as [encoding/json] keeps them: with [Active] set from the
    live node and without the node. *)
Theorem Load_replaces_rows_before_check {Data} (d : Disk Data) k path files :
  (forall data kad,
     files !! path = Some data -> Unmarshal d data = Some kad ->
     (Load d k path files).1 = set_nodeDB k (kad_Nodes kad)
     /\ ((Load d k path files).2 = None <-> addr k = kad_Address kad)
     /\ (addr k <> kad_Address kad ->
         (Load d k path files).2 = Some (AddressMismatch (addr k) (kad_Address kad))))
  /\ (files !! path = None \/
      (exists data, files !! path = Some data /\ Unmarshal d data = None) ->
      (Load d k path files).1 = k /\ (Load d k path files).2 <> None)
  /\ ((forall kad data, MarshalIndent d kad = Some data ->
         Unmarshal d data
         = Some (mkKadDB (kad_Address kad) (map (map exported) (kad_Nodes kad)))) ->
      write_error d path = None ->
      is_Some (MarshalIndent d (mkKadDB (addr k) (map (map setActive) (nodeDB k)))) ->
      exists k1 files1,
        Save d k path files = (k1, files1, None)
        /\ Load d k1 path files1
           = (set_nodeDB k (map (map (fun nr => exported (setActive nr))) (nodeDB k)),
              None)).
Proof.
  split; [|split].
  - intros data kad Hf Hu. unfold Load. rewrite Hf, Hu.
    destruct (bool_decide_reflect (addr k = kad_Address kad)) as [E|E]; cbn [fst snd].
    + split; [done|]. split; [done|]. intros NE. by destruct NE.
    + split; [done|]. split; [|done]. split; [done|]. intros E'. by destruct E.
  - intros [Hf|(data & Hf & Hu)]; unfold Load; rewrite Hf; [done|]. by rewrite Hu.
  - intros Hjson Hw [data Hm]. unfold Save. rewrite Hm, Hw.
    eexists _, _. split; [reflexivity|].
    unfold Load. rewrite lookup_insert_eq, (Hjson _ _ Hm).
    cbn [kad_Address kad_Nodes addr set_nodeDB].
    rewrite bool_decide_eq_true_2 by done.
    f_equal. unfold set_nodeDB.
    cbn [addr MaxProx MaxProxBinSize BucketSize currentMaxBucketSize proxLimit
         proxSize count buckets started].
    f_equal. rewrite map_map. apply map_ext. intros row. by rewrite map_map.
Qed.

Lemma Load_replaces_rows_before_check_witness :
  exists k1 files1,
    Save sample_disk
      (set_nodeDB record_table [[live_record]]) "kad.json"%string ∅ = (k1, files1, None)
    /\ Load sample_disk k1 "kad.json"%string files1
       = (set_nodeDB (set_nodeDB record_table [[live_record]])
            (map (map (fun nr => exported (setActive nr))) [[live_record]]),
          None).
Proof.
  apply (proj2 (proj2 (Load_replaces_rows_before_check sample_disk
                         (set_nodeDB record_table [[live_record]]) "kad.json"%string ∅))).
  - intros kad data [= <-]. reflexivity.
  - reflexivity.
  - by eexists.
Defined.



End PersistFacts.
